(** * Procure4AI: the consolidation and rationalization pipeline of
      [src/app/page.tsx], embedded in Rocq.

    Strings are modelled as [String.string] over 7-bit ASCII: the whitespace
    class is the ASCII part of the [\s] class (TAB, LF, VT, FF, CR, SPACE) and
    the case conversions act on the letters A-Z and a-z.  Characters above 127
    are left alone by every operation of this file. *)

From Stdlib Require Import String Ascii List Bool Arith ZArith Lia.
Import ListNotations.
Open Scope string_scope.
Open Scope list_scope.

(** ** String primitives of the host language *)

Module JS.

(** The ASCII members of the whitespace class used by [trim] and by [\s]. *)
Definition isWhiteSpace (c : ascii) : bool :=
  let n := nat_of_ascii c in
  (Nat.leb 9 n && Nat.leb n 13) || Nat.eqb n 32.

Definition toUpperChar (c : ascii) : ascii :=
  let n := nat_of_ascii c in
  if Nat.leb 97 n && Nat.leb n 122 then ascii_of_nat (n - 32) else c.

Definition toLowerChar (c : ascii) : ascii :=
  let n := nat_of_ascii c in
  if Nat.leb 65 n && Nat.leb n 90 then ascii_of_nat (n + 32) else c.

Fixpoint map_chars (f : ascii -> ascii) (s : string) : string :=
  match s with
  | EmptyString => EmptyString
  | String c s' => String (f c) (map_chars f s')
  end.

(** [s.toUpperCase()] and [s.toLowerCase()] *)
Definition toUpperCase (s : string) : string := map_chars toUpperChar s.
Definition toLowerCase (s : string) : string := map_chars toLowerChar s.

Fixpoint trimStart (s : string) : string :=
  match s with
  | EmptyString => EmptyString
  | String c s' => if isWhiteSpace c then trimStart s' else s
  end.

Fixpoint trimEnd (s : string) : string :=
  match s with
  | EmptyString => EmptyString
  | String c s' =>
      match trimEnd s' with
      | EmptyString => if isWhiteSpace c then EmptyString else String c EmptyString
      | t => String c t
      end
  end.

(** [s.trim()] *)
Definition trim (s : string) : string := trimEnd (trimStart s).

(** [s.replace(/\s+/g, " ")]: every maximal run of whitespace becomes one
    space.  [inrun] tells that the previous character was whitespace. *)
Fixpoint replace_ws_from (inrun : bool) (s : string) : string :=
  match s with
  | EmptyString => EmptyString
  | String c s' =>
      if isWhiteSpace c
      then if inrun then replace_ws_from true s'
           else String " " (replace_ws_from true s')
      else String c (replace_ws_from false s')
  end.

Definition replace_ws (s : string) : string := replace_ws_from false s.

(** [s.split(sep)] for a one-character separator: the empty string gives
    one empty token, two adjacent separators give an empty token. *)
Fixpoint split (sep : ascii) (s : string) : list string :=
  match s with
  | EmptyString => [EmptyString]
  | String c s' =>
      if Ascii.eqb c sep then EmptyString :: split sep s'
      else match split sep s' with
           | [] => [String c EmptyString]
           | w :: ws => String c w :: ws
           end
  end.

(** [a.join(sep)] *)
Fixpoint join (sep : string) (a : list string) : string :=
  match a with
  | [] => EmptyString
  | [w] => w
  | w :: ws => w ++ sep ++ join sep ws
  end.

(** [w.charAt(0)] and [w.slice(1)] *)
Definition charAt0 (w : string) : string :=
  match w with
  | EmptyString => EmptyString
  | String c _ => String c EmptyString
  end.

Definition slice1 (w : string) : string :=
  match w with
  | EmptyString => EmptyString
  | String _ w' => w'
  end.

Definition dquote : ascii := ascii_of_nat 34.

(** The global replace of [exportCSV]: every double-quote character of [s]
    becomes two of them. *)
Fixpoint double_quotes (s : string) : string :=
  match s with
  | EmptyString => EmptyString
  | String c s' =>
      if Ascii.eqb c dquote
      then String dquote (String dquote (double_quotes s'))
      else String c (double_quotes s')
  end.

(** [a.some(p)], [a.indexOf(x)] *)
Definition some {A} (p : A -> bool) (a : list A) : bool := existsb p a.

Fixpoint indexOf (a : list string) (x : string) : option nat :=
  match a with
  | [] => None
  | y :: a' =>
      if String.eqb y x then Some 0
      else match indexOf a' x with
           | Some i => Some (S i)
           | None => None
           end
  end.

End JS.

(** ** Values, exceptions and the counters of a rationalization run *)

(** What a cell can hold at run time.  The declared type is [string], but a
    property read on an object literal also sees what the literal inherits
    from [Object.prototype]: functions (with their [length]) and, under
    [__proto__], the prototype object itself. *)
Inductive value : Type :=
| VString (s : string)
| VFunction (arity : nat)
| VObject.

Inductive error : Type := TypeError.

Inductive result (A : Type) : Type :=
| Ok (a : A)
| Throw (e : error).
Arguments Ok {A} a.
Arguments Throw {A} e.

(** [let abbrFixed = 0, casingFixed = 0, wsFixed = 0] *)
Record counters : Type := mkCounters {
  abbrFixed : nat;
  casingFixed : nat;
  wsFixed : nat
}.

Definition no_fixes : counters := mkCounters 0 0 0.

(** Computations that update the counters and may throw. *)
Definition M (A : Type) : Type := counters -> result (A * counters).

Definition ret {A} (a : A) : M A := fun k => Ok (a, k).
Definition bind {A B} (m : M A) (f : A -> M B) : M B :=
  fun k => match m k with
           | Ok (a, k') => f a k'
           | Throw e => Throw e
           end.
Definition throw {A} (e : error) : M A := fun _ => Throw e.

Notation "x <- m ;; f" := (bind m (fun x => f))
  (at level 61, m at next level, right associativity).
Notation "m ;;; f" := (bind m (fun _ => f))
  (at level 61, right associativity).

Definition incr_ws : M unit :=
  fun k => Ok (tt, mkCounters (abbrFixed k) (casingFixed k) (S (wsFixed k))).
Definition incr_abbr : M unit :=
  fun k => Ok (tt, mkCounters (S (abbrFixed k)) (casingFixed k) (wsFixed k)).
Definition incr_casing : M unit :=
  fun k => Ok (tt, mkCounters (abbrFixed k) (S (casingFixed k)) (wsFixed k)).

Fixpoint mapM {A B} (f : A -> M B) (l : list A) : M (list B) :=
  match l with
  | [] => ret []
  | a :: l' => b <- f a ;; bs <- mapM f l' ;; ret (b :: bs)
  end.

(** Receiver of a string method call ([c.trim()], [c.toLowerCase()], ...):
    a value that is not a string has no such method and the call throws. *)
Definition string_method (v : value) : M string :=
  match v with
  | VString s => ret s
  | _ => throw TypeError
  end.

(** [v.length]; [None] is [undefined]. *)
Definition length_of (v : value) : option nat :=
  match v with
  | VString s => Some (String.length s)
  | VFunction n => Some n
  | VObject => None
  end.

(** Truthiness, as tested by [if (x)]. *)
Definition truthy (v : value) : bool :=
  match v with
  | VString s => negb (String.eqb s EmptyString)
  | _ => true
  end.

(** ** The value-abbreviation dictionary *)

(** The own properties of the object literal [VALUE_ABBREVIATIONS]. *)
Definition VALUE_ABBREVIATIONS : list (string * string) :=
  [ ("ea", "Each"); ("ea.", "Each"); ("EA", "Each");
    ("pcs", "Pieces"); ("pcs.", "Pieces"); ("PCS", "Pieces"); ("pc", "Pieces");
    ("nos", "Numbers"); ("nos.", "Numbers") ].

(** What every object literal inherits from [Object.prototype]: the
    constructor and the built-in methods, each a function with its [length],
    and the accessor [__proto__], which reads as the prototype object. *)
Definition Object_prototype : list (string * value) :=
  [ ("constructor", VFunction 1);
    ("hasOwnProperty", VFunction 1);
    ("isPrototypeOf", VFunction 1);
    ("propertyIsEnumerable", VFunction 1);
    ("toLocaleString", VFunction 0);
    ("toString", VFunction 0);
    ("valueOf", VFunction 0);
    ("__defineGetter__", VFunction 2);
    ("__defineSetter__", VFunction 2);
    ("__lookupGetter__", VFunction 1);
    ("__lookupSetter__", VFunction 1);
    ("__proto__", VObject) ].

Fixpoint assoc {V} (k : string) (l : list (string * V)) : option V :=
  match l with
  | [] => None
  | (k', v) :: l' => if String.eqb k' k then Some v else assoc k l'
  end.

(** [VALUE_ABBREVIATIONS[c]]: an own property first, then the prototype;
    [None] is [undefined]. *)
Definition get_abbreviation (c : string) : option value :=
  match assoc c VALUE_ABBREVIATIONS with
  | Some s => Some (VString s)
  | None => assoc c Object_prototype
  end.

(** ** Rationalization *)

(** [c.split(" ").map((w) => w.charAt(0).toUpperCase() + w.slice(1).toLowerCase()).join(" ")] *)
Definition title_word (w : string) : string :=
  JS.toUpperCase (JS.charAt0 w) ++ JS.toLowerCase (JS.slice1 w).

Definition titleCase (c : string) : string :=
  JS.join " " (map title_word (JS.split " " c)).

(** The inner [row.map((cell) => ...)] callback, statement by statement. *)

(** [let c = cell.trim(); if (c !== cell) wsFixed++; c = c.replace(/\s+/g, " ")] *)
Definition whitespace_pass (cell : string) : M string :=
  let c := JS.trim cell in
  (if String.eqb c cell then ret tt else incr_ws) ;;;
  ret (JS.replace_ws c).

(** [if (VALUE_ABBREVIATIONS[c]) { c = VALUE_ABBREVIATIONS[c]; abbrFixed++; }] *)
Definition abbreviation_pass (c : string) : M value :=
  match get_abbreviation c with
  | Some v => if truthy v then incr_abbr ;;; ret v else ret (VString c)
  | None => ret (VString c)
  end.

(** [if (c.length > 3 && (c === c.toUpperCase() || c === c.toLowerCase()))]
    with its title-casing body. *)
Definition casing_pass (c : value) : M value :=
  match length_of c with
  | Some n =>
      if Nat.ltb 3 n then
        s <- string_method c ;;
        if String.eqb s (JS.toUpperCase s) || String.eqb s (JS.toLowerCase s)
        then
          let titled := titleCase s in
          if String.eqb titled s then ret c
          else incr_casing ;;; ret (VString titled)
        else ret c
      else ret c
  | None => ret c
  end.

Definition normalize_cell (cell : value) : M value :=
  s <- string_method cell ;;
  c <- whitespace_pass s ;;
  c <- abbreviation_pass c ;;
  casing_pass c.

(** [mergedRows.map((row) => row.map((cell) => ...))] *)
Definition normalize_rows (rows : list (list value)) : M (list (list value)) :=
  mapM (mapM normalize_cell) rows.

(** [row.map((c) => c.toLowerCase()).join("|")] *)
Definition row_key (row : list value) : M string :=
  lowered <- mapM (fun c => s <- string_method c ;; ret (JS.toLowerCase s)) row ;;
  ret (JS.join "|" lowered).

(** [seen.has(key)] *)
Definition has (seen : list string) (key : string) : bool :=
  existsb (String.eqb key) seen.

(** The [normalized.forEach((row) => ...)] loop, from a given state of
    [seen], [deduped] and [dupsRemoved]. *)
Fixpoint dedup_loop (rows : list (list value))
    (seen : list string) (deduped : list (list value)) (dupsRemoved : nat)
    : M (list (list value) * nat) :=
  match rows with
  | [] => ret (deduped, dupsRemoved)
  | row :: rows' =>
      key <- row_key row ;;
      if negb (has seen key)
      then dedup_loop rows' (seen ++ [key]) (deduped ++ [row]) dupsRemoved
      else dedup_loop rows' seen deduped (S dupsRemoved)
  end.

Definition deduplicate (normalized : list (list value)) : M (list (list value) * nat) :=
  dedup_loop normalized [] [] 0.

(** The test of the [some] callback: [c] is not the empty string. *)
Definition not_empty_string (c : value) : bool :=
  match c with
  | VString s => negb (String.eqb s EmptyString)
  | _ => true
  end.

(** [deduped.filter((r) => r.some(...))]: rows with a non-empty cell. *)
Definition drop_empty_rows (deduped : list (list value)) : list (list value) :=
  filter (fun r => JS.some not_empty_string r) deduped.

(** The part of [DetailedStats] that a rationalization run sets. *)
Record RationStats : Type := mkRationStats {
  duplicatesRemoved : nat;
  abbreviationsFixed : nat;
  casingFixedStat : nat;
  whitespaceFixed : nat;
  outputRows : nat
}.

Record Rationalized : Type := mkRationalized {
  rationHeaders : list string;
  rationRows : list (list value);
  rationStats : RationStats
}.

(** The callback that computes the result of [rationalize] from
    [mergedHeaders] and [mergedRows].  When it throws, no setter has run. *)
Definition rationalize (mergedHeaders : list string) (mergedRows : list (list value))
    : result Rationalized :=
  let run : M Rationalized :=
    normalized <- normalize_rows mergedRows ;;
    dd <- deduplicate normalized ;;
    let '(deduped, dupsRemoved) := dd in
    let cleaned := drop_empty_rows deduped in
    let dupsRemoved := dupsRemoved + (List.length deduped - List.length cleaned) in
    fun k =>
      Ok (mkRationalized mergedHeaders cleaned
            (mkRationStats dupsRemoved (abbrFixed k) (casingFixed k) (wsFixed k)
                           (List.length cleaned)), k) in
  match run no_fixes with
  | Ok (r, _) => Ok r
  | Throw e => Throw e
  end.

(** A merged table whose cells are strings, as [mergeAndPreview] builds it. *)
Definition cells (rows : list (list string)) : list (list value) :=
  map (map VString) rows.

(** ** CSV export *)

Definition newline : string := String (ascii_of_nat 10) EmptyString.

(** The template literal that wraps its argument in double quotes. *)
Definition quoted (s : string) : string :=
  String JS.dquote (s ++ String JS.dquote EmptyString).

(** The text that [exportCSV] hands to the [Blob]: header fields are wrapped,
    data fields have their quotes doubled and are wrapped. *)
Definition exportCSV (rationHeaders : list string) (rationRows : list (list string))
    : string :=
  JS.join newline
    (JS.join "," (map (fun h => quoted h) rationHeaders)
     :: map (fun r => JS.join "," (map (fun c => quoted (JS.double_quotes c)) r))
            rationRows).

(** ** Column mapping and merge *)

Record FileData : Type := mkFileData {
  fileName : string;
  headers : list string;
  rows : list (list string)
}.

Definition COLUMN_SYNONYMS : list (string * list string) :=
  [ ("Part Number", ["part number"; "p/n"; "pn"; "item code"; "item id"; "sku"; "part no"; "part no."]);
    ("Description", ["description"; "desc"; "desc."; "part desc"; "part description"; "item description"; "name"; "item name"]);
    ("Quantity", ["quantity"; "qty"; "qty."; "units"; "count"; "amount"]);
    ("Unit of Measure", ["unit of measure"; "uom"; "unit"]);
    ("Unit Price", ["unit price"; "price"; "cost per unit"; "cost"; "rate"; "estimated cost"; "price per unit"]);
    ("Supplier", ["supplier"; "vendor"; "mfg"; "mfg."; "mfr"; "mfr."; "manufacturer"; "source"]) ].

(** Insertion-ordered [Map] and [Set], as association lists and lists: [set]
    on a present key replaces the value where it stands, [add] of a present
    element does nothing. *)
Module Map.
Section WithKey.
Context {K V : Type} (eqb : K -> K -> bool).

Fixpoint get (m : list (K * V)) (k : K) : option V :=
  match m with
  | [] => None
  | (k', v) :: m' => if eqb k' k then Some v else get m' k
  end.

Fixpoint set (k : K) (v : V) (m : list (K * V)) : list (K * V) :=
  match m with
  | [] => [(k, v)]
  | (k', v') :: m' => if eqb k' k then (k, v) :: m' else (k', v') :: set k v m'
  end.

Definition has (m : list (K * V)) (k : K) : bool :=
  match get m k with Some _ => true | None => false end.
End WithKey.
End Map.

Definition set_add (x : string) (s : list string) : list string :=
  if existsb (String.eqb x) s then s else s ++ [x].

(** [synonymLookup]: every synonym set to its standard name, in table order. *)
Definition synonymLookup : list (string * string) :=
  fold_left
    (fun m entry =>
       let '(standard, synonyms) := entry in
       fold_left (fun m s => Map.set String.eqb s standard m) synonyms m)
    COLUMN_SYNONYMS [].

(** [allSourceCols]: the distinct raw header strings, in first-seen order. *)
Definition allSourceCols (files : list FileData) : list string :=
  fold_left (fun acc f => fold_left (fun acc h => set_add h acc) (headers f) acc)
            files [].

(** [src.toLowerCase().trim()] *)
Definition header_key (src : string) : string := JS.trim (JS.toLowerCase src).

(** [key.split(" ").map((w) => w.charAt(0).toUpperCase() + w.slice(1)).join(" ")] *)
Definition passthrough_word (w : string) : string :=
  JS.toUpperCase (JS.charAt0 w) ++ JS.slice1 w.

Definition passthrough (key : string) : string :=
  JS.join " " (map passthrough_word (JS.split " " key)).

(** [if (standard)] on the result of a [Map.get]: found and not empty. *)
Definition truthy_string (o : option string) : option string :=
  match o with
  | Some s => if String.eqb s EmptyString then None else Some s
  | None => None
  end.

(** The name a source column is mapped to: the standard name of its
    synonym, or the title-cased passthrough of its key. *)
Definition resolve (src : string) : string :=
  let key := header_key src in
  match truthy_string (Map.get String.eqb synonymLookup key) with
  | Some standard => standard
  | None => passthrough key
  end.

Record MappingState : Type := mkMappingState {
  colMapping : list (string * string);
  standardCols : list string;
  mappingTracker : list (string * list string)
}.

(** One iteration of [for (const src of allSourceCols)].  Both branches of
    the source run the same three statements on the name they chose. *)
Definition map_column (st : MappingState) (src : string) : MappingState :=
  let key := header_key src in
  let name := resolve src in
  let colMapping' := Map.set String.eqb key name (colMapping st) in
  let '(tracker, cols) :=
    if negb (Map.has String.eqb (mappingTracker st) name)
    then (Map.set String.eqb name [] (mappingTracker st), standardCols st ++ [name])
    else (mappingTracker st, standardCols st) in
  let sources :=
    match Map.get String.eqb tracker name with
    | Some srcs => srcs
    | None => []
    end in
  mkMappingState colMapping' cols (Map.set String.eqb name (set_add src sources) tracker).

Definition map_columns (files : list FileData) : MappingState :=
  fold_left map_column (allSourceCols files) (mkMappingState [] [] []).

(** [headerMap] of one file: header position to position in [standardCols]. *)
Fixpoint headerMap_from (st : MappingState) (i : nat) (hs : list string)
    (hm : list (nat * nat)) : list (nat * nat) :=
  match hs with
  | [] => hm
  | h :: hs' =>
      let hm' :=
        match truthy_string (Map.get String.eqb (colMapping st) (header_key h)) with
        | Some standard =>
            match JS.indexOf (standardCols st) standard with
            | Some idx => Map.set Nat.eqb i idx hm
            | None => hm
            end
        | None => hm
        end in
      headerMap_from st (S i) hs' hm'
  end.

Definition headerMap (st : MappingState) (f : FileData) : list (nat * nat) :=
  headerMap_from st 0 (headers f) [].

(** [merged[idx] = cell].  An array element is [Some] string or a hole
    ([None]); a write past the end extends the array and leaves holes. *)
Fixpoint array_set (idx : nat) (cell : string) (a : list (option string))
    : list (option string) :=
  match idx, a with
  | 0, [] => [Some cell]
  | 0, _ :: a' => Some cell :: a'
  | S i, [] => None :: array_set i cell []
  | S i, x :: a' => x :: array_set i cell a'
  end.

(** [row.forEach((cell, i) => ...)] on [merged], from position [i]. *)
Fixpoint fill_from (hm : list (nat * nat)) (i : nat) (row : list string)
    (merged : list (option string)) : list (option string) :=
  match row with
  | [] => merged
  | cell :: row' =>
      let merged' :=
        match Map.get Nat.eqb hm i with
        | Some idx => array_set idx cell merged
        | None => merged
        end in
      fill_from hm (S i) row' merged'
  end.

(** [new Array(standardCols.length).fill(...)] with the empty string, then
    the cells of [row]. *)
Definition merge_row (ncols : nat) (hm : list (nat * nat)) (row : list string)
    : list (option string) :=
  fill_from hm 0 row (repeat (Some EmptyString) ncols).

Record ColumnMapping : Type := mkColumnMapping {
  sources : list string;
  target : string
}.

Record Merged : Type := mkMerged {
  mergedHeaders : list string;
  mergedRows : list (list (option string));
  totalFiles : nat;
  totalSourceRows : nat;
  sourceColumns : nat;
  outputColumns : nat;
  columnMappings : list ColumnMapping
}.

Definition merge_rows (st : MappingState) (files : list FileData)
    : list (list (option string)) :=
  flat_map
    (fun f =>
       let hm := headerMap st f in
       map (merge_row (List.length (standardCols st)) hm) (rows f))
    files.

(** What [mergeAndPreview] stores, computed from [files]. *)
Definition mergeAndPreview (files : list FileData) : Merged :=
  let st := map_columns files in
  let rows := merge_rows st files in
  mkMerged (standardCols st) rows
           (List.length files) (List.length rows)
           (List.length (allSourceCols files)) (List.length (standardCols st))
           (map (fun e => mkColumnMapping (snd e) (fst e)) (mappingTracker st)).

(** ** Session stages *)

Inductive Step : Type := Upload | Preview | Rationalize | Export.
Inductive Phase : Type :=
  Idle | Analyzing | Mapping | Deduplicating | Normalizing | Done.

(** Position of a step in [STEPS]. *)
Definition step_index (s : Step) : nat :=
  match s with Upload => 0 | Preview => 1 | Rationalize => 2 | Export => 3 end.

(** The part of the component state that decides which controls are shown:
    the step, the phase, how many files are loaded and the phase changes
    still scheduled by [setTimeout]. *)
Record Session : Type := mkSession {
  step : Step;
  phase : Phase;
  nfiles : nat;
  timers : list Phase
}.

Definition initial : Session := mkSession Upload Idle 0 [].

(** Events: clicks on the controls of the page and timers that fire. *)
Inductive Event : Type :=
| StepperClick (target : Step)   (* a stepper button *)
| FilesIngested (n : nat)        (* drop or file input, n files parsed *)
| RemoveFile                     (* the cross of a loaded file *)
| Consolidate                    (* calls mergeAndPreview *)
| PreviewBack                    (* Back on the preview card *)
| RationalizeClick               (* calls rationalize *)
| TimerFires (i : nat)           (* the i-th pending timeout runs *)
| ResultsBack                    (* Back on the results card *)
| ResultsNext                    (* Export and Next Steps *)
| DownloadCSV
| DownloadExcel
| Reset.                         (* Start over with new files *)

Definition Step_eqb (a b : Step) : bool := Nat.eqb (step_index a) (step_index b).

Definition Phase_is_done (p : Phase) : bool :=
  match p with Done => true | _ => false end.

Fixpoint remove_nth {A} (i : nat) (l : list A) : list A :=
  match i, l with
  | _, [] => []
  | 0, _ :: l' => l'
  | S i', x :: l' => x :: remove_nth i' l'
  end.

(** What an event does to the session; [None] when the control is not
    rendered, is disabled, or its handler does nothing. *)
Definition handle (e : Event) (s : Session) : option Session :=
  match e with
  | StepperClick target =>
      (* done = i < stepIdx; onClick={() => done && setStep(s.key)} *)
      if Nat.ltb (step_index target) (step_index (step s))
      then Some (mkSession target (phase s) (nfiles s) (timers s))
      else None
  | FilesIngested n =>
      if Step_eqb (step s) Upload
      then Some (mkSession (step s) (phase s) (nfiles s + n) (timers s))
      else None
  | RemoveFile =>
      if Step_eqb (step s) Upload && Nat.ltb 0 (nfiles s)
      then Some (mkSession (step s) (phase s) (nfiles s - 1) (timers s))
      else None
  | Consolidate =>
      (* disabled={files.length === 0} *)
      if Step_eqb (step s) Upload && negb (Nat.eqb (nfiles s) 0)
      then Some (mkSession Preview (phase s) (nfiles s) (timers s))
      else None
  | PreviewBack =>
      if Step_eqb (step s) Preview
      then Some (mkSession Upload (phase s) (nfiles s) (timers s))
      else None
  | RationalizeClick =>
      if Step_eqb (step s) Preview
      then Some (mkSession Rationalize Analyzing (nfiles s)
                   (timers s ++ [Mapping; Deduplicating; Normalizing; Done]))
      else None
  | TimerFires i =>
      match nth_error (timers s) i with
      | Some p => Some (mkSession (step s) p (nfiles s) (remove_nth i (timers s)))
      | None => None
      end
  | ResultsBack =>
      if Step_eqb (step s) Rationalize && Phase_is_done (phase s)
      then Some (mkSession Preview (phase s) (nfiles s) (timers s))
      else None
  | ResultsNext =>
      if Step_eqb (step s) Rationalize && Phase_is_done (phase s)
      then Some (mkSession Export (phase s) (nfiles s) (timers s))
      else None
  | DownloadCSV | DownloadExcel =>
      if Step_eqb (step s) Export then Some s else None
  | Reset =>
      if Step_eqb (step s) Export
      then Some (mkSession Upload Idle 0 (timers s))
      else None
  end.

(** A run of the page: the sessions reachable from the initial one. *)
Inductive reachable : Session -> Prop :=
| reach_initial : reachable initial
| reach_step : forall s e s', reachable s -> handle e s = Some s' -> reachable s'.

(** ** Reference descriptions used in the statements *)

(** Letter by letter: a character is capitalized when it starts the string
    or follows a space; every other character goes through [rest]. *)
Fixpoint capitalize_from (rest : ascii -> ascii) (start : bool) (s : string)
    : string :=
  match s with
  | EmptyString => EmptyString
  | String c s' =>
      String (if start then JS.toUpperChar c else rest c)
             (capitalize_from rest (Ascii.eqb c " ") s')
  end.

Definition title_by_letter (s : string) : string :=
  capitalize_from JS.toLowerChar true s.

Definition passthrough_by_letter (s : string) : string :=
  capitalize_from (fun c => c) true s.

(** The maximal runs of characters that are not whitespace. *)
Fixpoint whitespace_tokens (s : string) : list string :=
  match s with
  | EmptyString => []
  | String c s' =>
      if JS.isWhiteSpace c then whitespace_tokens s'
      else match s' with
           | EmptyString => [String c EmptyString]
           | String d _ =>
               if JS.isWhiteSpace d
               then String c EmptyString :: whitespace_tokens s'
               else match whitespace_tokens s' with
                    | w :: ws => String c w :: ws
                    | [] => [String c EmptyString]
                    end
           end
  end.

(** The passthrough name as the specification words it: split on
    whitespace, capitalize each token, rejoin with single spaces. *)
Definition passthrough_on_whitespace (key : string) : string :=
  JS.join " " (map passthrough_word (whitespace_tokens key)).

(** The cell contains the key separator of the deduplication pass. *)
Fixpoint has_bar (s : string) : bool :=
  match s with
  | EmptyString => false
  | String c s' => Ascii.eqb c "|" || has_bar s'
  end.

(** Case-insensitive image of a row of strings, and its composite key. *)
Definition lowered (row : list string) : list string := map JS.toLowerCase row.

Definition key_of (row : list string) : string := JS.join "|" (lowered row).

(** The deduplication loop on rows of strings, where [toLowerCase] cannot
    throw: the same three variables, without the monad. *)
Fixpoint dedup_strings (rows : list (list string))
    (seen : list string) (deduped : list (list string)) (dupsRemoved : nat)
    : list string * list (list string) * nat :=
  match rows with
  | [] => (seen, deduped, dupsRemoved)
  | row :: rows' =>
      if negb (has seen (key_of row))
      then dedup_strings rows' (seen ++ [key_of row]) (deduped ++ [row]) dupsRemoved
      else dedup_strings rows' seen deduped (S dupsRemoved)
  end.

(** The dictionary read on [c] finds something that is not a string: [c] is
    no own key and spells a name inherited from [Object.prototype]. *)
Definition inherited_name (c : string) : bool :=
  match get_abbreviation c with
  | Some (VString _) | None => false
  | Some _ => true
  end.

(** A cell the dictionary read is harmless on. *)
Definition safe_cell (cell : string) : bool :=
  negb (inherited_name (JS.replace_ws (JS.trim cell))).

(** What the cell callback returns for a safe cell, counters aside. *)
Definition casing_string (c : string) : string :=
  if Nat.ltb 3 (String.length c)
     && (String.eqb c (JS.toUpperCase c) || String.eqb c (JS.toLowerCase c))
  then titleCase c else c.

Definition normalized_string (cell : string) : string :=
  let c := JS.replace_ws (JS.trim cell) in
  match assoc c VALUE_ABBREVIATIONS with
  | Some expansion => casing_string expansion
  | None => casing_string c
  end.

(** Whitespace normal form: no whitespace at either end, and inside only
    single spaces.  [prev] tells that the previous character was whitespace
    or that the string starts here. *)
Fixpoint ws_normal_from (prev : bool) (s : string) : bool :=
  match s with
  | EmptyString => true
  | String c s' =>
      if JS.isWhiteSpace c
      then Ascii.eqb c " " && negb prev
           && match s' with EmptyString => false | _ => true end
           && ws_normal_from true s'
      else ws_normal_from false s'
  end.

Definition ws_normal (s : string) : bool := ws_normal_from true s.

(** The last character, if any, is not whitespace. *)
Fixpoint no_trailing_ws (s : string) : bool :=
  match s with
  | EmptyString => true
  | String c s' =>
      match s' with
      | EmptyString => negb (JS.isWhiteSpace c)
      | _ => no_trailing_ws s'
      end
  end.

(** The row filter of [drop_empty_rows], on rows of strings. *)
Definition has_content (row : list string) : bool :=
  existsb (fun c => negb (String.eqb c EmptyString)) row.

(** An array element that is not a hole. *)
Definition filled (x : option string) : Prop := x <> None.

(** Entries of a header map point inside [standardCols] and come from
    header positions below [bound]. *)
Definition header_map_ok (n bound : nat) (hm : list (nat * nat)) : Prop :=
  forall i idx, Map.get Nat.eqb hm i = Some idx -> idx < n /\ i < bound.

(** The value is a string. *)
Definition is_string (v : value) : Prop := exists s, v = VString s.

(** What a completed run on a table of strings returns. *)
Definition rationalized_strings (rows : list (list string)) : list (list string) :=
  filter has_content
    (snd (fst (dedup_strings (map (map normalized_string) rows) [] [] 0))).

(** ** CSV intake *)

(** The [for] loop of [parseCSVLine] over the rest of the line, from a
    given state of [result], [current] and [inQuotes], with the final
    [result.push(current.trim())]. *)
Fixpoint parseCSVLine_from (line : string) (result : list string)
    (current : string) (inQuotes : bool) : list string :=
  match line with
  | EmptyString => result ++ [JS.trim current]
  | String ch rest =>
      if Ascii.eqb ch JS.dquote
      then parseCSVLine_from rest result current (negb inQuotes)
      else if Ascii.eqb ch "," && negb inQuotes
           then parseCSVLine_from rest (result ++ [JS.trim current]) EmptyString inQuotes
           else parseCSVLine_from rest result (current ++ String ch EmptyString) inQuotes
  end.

Definition parseCSVLine (line : string) : list string :=
  parseCSVLine_from line [] EmptyString false.

Definition LF : ascii := ascii_of_nat 10.
Definition CR : ascii := ascii_of_nat 13.

(** The [.csv] branch of [ingestFiles] on the text of one file: the lines
    that are not blank, the first as headers and the others as rows;
    nothing is pushed when no line is left. *)
Definition ingest_csv (name text : string) : option FileData :=
  let lines :=
    filter (fun l => negb (String.eqb (JS.trim l) EmptyString)) (JS.split LF text) in
  match lines with
  | [] => None
  | first :: others =>
      Some (mkFileData name (parseCSVLine first) (map parseCSVLine others))
  end.

(** The character occurs in the string. *)
Fixpoint contains (c : ascii) (s : string) : bool :=
  match s with
  | EmptyString => false
  | String d s' => Ascii.eqb d c || contains c s'
  end.

(** The string without its double-quote characters. *)
Fixpoint strip_quotes (s : string) : string :=
  match s with
  | EmptyString => EmptyString
  | String c s' =>
      if Ascii.eqb c JS.dquote then strip_quotes s' else String c (strip_quotes s')
  end.

(** Every character is whitespace. *)
Fixpoint all_whitespace (s : string) : bool :=
  match s with
  | EmptyString => true
  | String c s' => JS.isWhiteSpace c && all_whitespace s'
  end.

(** [suffix] appended to every element but the last. *)
Fixpoint append_to_all_but_last (suffix : string) (l : list string) : list string :=
  match l with
  | [] => []
  | [x] => [x]
  | x :: l' => (x ++ suffix)%string :: append_to_all_but_last suffix l'
  end.

(** The filter of [ingestFiles]: the trimmed line is not empty. *)
Definition not_blank (l : string) : bool := negb (String.eqb (JS.trim l) EmptyString).

(** A field as the round trip needs it: no line feed, no double quote, and
    nothing for [trim] to remove. *)
Definition plain_field (s : string) : Prop :=
  contains LF s = false /\ contains JS.dquote s = false /\ JS.trim s = s.

(** One data line of [exportCSV]: the cells with their quotes doubled,
    wrapped and joined with commas. *)
Definition export_line (r : list string) : string :=
  JS.join "," (map (fun c => quoted (JS.double_quotes c)) r).

(** What the mapping loop keeps true after the source columns [processed]:
    the tracker and [standardCols] list the same names in the same order,
    without repetition; every processed column is recorded under the name
    it resolves to, in [colMapping] and in the tracker; every tracker entry
    has sources, all of them processed columns that resolve to its name. *)
Definition mapping_invariant (processed : list string) (st : MappingState) : Prop :=
  map fst (mappingTracker st) = standardCols st
  /\ NoDup (standardCols st)
  /\ (forall src, In src processed ->
        Map.get String.eqb (colMapping st) (header_key src) = Some (resolve src)
        /\ exists srcs, In (resolve src, srcs) (mappingTracker st) /\ In src srcs)
  /\ (forall t srcs, In (t, srcs) (mappingTracker st) ->
        srcs <> [] /\ forall s, In s srcs -> In s processed /\ resolve s = t)
  /\ List.length (standardCols st) <= List.length processed.

(** The filter of the mapping display:
    [m.sources.length > 1 || m.sources[0] !== m.target]. *)
Definition nontrivial_mapping (m : ColumnMapping) : bool :=
  Nat.ltb 1 (List.length (sources m))
  || match sources m with
     | s :: _ => negb (String.eqb s (target m))
     | [] => true
     end.

(** The standard column a header position is mapped to, as [headerMap]
    computes it. *)
Definition mapped_index (st : MappingState) (h : string) : option nat :=
  match truthy_string (Map.get String.eqb (colMapping st) (header_key h)) with
  | Some standard => JS.indexOf (standardCols st) standard
  | None => None
  end.

(** [l1] is [l2] with some elements left out, order kept. *)
Inductive subsequence {A : Type} : list A -> list A -> Prop :=
| subsequence_nil : subsequence [] []
| subsequence_skip : forall x l1 l2, subsequence l1 l2 -> subsequence l1 (x :: l2)
| subsequence_keep : forall x l1 l2, subsequence l1 l2 -> subsequence (x :: l1) (x :: l2).

(** How far the counters may have moved over [n] cells: none goes down,
    the whitespace counter goes up by at most [n], and so do the
    abbreviation and casing counters together. *)
Definition counters_within (n : nat) (k k' : counters) : Prop :=
  abbrFixed k <= abbrFixed k' /\ casingFixed k <= casingFixed k'
  /\ wsFixed k <= wsFixed k'
  /\ abbrFixed k' + casingFixed k' <= abbrFixed k + casingFixed k + n
  /\ wsFixed k' <= wsFixed k + n.

(** ** Progress rows and the data table *)

Definition PHASE_ORDER : list Phase := [Analyzing; Mapping; Deduplicating; Normalizing].

Definition Phase_eqb (a b : Phase) : bool :=
  match a, b with
  | Idle, Idle | Analyzing, Analyzing | Mapping, Mapping
  | Deduplicating, Deduplicating | Normalizing, Normalizing | Done, Done => true
  | _, _ => false
  end.

(** [l.indexOf(p)] on phases, [-1] when [p] is not in [l]. *)
Fixpoint phase_indexOf (l : list Phase) (p : Phase) : Z :=
  match l with
  | [] => (-1)%Z
  | q :: l' =>
      if Phase_eqb q p then 0%Z
      else let i := phase_indexOf l' p in
           if Z.ltb i 0 then (-1)%Z else (i + 1)%Z
  end.

(** The three marks [PhaseRow] computes for the row of [phase] when the
    session is in phase [current]. *)
Record RowMarks : Type := mkRowMarks {
  row_done : bool;
  row_active : bool;
  row_pending : bool
}.

Definition PhaseRow (phase current : Phase) : RowMarks :=
  let ci := phase_indexOf PHASE_ORDER current in
  let pi := phase_indexOf PHASE_ORDER phase in
  mkRowMarks (Z.gtb ci pi) (Z.eqb ci pi) (Z.ltb ci pi).

(** [DataTable]: the rows it renders, [rows.slice(0, MAX)], and whether it
    shows the notice below them, [rows.length > MAX]. *)
Definition MAX : nat := 100.

Definition shown_rows {A} (rows : list A) : list A := firstn MAX rows.

Definition more_rows_notice {A} (rows : list A) : bool :=
  Nat.ltb MAX (List.length rows).

(** What holds in every session a run of the page can reach: past the
    upload stage a file is loaded, in the rationalize and export stages the
    phase is past idle, and pending timers only set processing phases. *)
Definition session_invariant (s : Session) : Prop :=
  (step s <> Upload -> 0 < nfiles s)
  /\ (step s = Rationalize \/ step s = Export -> phase s <> Idle)
  /\ Forall (fun p => p <> Idle /\ p <> Analyzing) (timers s).

(** ** Which branch of [ingestFiles] a file name takes *)

(** [s.endsWith(suffix)] *)
Fixpoint endsWith (s suffix : string) : bool :=
  String.eqb s suffix
  || match s with
     | EmptyString => false
     | String _ s' => endsWith s' suffix
     end.

Inductive FileKind : Type := CsvFile | SheetFile | NotRead.

(** [file.name.endsWith(".csv")] first, then the test of the
    case-insensitive pattern for a final [.xls] or [.xlsx]; a name that
    passes neither is not read. *)
Definition file_kind (name : string) : FileKind :=
  if endsWith name ".csv" then CsvFile
  else if endsWith (JS.toLowerCase name) ".xls"
          || endsWith (JS.toLowerCase name) ".xlsx"
       then SheetFile
       else NotRead.

(** The last character of a string. *)
Fixpoint last_char (s : string) : option ascii :=
  match s with
  | EmptyString => None
  | String c EmptyString => Some c
  | String _ s' => last_char s'
  end.

(** The string is made of 7-bit ASCII characters, the characters on which
    the string primitives of this file are those of the host language. *)
Definition ascii_char (c : ascii) : bool := Nat.ltb (nat_of_ascii c) 128.

Fixpoint ascii_only (s : string) : bool :=
  match s with
  | EmptyString => true
  | String c s' => ascii_char c && ascii_only s'
  end.

(** * Theorems *)

(** ** Monad and list helpers *)

Lemma bind_Ok {A B} (m : M A) (f : A -> M B) k b k' :
  bind m f k = Ok (b, k') ->
  exists a k1, m k = Ok (a, k1) /\ f a k1 = Ok (b, k').
Proof.
  unfold bind. destruct (m k) as [[a k1]|e]; [|discriminate].
  intros H. exists a, k1. split; [reflexivity|exact H].
Qed.

Lemma ret_Ok {A} (a b : A) k k' : ret a k = Ok (b, k') -> a = b /\ k = k'.
Proof. unfold ret. intros H. inversion H. split; reflexivity. Qed.

Lemma mapM_length {A B} (f : A -> M B) l : forall k l' k',
  mapM f l k = Ok (l', k') -> List.length l' = List.length l.
Proof.
  induction l as [|a l IH]; simpl; intros k l' k' H.
  - apply ret_Ok in H. destruct H as [<- _]. reflexivity.
  - apply bind_Ok in H. destruct H as (b & k1 & _ & H).
    apply bind_Ok in H. destruct H as (bs & k2 & Hbs & H).
    apply ret_Ok in H. destruct H as [<- _]. simpl.
    f_equal. eapply IH. exact Hbs.
Qed.

Lemma dedup_loop_count rows : forall seen deduped n k deduped' n' k',
  dedup_loop rows seen deduped n k = Ok ((deduped', n'), k') ->
  List.length deduped' + n' = List.length rows + List.length deduped + n.
Proof.
  induction rows as [|row rows IH]; simpl; intros seen deduped n k deduped' n' k' H.
  - apply ret_Ok in H. destruct H as [H _]. inversion H. reflexivity.
  - apply bind_Ok in H. destruct H as (key & k1 & _ & H).
    destruct (negb (has seen key)).
    + apply IH in H. rewrite H. rewrite length_app. simpl. lia.
    + apply IH in H. rewrite H. lia.
Qed.

Lemma drop_empty_rows_length deduped :
  List.length (drop_empty_rows deduped) <= List.length deduped.
Proof. unfold drop_empty_rows. apply filter_length_le. Qed.

(** What a completed run of [rationalize] is made of. *)
Lemma rationalize_Ok_inv hdrs rows r :
  rationalize hdrs rows = Ok r ->
  exists normalized k1 deduped dups k2,
    normalize_rows rows no_fixes = Ok (normalized, k1) /\
    deduplicate normalized k1 = Ok ((deduped, dups), k2) /\
    r = mkRationalized hdrs (drop_empty_rows deduped)
          (mkRationStats
             (dups + (List.length deduped - List.length (drop_empty_rows deduped)))
             (abbrFixed k2) (casingFixed k2) (wsFixed k2)
             (List.length (drop_empty_rows deduped))).
Proof.
  unfold rationalize. intros H.
  destruct (bind _ _ no_fixes) as [[r' k]|e] eqn:E; [|discriminate].
  inversion H; subst r'; clear H.
  apply bind_Ok in E. destruct E as (normalized & k1 & Hn & E).
  apply bind_Ok in E. destruct E as ([deduped dups] & k2 & Hd & E).
  inversion E; subst.
  exists normalized, k1, deduped, dups, k. repeat split; assumption.
Qed.

(** ** Rationalization: counters and failures *)

(** C2: when a rationalization run completes, the rows it outputs plus the
    [duplicatesRemoved] counter (duplicates and dropped empty rows together)
    add up to the number of merged rows, and [outputRows] is the output's
    row count. *)
Theorem row_count_conservation hdrs rows r :
  rationalize hdrs rows = Ok r ->
  List.length (rationRows r) + duplicatesRemoved (rationStats r) = List.length rows
  /\ outputRows (rationStats r) = List.length (rationRows r).
Proof.
  intros H. apply rationalize_Ok_inv in H.
  destruct H as (normalized & k1 & deduped & dups & k2 & Hn & Hd & ->). simpl.
  split; [|reflexivity].
  apply mapM_length in Hn. apply dedup_loop_count in Hd. simpl in Hd.
  pose proof (drop_empty_rows_length deduped). lia.
Qed.

Lemma row_count_conservation_witness :
  let rows := cells [["100"; "5"; "Widget"]; ["100"; "5"; "WIDGET"]; [EmptyString; " "; EmptyString]] in
  let r := mkRationalized ["Part Number"; "Quantity"; "Description"]
             (cells [["100"; "5"; "Widget"]]) (mkRationStats 2 0 1 1 1) in
  List.length (rationRows r) + duplicatesRemoved (rationStats r) = List.length rows
  /\ outputRows (rationStats r) = List.length (rationRows r).
Proof.
  intros rows r.
  apply (row_count_conservation ["Part Number"; "Quantity"; "Description"] rows r).
  vm_compute. reflexivity.
Defined.

(** C4: the run is not total.  A cell that spells a name every object
    literal inherits, here [constructor], makes the dictionary read return a
    function; the cell stops being a string and the deduplication pass
    throws when it lower-cases it. *)
Theorem rationalize_throws_on_inherited_name :
  normalize_cell (VString "constructor") no_fixes
    = Ok (VFunction 1, mkCounters 1 0 0)
  /\ rationalize ["Part Number"] (cells [["constructor"]]) = Throw TypeError.
Proof. split; vm_compute; reflexivity. Qed.

(** C1: a second run on the output of a first run can fail.  The first run
    title-cases [__PROTO__] to [__proto__] (one casing fix); on that table
    the dictionary read returns the prototype object and the run throws. *)
Theorem rationalize_twice_throws :
  rationalize ["Part Number"] (cells [["__PROTO__"]])
    = Ok (mkRationalized ["Part Number"] (cells [["__proto__"]])
            (mkRationStats 0 0 1 0 1))
  /\ rationalize ["Part Number"] (cells [["__proto__"]]) = Throw TypeError.
Proof. split; vm_compute; reflexivity. Qed.

(** C10: a cell that [trim] changes and whose trimmed, collapsed value is an
    own key of the abbreviation dictionary counts once as a whitespace fix
    and once as an abbreviation fix; a run on the one-cell table [" ea. "]
    reports both. *)
Theorem whitespace_and_abbreviation_both_counted :
  (forall (cell expansion : string) (k : counters),
      JS.trim cell <> cell ->
      assoc (JS.replace_ws (JS.trim cell)) VALUE_ABBREVIATIONS = Some expansion ->
      normalize_cell (VString cell) k
        = Ok (VString expansion,
              mkCounters (S (abbrFixed k)) (casingFixed k) (S (wsFixed k))))
  /\ rationalize ["Unit of Measure"] (cells [[" ea. "]])
       = Ok (mkRationalized ["Unit of Measure"] (cells [["Each"]])
               (mkRationStats 0 1 0 1 1)).
Proof.
  split; [|vm_compute; reflexivity].
  intros cell expansion k Htrim Hkey.
  unfold normalize_cell, string_method, whitespace_pass, abbreviation_pass, get_abbreviation.
  apply String.eqb_neq in Htrim.
  unfold bind at 1. unfold ret at 1.
  unfold bind at 1. unfold bind at 1. rewrite Htrim.
  unfold incr_ws at 1. unfold ret at 1.
  rewrite Hkey.
  assert (Hexp : expansion = "Each" \/ expansion = "Pieces" \/ expansion = "Numbers").
  { revert Hkey. generalize (JS.replace_ws (JS.trim cell)). intros c. simpl.
    repeat match goal with
           | |- (if ?b then _ else _) = _ -> _ => destruct b
           end; intros H; inversion H; auto. }
  destruct Hexp as [->|[->| ->]]; destruct k; reflexivity.
Qed.

Lemma whitespace_and_abbreviation_both_counted_witness :
  normalize_cell (VString " ea. ") no_fixes = Ok (VString "Each", mkCounters 1 0 1).
Proof.
  apply (proj1 whitespace_and_abbreviation_both_counted " ea. " "Each" no_fixes).
  - vm_compute. discriminate.
  - vm_compute. reflexivity.
Defined.

(** ** CSV export *)

(** C5: header fields are wrapped but their quotes are not doubled.  A
    spreadsheet header [Size "in"] has no synonym and is its own passthrough
    name; exported as header and as data field, the data field comes out
    with its quotes doubled and the header field with the quotes as they
    were. *)
Theorem exportCSV_header_quote_not_doubled :
  let h := ("Size " ++ String JS.dquote ("in" ++ String JS.dquote EmptyString))%string in
  mergedHeaders (mergeAndPreview [mkFileData "parts.xlsx" [h] [[h]]]) = [h]
  /\ exportCSV [h] [[h]] = (quoted h ++ newline ++ quoted (JS.double_quotes h))%string
  /\ quoted h <> quoted (JS.double_quotes h).
Proof.
  intros h. split; [vm_compute; reflexivity|].
  split; [vm_compute; reflexivity|vm_compute; discriminate].
Qed.

(** ** Session stages *)

Lemma step_index_inj a b : step_index a = step_index b -> a = b.
Proof. destruct a, b; simpl; intros H; try reflexivity; discriminate. Qed.

Lemma Step_eqb_eq a b : Step_eqb a b = true <-> a = b.
Proof.
  unfold Step_eqb. rewrite Nat.eqb_eq. split.
  - apply step_index_inj.
  - intros ->. reflexivity.
Qed.

Ltac handle_cases H :=
  unfold handle in H;
  repeat match type of H with
         | (if ?b then _ else _) = _ => destruct b eqn:?
         | match ?x with _ => _ end = _ => destruct x eqn:?
         end;
  try discriminate; inversion H; subst; clear H.

(** C9, as the page behaves: leaving a later stage for upload happens in
    exactly three ways: Back on the preview card (from preview only), the
    reset link (from export only), and the first button of the stepper,
    which is enabled in every later stage, rationalize and export
    included. *)
Theorem return_to_upload_cases :
  (forall e s s',
      handle e s = Some s' -> step s <> Upload -> step s' = Upload ->
      (e = PreviewBack /\ step s = Preview)
      \/ (e = Reset /\ step s = Export)
      \/ e = StepperClick Upload)
  /\ (forall s, step s <> Upload ->
        handle (StepperClick Upload) s
          = Some (mkSession Upload (phase s) (nfiles s) (timers s))).
Proof.
  split.
  - intros e s s' H Hne Hup.
    destruct e; handle_cases H; simpl in *;
      try (exfalso; apply Hne; assumption);
      try discriminate.
    + subst. right. right. reflexivity.
    + left. split; [reflexivity|].
      apply Step_eqb_eq. assumption.
    + right. left. split; [reflexivity|].
      apply Step_eqb_eq. assumption.
  - intros s Hne. unfold handle.
    destruct (step s); simpl; try reflexivity. exfalso. apply Hne. reflexivity.
Qed.

Lemma return_to_upload_cases_witness :
  (PreviewBack = PreviewBack /\ step (mkSession Preview Idle 1 []) = Preview)
  \/ (PreviewBack = Reset /\ step (mkSession Preview Idle 1 []) = Export)
  \/ PreviewBack = StepperClick Upload.
Proof.
  apply (proj1 return_to_upload_cases PreviewBack (mkSession Preview Idle 1 [])
           (mkSession Upload Idle 1 [])).
  - reflexivity.
  - simpl. discriminate.
  - reflexivity.
Defined.

(** C9 as stated fails: in a session that reached the rationalize stage, a
    click on the first stepper button, which is not reset, sets the stage
    to upload. *)
Lemma stepper_returns_to_upload_from_rationalize :
  ~ (forall e s s',
        reachable s -> handle e s = Some s' ->
        step s <> Upload -> step s' = Upload ->
        step s = Preview \/ e = Reset).
Proof.
  intros claim.
  assert (R : reachable (mkSession Rationalize Analyzing 1
                           [Mapping; Deduplicating; Normalizing; Done])).
  { eapply reach_step with (e := RationalizeClick).
    - eapply reach_step with (e := Consolidate).
      + eapply reach_step with (e := FilesIngested 1).
        * apply reach_initial.
        * reflexivity.
      + reflexivity.
    - reflexivity. }
  destruct (claim (StepperClick Upload) _
                  (mkSession Upload Analyzing 1 [Mapping; Deduplicating; Normalizing; Done])
                  R eq_refl) as [H|H]; simpl; try discriminate; reflexivity.
Qed.

(** ** Merge: shape of the merged rows *)

Section MergeShape.


Lemma array_set_length idx cell : forall a,
  idx < List.length a -> List.length (array_set idx cell a) = List.length a.
Proof.
  induction idx as [|i IH]; intros [|x a] H; simpl in *; try lia.
  rewrite IH; [reflexivity|lia].
Qed.

Lemma array_set_filled idx cell : forall a,
  idx < List.length a -> Forall filled a -> Forall filled (array_set idx cell a).
Proof.
  induction idx as [|i IH]; intros [|x a] H F; simpl in *; try lia;
    inversion F; subst; constructor; auto.
  - unfold filled. discriminate.
  - apply IH; [lia|assumption].
Qed.

Lemma array_set_other idx cell j : forall a,
  j <> idx -> j < List.length a ->
  nth_error (array_set idx cell a) j = nth_error a j.
Proof.
  revert j. induction idx as [|i IH]; intros [|j] [|x a] Hne Hlt; simpl in *;
    try lia; try reflexivity.
  apply IH; lia.
Qed.

Lemma indexOf_lt a x : forall i, JS.indexOf a x = Some i -> i < List.length a.
Proof.
  induction a as [|y a IH]; simpl; intros i H; [discriminate|].
  destruct (String.eqb y x).
  - inversion H. lia.
  - destruct (JS.indexOf a x) as [i'|]; [|discriminate].
    inversion H. specialize (IH i' eq_refl). lia.
Qed.

Lemma get_set_nat (hm : list (nat * nat)) (i idx : nat) : forall k v,
  Map.get Nat.eqb (Map.set Nat.eqb i idx hm) k = Some v ->
  (k = i /\ v = idx) \/ Map.get Nat.eqb hm k = Some v.
Proof.
  induction hm as [|[k' v'] hm IH]; simpl; intros k v H.
  - destruct (Nat.eqb i k) eqn:E; [|discriminate].
    apply Nat.eqb_eq in E. inversion H. left. split; congruence.
  - destruct (Nat.eqb k' i) eqn:E; simpl in H.
    + apply Nat.eqb_eq in E. subst k'.
      destruct (Nat.eqb i k) eqn:E'.
      * apply Nat.eqb_eq in E'. inversion H. left. split; congruence.
      * right. exact H.
    + destruct (Nat.eqb k' k) eqn:E'.
      * right. exact H.
      * apply IH. exact H.
Qed.


Lemma headerMap_from_ok st hs : forall i hm,
  header_map_ok (List.length (standardCols st)) i hm ->
  header_map_ok (List.length (standardCols st)) (i + List.length hs)
                (headerMap_from st i hs hm).
Proof.
  induction hs as [|h hs IH]; simpl; intros i hm Hok.
  - intros k v H. destruct (Hok k v H). split; lia.
  - replace (i + S (List.length hs)) with (S i + List.length hs) by lia.
    apply IH. intros k v H.
    destruct (truthy_string _) as [standard|].
    + destruct (JS.indexOf (standardCols st) standard) as [idx|] eqn:E.
      * apply get_set_nat in H. destruct H as [[-> ->]|H].
        -- split; [eapply indexOf_lt; exact E|lia].
        -- destruct (Hok k v H). split; lia.
      * destruct (Hok k v H). split; lia.
    + destruct (Hok k v H). split; lia.
Qed.

Lemma headerMap_ok st f :
  header_map_ok (List.length (standardCols st)) (List.length (headers f))
                (headerMap st f).
Proof.
  unfold headerMap.
  apply (headerMap_from_ok st (headers f) 0 []).
  intros k v H. discriminate.
Qed.

Variables (n bound : nat) (hm : list (nat * nat)).
Hypothesis hm_ok : header_map_ok n bound hm.

Lemma fill_from_shape row : forall i merged,
  List.length merged = n -> Forall filled merged ->
  List.length (fill_from hm i row merged) = n
  /\ Forall filled (fill_from hm i row merged).
Proof.
  induction row as [|cell row IH]; simpl; intros i merged L F; [auto|].
  destruct (Map.get Nat.eqb hm i) as [idx|] eqn:E.
  - destruct (hm_ok i idx E) as [Hidx _].
    apply IH.
    + rewrite array_set_length; lia.
    + apply array_set_filled; [lia|assumption].
  - apply IH; assumption.
Qed.

Lemma fill_from_untouched j row : forall i merged,
  List.length merged = n -> j < n ->
  (forall i', i <= i' < i + List.length row -> Map.get Nat.eqb hm i' <> Some j) ->
  nth_error (fill_from hm i row merged) j = nth_error merged j.
Proof.
  induction row as [|cell row IH]; simpl; intros i merged L Hj Hno; [reflexivity|].
  destruct (Map.get Nat.eqb hm i) as [idx|] eqn:E.
  - destruct (hm_ok i idx E) as [Hidx _].
    rewrite IH.
    + apply array_set_other; [|lia].
      intros ->. apply (Hno i); [lia|assumption].
    + rewrite array_set_length; lia.
    + assumption.
    + intros i' Hi'. apply Hno. lia.
  - apply IH; try assumption. intros i' Hi'. apply Hno. lia.
Qed.

Lemma fill_from_firstn row : forall i merged,
  fill_from hm i (firstn (bound - i) row) merged = fill_from hm i row merged.
Proof.
  induction row as [|cell row IH]; intros i merged.
  - rewrite firstn_nil. reflexivity.
  - destruct (bound - i) as [|k] eqn:E; simpl.
    + assert (Map.get Nat.eqb hm i = None) as ->.
      { destruct (Map.get Nat.eqb hm i) as [idx|] eqn:G; [|reflexivity].
        destruct (hm_ok i idx G). lia. }
      rewrite <- IH. replace (bound - S i) with 0 by lia. reflexivity.
    + replace k with (bound - S i) by lia. apply IH.
Qed.

End MergeShape.

(** C7: every merged row has one string per canonical column (no hole, the
    length of the header list); a position no cell of the source row is
    mapped to holds the empty string; cells beyond the header count of
    their file are ignored.  The merge is a total function: nothing in it
    can throw, whatever the lengths of the rows. *)
Theorem merged_rows_shape (files : list FileData) :
  let m := mergeAndPreview files in
  let st := map_columns files in
  let n := List.length (mergedHeaders m) in
  Forall (fun out => List.length out = n /\ Forall (fun x => x <> None) out)
         (mergedRows m)
  /\ forall f row, In f files -> In row (rows f) ->
       let out := merge_row n (headerMap st f) row in
       In out (mergedRows m)
       /\ (forall j, j < n ->
             (forall i, i < List.length row ->
                        Map.get Nat.eqb (headerMap st f) i <> Some j) ->
             nth_error out j = Some (Some EmptyString))
       /\ out = merge_row n (headerMap st f) (firstn (List.length (headers f)) row).
Proof.
  intros m st n. subst m n. simpl. fold st.
  set (n := List.length (standardCols st)).
  assert (In_rows : forall f row, In f files -> In row (rows f) ->
            In (merge_row n (headerMap st f) row) (merge_rows st files)).
  { intros f row Hf Hrow. unfold merge_rows. apply in_flat_map.
    exists f. split; [assumption|]. apply in_map. assumption. }
  split.
  - apply Forall_forall. intros out Hin.
    unfold merge_rows in Hin. apply in_flat_map in Hin.
    destruct Hin as (f & Hf & Hin). apply in_map_iff in Hin.
    destruct Hin as (row & <- & Hrow).
    apply (fill_from_shape n _ _ (headerMap_ok st f)).
    + apply repeat_length.
    + apply Forall_forall. intros x Hx. apply repeat_spec in Hx. subst x.
      unfold filled. discriminate.
  - intros f row Hf Hrow. split; [apply In_rows; assumption|]. split.
    + intros j Hj Hno. unfold merge_row.
      rewrite (fill_from_untouched n _ _ (headerMap_ok st f)).
      * rewrite nth_error_repeat; [reflexivity|assumption].
      * apply repeat_length.
      * assumption.
      * intros i' Hi'. apply Hno. lia.
    + unfold merge_row.
      pose proof (fill_from_firstn n _ _ (headerMap_ok st f) row 0) as H.
      rewrite Nat.sub_0_r in H. symmetry. apply H.
Qed.

Lemma merged_rows_shape_witness :
  let files := [ mkFileData "a.csv" ["Part Number"; "Qty"; "Desc"] [["100"; "5"; "Widget"; "extra"]];
                 mkFileData "b.csv" ["P/N"; "Colour"] [["100"]] ] in
  Forall (fun out => List.length out = 4 /\ Forall (fun x => x <> None) out)
         (mergedRows (mergeAndPreview files)).
Proof.
  intros files. exact (proj1 (merged_rows_shape files)).
Defined.

(** ** Title-casing, letter by letter *)

Section Capitalize.

Variable rest : ascii -> ascii.
Variable word : string -> string.
Hypothesis rest_space : rest " " = " "%char.
Hypothesis word_eq : forall w,
  word w = (JS.toUpperCase (JS.charAt0 w) ++ JS.map_chars rest (JS.slice1 w))%string.

Lemma join_cons_char sep c w ws :
  JS.join sep (String c w :: ws) = String c (JS.join sep (w :: ws)).
Proof. destruct ws; reflexivity. Qed.

Lemma split_capitalize s :
  exists w ws,
    JS.split " " s = w :: ws
    /\ JS.join " " (JS.map_chars rest w :: map word ws) = capitalize_from rest false s
    /\ JS.join " " (word w :: map word ws) = capitalize_from rest true s.
Proof.
  induction s as [|c s (w & ws & Hs & Hfalse & Htrue)].
  - exists EmptyString, []. rewrite word_eq. repeat split.
  - simpl. destruct (Ascii.eqb c " ") eqn:E.
    + apply Ascii.eqb_eq in E. subst c.
      exists EmptyString, (w :: ws). rewrite Hs, word_eq.
      split; [reflexivity|]. simpl map. rewrite rest_space.
      change (JS.toUpperChar " ") with " "%char.
      split.
      * change (JS.join " " (JS.map_chars rest EmptyString :: word w :: map word ws))
          with (String " " (JS.join " " (word w :: map word ws))).
        rewrite Htrue. reflexivity.
      * change (JS.join " " ((JS.toUpperCase (JS.charAt0 EmptyString)
                              ++ JS.map_chars rest (JS.slice1 EmptyString))%string
                             :: word w :: map word ws))
          with (String " " (JS.join " " (word w :: map word ws))).
        rewrite Htrue. reflexivity.
    + exists (String c w), ws. rewrite Hs.
      split; [reflexivity|]. split.
      * rewrite <- Hfalse. destruct (map word ws); reflexivity.
      * rewrite (word_eq (String c w)), <- Hfalse.
        destruct (map word ws); reflexivity.
Qed.

Lemma join_split_capitalize s :
  JS.join " " (map word (JS.split " " s)) = capitalize_from rest true s.
Proof.
  destruct (split_capitalize s) as (w & ws & Hs & _ & Htrue).
  rewrite Hs. exact Htrue.
Qed.

End Capitalize.

Lemma map_chars_id s : JS.map_chars (fun c => c) s = s.
Proof. induction s as [|c s IH]; simpl; [|rewrite IH]; reflexivity. Qed.

Lemma titleCase_by_letter s : titleCase s = title_by_letter s.
Proof.
  unfold titleCase, title_by_letter.
  apply join_split_capitalize; reflexivity.
Qed.

Lemma passthrough_eq_by_letter key : passthrough key = passthrough_by_letter key.
Proof.
  unfold passthrough, passthrough_by_letter.
  apply join_split_capitalize; [reflexivity|].
  intros w. unfold passthrough_word. rewrite map_chars_id. reflexivity.
Qed.

Lemma toUpperChar_space c : JS.toUpperChar c = " "%char <-> c = " "%char.
Proof.
  destruct c as [[] [] [] [] [] [] [] []]; vm_compute; split; intros H;
    first [reflexivity | discriminate].
Qed.

Lemma split_no_separator sep s :
  contains sep s = false -> JS.split sep s = [s].
Proof.
  induction s as [|c s IH]; simpl; intros H; [reflexivity|].
  apply orb_false_iff in H. destruct H as [Hc Hs].
  rewrite Hc, (IH Hs). reflexivity.
Qed.

Lemma split_app_separator sep a b :
  contains sep a = false ->
  JS.split sep (a ++ String sep b) = a :: JS.split sep b.
Proof.
  induction a as [|c a IH]; simpl; intros H.
  - rewrite Ascii.eqb_refl. reflexivity.
  - apply orb_false_iff in H. destruct H as [Hc Ha].
    rewrite Hc, (IH Ha). reflexivity.
Qed.

Lemma split_nonempty sep s : JS.split sep s <> [].
Proof.
  destruct s as [|c s]; simpl; [discriminate|].
  destruct (Ascii.eqb c sep); [discriminate|].
  destruct (JS.split sep s); discriminate.
Qed.

Lemma split_pieces_free sep s :
  Forall (fun w => contains sep w = false) (JS.split sep s).
Proof.
  induction s as [|c s IH]; simpl; [repeat constructor|].
  destruct (Ascii.eqb c sep) eqn:E; [constructor; [reflexivity|exact IH]|].
  destruct (JS.split sep s) as [|w ws].
  - repeat constructor. simpl. rewrite E. reflexivity.
  - inversion IH as [|? ? Hw Hws]; subst. constructor; [|exact Hws].
    simpl. rewrite E, Hw. reflexivity.
Qed.

(** Splitting at a character undoes the join with that character when no
    piece contains it. *)
Lemma split_join_char sep l :
  l <> [] -> Forall (fun w => contains sep w = false) l ->
  JS.split sep (JS.join (String sep EmptyString) l) = l.
Proof.
  intros Hne F. induction l as [|x l IH]; [congruence|].
  inversion F as [|? ? Hx F']; subst.
  destruct l as [|y l].
  - simpl. apply split_no_separator. exact Hx.
  - change (JS.join (String sep EmptyString) (x :: y :: l))
      with (x ++ String sep (JS.join (String sep EmptyString) (y :: l)))%string.
    rewrite split_app_separator by exact Hx.
    rewrite IH; [reflexivity|discriminate|exact F'].
Qed.

Lemma passthrough_word_free w :
  contains " " w = false -> contains " " (passthrough_word w) = false.
Proof.
  destruct w as [|c w]; [reflexivity|].
  unfold passthrough_word. simpl. intros H.
  apply orb_false_iff in H. destruct H as [Hc Hw]. rewrite Hw.
  destruct (Ascii.eqb (JS.toUpperChar c) " ") eqn:E; [|reflexivity].
  apply Ascii.eqb_eq in E. apply (proj1 (toUpperChar_space c)) in E.
  subst c. discriminate.
Qed.

(** ** Passthrough names *)

(** C8, as the code derives the name: for a header with no synonym match,
    the canonical name is its trimmed, lower-cased key cut at each single
    space, each piece with its first character upper-cased, joined again
    with single spaces.  Cutting the name at its spaces gives back exactly
    those capitalized pieces, the empty ones included: a run of spaces in
    the header is kept as it is. *)
Theorem passthrough_derivation (src : string) :
  Map.get String.eqb synonymLookup (header_key src) = None ->
  resolve src
  = JS.join " " (map passthrough_word (JS.split " " (header_key src)))
  /\ JS.split " " (resolve src)
     = map passthrough_word (JS.split " " (header_key src)).
Proof.
  intros Hnone.
  assert (E : resolve src
              = JS.join " " (map passthrough_word (JS.split " " (header_key src)))).
  { unfold resolve. rewrite Hnone. reflexivity. }
  split; [exact E|]. rewrite E.
  apply split_join_char.
  - pose proof (split_nonempty " " (header_key src)) as Hne.
    destruct (JS.split " " (header_key src)); [congruence|discriminate].
  - apply Forall_map.
    eapply Forall_impl; [|apply split_pieces_free].
    intros w Hw. apply passthrough_word_free. exact Hw.
Qed.

Lemma passthrough_derivation_witness :
  resolve " Unit  cost" = "Unit  Cost"
  /\ JS.split " " (resolve " Unit  cost") = ["Unit"; EmptyString; "Cost"].
Proof.
  assert (H : Map.get String.eqb synonymLookup (header_key " Unit  cost") = None)
    by (vm_compute; reflexivity).
  destruct (passthrough_derivation " Unit  cost" H) as (E & P).
  split; [exact E|exact P].
Defined.

(** C8 as stated fails: the header [a  b], with two spaces and no synonym
    match, is named [A  B] with the two spaces, where splitting on
    whitespace and rejoining with single spaces gives [A B]. *)
Lemma passthrough_keeps_whitespace_runs :
  ~ (forall src,
        Map.get String.eqb synonymLookup (header_key src) = None ->
        resolve src = passthrough_on_whitespace (header_key src)).
Proof.
  intros claim.
  specialize (claim "a  b" eq_refl).
  vm_compute in claim. discriminate.
Qed.

(** ** Casing normalization *)

Lemma normalize_cell_stages cell k :
  normalize_cell (VString cell) k
  = match (c <- whitespace_pass cell ;; abbreviation_pass c) k with
    | Ok (v, k1) => casing_pass v k1
    | Throw e => Throw e
    end.
Proof.
  unfold normalize_cell, string_method, bind, ret.
  destruct (whitespace_pass cell k) as [[c k0]|e]; [|reflexivity].
  destruct (abbreviation_pass c k0) as [[v k1]|e]; reflexivity.
Qed.

Lemma casing_pass_long s k :
  3 < String.length s ->
  s = JS.toUpperCase s \/ s = JS.toLowerCase s ->
  casing_pass (VString s) k
  = Ok (VString (title_by_letter s),
        if String.eqb (title_by_letter s) s then k
        else mkCounters (abbrFixed k) (S (casingFixed k)) (wsFixed k)).
Proof.
  intros Hlen Hcase. unfold casing_pass. cbn [length_of].
  apply Nat.ltb_lt in Hlen. rewrite Hlen.
  unfold string_method, bind, ret.
  assert (String.eqb s (JS.toUpperCase s) || String.eqb s (JS.toLowerCase s) = true) as ->.
  { apply orb_true_iff. destruct Hcase as [H|H]; [left|right];
      apply String.eqb_eq; exact H. }
  rewrite titleCase_by_letter.
  destruct (String.eqb (title_by_letter s) s) eqn:E.
  - apply String.eqb_eq in E. rewrite E. reflexivity.
  - reflexivity.
Qed.

Lemma casing_pass_short s k :
  String.length s <= 3 -> casing_pass (VString s) k = Ok (VString s, k).
Proof.
  intros Hlen. unfold casing_pass. cbn [length_of].
  assert (Nat.ltb 3 (String.length s) = false) as -> by (apply Nat.ltb_ge; exact Hlen).
  reflexivity.
Qed.

(** C6: a cell that after the whitespace and abbreviation passes is a string
    longer than 3 and equal to its upper-case or to its lower-case form
    leaves the cell callback title-cased (first character and every
    character after a space upper-cased, the others lower-cased), and the
    casing counter goes up by one exactly when that changed the string; a
    string of length at most 3 is returned as it is with the counters
    untouched.  [WIDGET ASSEMBLY] and [AB] are the two scenarios. *)
Theorem casing_rule (cell s : string) (k k1 : counters) :
  (c <- whitespace_pass cell ;; abbreviation_pass c) k = Ok (VString s, k1) ->
  (3 < String.length s ->
   s = JS.toUpperCase s \/ s = JS.toLowerCase s ->
   normalize_cell (VString cell) k
   = Ok (VString (title_by_letter s),
         if String.eqb (title_by_letter s) s then k1
         else mkCounters (abbrFixed k1) (S (casingFixed k1)) (wsFixed k1)))
  /\ (String.length s <= 3 ->
      normalize_cell (VString cell) k = Ok (VString s, k1))
  /\ normalize_cell (VString "WIDGET ASSEMBLY") no_fixes
     = Ok (VString "Widget Assembly", mkCounters 0 1 0)
  /\ normalize_cell (VString "AB") no_fixes = Ok (VString "AB", no_fixes).
Proof.
  intros Hpre. rewrite normalize_cell_stages, Hpre.
  split; [|split; [|split; vm_compute; reflexivity]].
  - apply casing_pass_long.
  - apply casing_pass_short.
Qed.

Lemma casing_rule_witness :
  normalize_cell (VString "hex bolt m8") no_fixes
  = Ok (VString "Hex Bolt M8", mkCounters 0 1 0).
Proof.
  pose proof (casing_rule "hex bolt m8" "hex bolt m8" no_fixes no_fixes eq_refl)
    as (H & _).
  rewrite H; [vm_compute; reflexivity|simpl; lia|right; vm_compute; reflexivity].
Defined.

(** ** Deduplication *)

Lemma mapM_lower_cells row k :
  mapM (fun c => s <- string_method c ;; ret (JS.toLowerCase s)) (map VString row) k
  = Ok (lowered row, k).
Proof.
  induction row as [|c row IH]; [reflexivity|].
  simpl. unfold bind at 1. unfold bind at 1. simpl.
  unfold bind at 1. rewrite IH. reflexivity.
Qed.

Lemma row_key_cells row k : row_key (map VString row) k = Ok (key_of row, k).
Proof. unfold row_key, bind. rewrite mapM_lower_cells. reflexivity. Qed.

Lemma cells_app a b : cells (a ++ b) = cells a ++ cells b.
Proof. apply map_app. Qed.

Lemma cells_inj a : forall b, cells a = cells b -> a = b.
Proof.
  assert (row_inj : forall r r' : list string, map VString r = map VString r' -> r = r').
  { induction r as [|x r IH]; intros [|y r'] H; simpl in H; try discriminate;
      [reflexivity|]. inversion H. f_equal. apply IH. assumption. }
  induction a as [|r a IH]; intros [|r' b] H; simpl in H; try discriminate;
    [reflexivity|].
  inversion H. f_equal; [apply row_inj|apply IH]; assumption.
Qed.

(** On rows of strings the loop never throws and is [dedup_strings]. *)
Lemma dedup_loop_cells rows : forall seen deduped n k,
  dedup_loop (cells rows) seen (cells deduped) n k
  = let '(_, deduped', n') := dedup_strings rows seen deduped n in
    Ok ((cells deduped', n'), k).
Proof.
  induction rows as [|row rows IH]; intros seen deduped n k; [reflexivity|].
  simpl. unfold bind. rewrite row_key_cells.
  destruct (negb (has seen (key_of row))).
  - change (cells deduped ++ [map VString row]) with (cells deduped ++ cells [row]).
    rewrite <- cells_app. apply IH.
  - apply IH.
Qed.

Lemma dedup_strings_app a : forall b seen deduped n,
  dedup_strings (a ++ b) seen deduped n
  = let '(seen1, deduped1, n1) := dedup_strings a seen deduped n in
    dedup_strings b seen1 deduped1 n1.
Proof.
  induction a as [|row a IH]; intros b seen deduped n; simpl.
  - reflexivity.
  - destruct (negb (has seen (key_of row))); apply IH.
Qed.

Lemma dedup_strings_shift rows : forall seen deduped n,
  dedup_strings rows seen deduped (S n)
  = let '(seen1, deduped1, n1) := dedup_strings rows seen deduped n in
    (seen1, deduped1, S n1).
Proof.
  induction rows as [|row rows IH]; intros seen deduped n; simpl.
  - reflexivity.
  - destruct (negb (has seen (key_of row))); apply IH.
Qed.

Lemma has_In seen key : has seen key = true <-> In key seen.
Proof.
  unfold has. rewrite existsb_exists. split.
  - intros (x & Hx & E). apply String.eqb_eq in E. subst. assumption.
  - intros H. exists key. split; [assumption|apply String.eqb_refl].
Qed.

(** The loop keeps [seen] equal to the keys of [deduped], records the key
    of every row it went through, only appends to [deduped], and appends
    rows of its input only. *)
Lemma dedup_strings_inv rows : forall seen deduped n seen1 deduped1 n1,
  dedup_strings rows seen deduped n = (seen1, deduped1, n1) ->
  seen = map key_of deduped ->
  seen1 = map key_of deduped1
  /\ (forall row, In row rows -> In (key_of row) seen1)
  /\ (forall key, In key seen -> In key seen1)
  /\ exists tail, deduped1 = deduped ++ tail /\ forall row, In row tail -> In row rows.
Proof.
  induction rows as [|row rows IH]; simpl; intros seen deduped n seen1 deduped1 n1 H Hseen.
  - inversion H; subst. repeat split; auto.
    + intros row [].
    + exists []. rewrite app_nil_r. split; [reflexivity|intros row []].
  - destruct (has seen (key_of row)) eqn:E; simpl in H.
    + destruct (IH _ _ _ _ _ _ H Hseen) as (H1 & H2 & H3 & tail & H4 & H5).
      repeat split; auto.
      * intros row' [<-|Hin]; [|auto]. apply H3. apply has_In. exact E.
      * exists tail. split; [assumption|]. intros row' Hin. right. auto.
    + assert (Hseen' : seen ++ [key_of row] = map key_of (deduped ++ [row])).
      { rewrite map_app, Hseen. reflexivity. }
      destruct (IH _ _ _ _ _ _ H Hseen') as (H1 & H2 & H3 & tail & H4 & H5).
      repeat split; auto.
      * intros row' [<-|Hin]; [|auto]. apply H3. apply in_or_app. right. left. reflexivity.
      * intros key Hin. apply H3. apply in_or_app. left. assumption.
      * exists (row :: tail). split.
        -- rewrite H4, <- app_assoc. reflexivity.
        -- intros row' [<-|Hin]; [left; reflexivity|right; auto].
Qed.

Lemma toLowerChar_bar c : Ascii.eqb (JS.toLowerChar c) "|" = Ascii.eqb c "|".
Proof. destruct c as [[] [] [] [] [] [] [] []]; vm_compute; reflexivity. Qed.

Lemma has_bar_toLowerCase s : has_bar (JS.toLowerCase s) = has_bar s.
Proof.
  induction s as [|c s IH]; [reflexivity|].
  simpl. rewrite toLowerChar_bar. unfold JS.toLowerCase in IH. rewrite IH. reflexivity.
Qed.

Lemma append_bar_inj a : forall b x y,
  has_bar a = false -> has_bar b = false ->
  (a ++ String "|" x)%string = (b ++ String "|" y)%string -> a = b /\ x = y.
Proof.
  induction a as [|c a IH]; intros [|d b] x y Ha Hb H; simpl in *.
  - inversion H. split; reflexivity.
  - inversion H; subst d. rewrite Ascii.eqb_refl in Hb. discriminate.
  - inversion H; subst c. rewrite Ascii.eqb_refl in Ha. discriminate.
  - inversion H; subst d. apply orb_false_iff in Ha, Hb.
    destruct (IH b x y) as [-> ->]; tauto.
Qed.

Lemma join_bar_inj l1 : forall l2,
  List.length l1 = List.length l2 ->
  Forall (fun c => has_bar c = false) l1 ->
  Forall (fun c => has_bar c = false) l2 ->
  JS.join "|" l1 = JS.join "|" l2 -> l1 = l2.
Proof.
  induction l1 as [|a l1 IH]; intros [|b l2] L F1 F2 H; simpl in L; try discriminate.
  - reflexivity.
  - inversion F1 as [|? ? Ha F1']; inversion F2 as [|? ? Hb F2']; subst.
    destruct l1 as [|a' l1]; destruct l2 as [|b' l2]; simpl in L; try discriminate.
    + simpl in H. subst. reflexivity.
    + change (JS.join "|" (a :: a' :: l1))
        with (a ++ String "|" (JS.join "|" (a' :: l1)))%string in H.
      change (JS.join "|" (b :: b' :: l2))
        with (b ++ String "|" (JS.join "|" (b' :: l2)))%string in H.
      apply append_bar_inj in H; try assumption.
      destruct H as [-> H]. f_equal. apply IH; try assumption. simpl. lia.
Qed.

(** Without the separator in the data, equal keys mean rows that are equal
    cell by cell, case-insensitively. *)
Lemma key_of_inj r1 r2 :
  List.length r1 = List.length r2 ->
  Forall (fun c => has_bar c = false) r1 ->
  Forall (fun c => has_bar c = false) r2 ->
  key_of r1 = key_of r2 -> lowered r1 = lowered r2.
Proof.
  intros L F1 F2 H. unfold key_of in H. apply join_bar_inj in H; try assumption.
  - unfold lowered. rewrite !length_map. assumption.
  - unfold lowered. apply Forall_map. eapply Forall_impl; [|exact F1].
    intros c Hc. rewrite has_bar_toLowerCase. exact Hc.
  - unfold lowered. apply Forall_map. eapply Forall_impl; [|exact F2].
    intros c Hc. rewrite has_bar_toLowerCase. exact Hc.
Qed.

Lemma deduplicate_cells rows k :
  deduplicate (cells rows) k
  = let '(_, deduped, n) := dedup_strings rows [] [] 0 in Ok ((cells deduped, n), k).
Proof. unfold deduplicate. apply (dedup_loop_cells rows [] [] 0 k). Qed.

(** C3, as the pass behaves.  A row whose cells equal, case-insensitively,
    those of an earlier row is removed and counted, so only the first of
    such rows stays.  When the rows have the same number of cells and no
    cell contains the separator [|] of the composite key, a row that
    differs from every earlier kept row in some cell's case-insensitive
    value is kept, right after the rows kept before it. *)
Theorem deduplication_correct (pre post : list (list string)) (r : list string)
    (k : counters) :
  (forall r', In r' pre -> lowered r' = lowered r ->
     exists kept n,
       deduplicate (cells (pre ++ post)) k = Ok ((cells kept, n), k)
       /\ deduplicate (cells (pre ++ r :: post)) k = Ok ((cells kept, S n), k))
  /\ (forall m kept n,
        Forall (fun x => List.length x = m /\ Forall (fun c => has_bar c = false) x)
               (r :: pre) ->
        deduplicate (cells pre) k = Ok ((cells kept, n), k) ->
        (forall r', In r' kept ->
           exists i, nth_error (lowered r') i <> nth_error (lowered r) i) ->
        exists tail n',
          deduplicate (cells (pre ++ r :: post)) k
          = Ok ((cells (kept ++ r :: tail), n'), k)).
Proof.
  split.
  - intros r' Hin Hci.
    rewrite !deduplicate_cells, !dedup_strings_app.
    destruct (dedup_strings pre [] [] 0) as [[seen1 kept1] n1] eqn:Epre.
    destruct (dedup_strings_inv _ _ _ _ _ _ _ Epre eq_refl) as (_ & Hkeys & _).
    assert (Hseen : has seen1 (key_of r) = true).
    { apply has_In. unfold key_of. rewrite <- Hci. apply (Hkeys r' Hin). }
    simpl. rewrite Hseen. simpl. rewrite dedup_strings_shift.
    destruct (dedup_strings post seen1 kept1 n1) as [[seen2 kept2] n2].
    exists kept2, n2. split; reflexivity.
  - intros m kept n Hshape Hpre Hdiff.
    rewrite deduplicate_cells in Hpre.
    rewrite deduplicate_cells, dedup_strings_app.
    destruct (dedup_strings pre [] [] 0) as [[seen1 kept1] n1] eqn:Epre.
    inversion Hpre as [[Hkept Hn]]. apply cells_inj in Hkept. subst kept1 n1.
    destruct (dedup_strings_inv _ _ _ _ _ _ _ Epre eq_refl)
      as (Hseen & _ & _ & tail0 & Htail0 & Hsub).
    simpl in Htail0. subst tail0.
    assert (Hnew : has seen1 (key_of r) = false).
    { destruct (has seen1 (key_of r)) eqn:E; [|reflexivity]. exfalso.
      apply has_In in E. rewrite Hseen in E. apply in_map_iff in E.
      destruct E as (r' & Hkey & Hin).
      destruct (Hdiff r' Hin) as (i & Hi). apply Hi.
      inversion Hshape as [|? ? [Lr Fr] Hpre_shape]; subst.
      rewrite Forall_forall in Hpre_shape.
      destruct (Hpre_shape r' (Hsub r' Hin)) as [Lr' Fr'].
      assert (Hlow : lowered r' = lowered r).
      { apply key_of_inj; [congruence|assumption|assumption|assumption]. }
      rewrite Hlow. reflexivity. }
    simpl. rewrite Hnew. simpl.
    destruct (dedup_strings post (seen1 ++ [key_of r]) (kept ++ [r]) n)
      as [[seen2 kept2] n2] eqn:Epost.
    assert (Hseen' : seen1 ++ [key_of r] = map key_of (kept ++ [r])).
    { rewrite map_app, Hseen. reflexivity. }
    destruct (dedup_strings_inv _ _ _ _ _ _ _ Epost Hseen')
      as (_ & _ & _ & tail & -> & _).
    exists tail, n2. rewrite <- app_assoc. reflexivity.
Qed.

Lemma deduplication_correct_witness :
  (exists kept n,
      deduplicate (cells ([["100"; "Widget"]] ++ [["200"; "Bolt"]])) no_fixes
      = Ok ((cells kept, n), no_fixes)
      /\ deduplicate (cells ([["100"; "Widget"]] ++ ["100"; "WIDGET"] :: [["200"; "Bolt"]]))
                     no_fixes
         = Ok ((cells kept, S n), no_fixes))
  /\ (exists tail n',
         deduplicate (cells ([["100"; "Widget"]] ++ ["100"; "Washer"] :: [["200"; "Bolt"]]))
                     no_fixes
         = Ok ((cells ([["100"; "Widget"]] ++ ["100"; "Washer"] :: tail), n'), no_fixes)).
Proof.
  split.
  - apply (proj1 (deduplication_correct [["100"; "Widget"]] [["200"; "Bolt"]]
                    ["100"; "WIDGET"] no_fixes) ["100"; "Widget"]).
    + left. reflexivity.
    + reflexivity.
  - apply (proj2 (deduplication_correct [["100"; "Widget"]] [["200"; "Bolt"]]
                    ["100"; "Washer"] no_fixes) 2 [["100"; "Widget"]] 0).
    + repeat constructor.
    + reflexivity.
    + intros r' [<-|[]]. exists 1. simpl. discriminate.
Defined.

(** C3 as stated fails.  With the separator in the data, the rows
    [a|b ; c] and [a ; b|c] have the same key: the second differs from the
    first in its first cell and is removed all the same. *)
Lemma separator_in_data_merges_distinct_rows :
  ~ (forall (pre post : list (list string)) (r : list string) k kept n,
        deduplicate (cells pre) k = Ok ((cells kept, n), k) ->
        (forall r', In r' kept ->
           exists i, nth_error (lowered r') i <> nth_error (lowered r) i) ->
        exists tail n',
          deduplicate (cells (pre ++ r :: post)) k
          = Ok ((cells (kept ++ r :: tail), n'), k)).
Proof.
  intros claim.
  destruct (claim [["a|b"; "c"]] [] ["a"; "b|c"] no_fixes [["a|b"; "c"]] 0 eq_refl)
    as (tail & n' & H).
  - intros r' [<-|[]]. exists 0. simpl. discriminate.
  - vm_compute in H. discriminate.
Qed.

(** ** When a rationalization run completes *)

Lemma inherited_values c v :
  assoc c Object_prototype = Some v ->
  truthy v = true /\ (forall s, v <> VString s)
  /\ forall k, casing_pass v k = Ok (v, k).
Proof.
  simpl.
  repeat match goal with
         | |- (if ?b then _ else _) = _ -> _ => destruct b
         end;
    intros H; inversion H; subst; repeat split; intros; discriminate.
Qed.

Lemma casing_pass_string s k :
  exists k', casing_pass (VString s) k = Ok (VString (casing_string s), k').
Proof.
  unfold casing_pass, casing_string. cbn [length_of].
  destruct (Nat.ltb 3 (String.length s)); [|eexists; reflexivity].
  unfold string_method, bind, ret. cbn [andb].
  destruct (String.eqb s (JS.toUpperCase s) || String.eqb s (JS.toLowerCase s));
    [|eexists; reflexivity].
  destruct (String.eqb (titleCase s) s) eqn:E; [|eexists; reflexivity].
  apply String.eqb_eq in E. rewrite E. eexists; reflexivity.
Qed.

Lemma abbreviation_expansions c expansion :
  assoc c VALUE_ABBREVIATIONS = Some expansion ->
  expansion = "Each" \/ expansion = "Pieces" \/ expansion = "Numbers".
Proof.
  simpl.
  repeat match goal with
         | |- (if ?b then _ else _) = _ -> _ => destruct b
         end; intros H; inversion H; auto.
Qed.

(** The cell callback never throws on a string; it returns a string
    exactly for the safe cells. *)
Lemma normalize_cell_total cell k :
  exists v k',
    normalize_cell (VString cell) k = Ok (v, k')
    /\ (safe_cell cell = true -> v = VString (normalized_string cell))
    /\ (safe_cell cell = false -> forall s, v <> VString s).
Proof.
  rewrite normalize_cell_stages.
  unfold safe_cell, inherited_name, normalized_string, whitespace_pass, abbreviation_pass,
    get_abbreviation.
  set (c := JS.replace_ws (JS.trim cell)).
  unfold bind at 1. unfold bind at 1.
  destruct (if String.eqb (JS.trim cell) cell then ret tt else incr_ws) as [[[] k0]|e] eqn:E0.
  2:{ destruct (String.eqb (JS.trim cell) cell); discriminate. }
  clear E0. unfold ret at 1.
  destruct (assoc c VALUE_ABBREVIATIONS) as [expansion|] eqn:Eown.
  - assert (Htruthy : truthy (VString expansion) = true).
    { destruct (abbreviation_expansions _ _ Eown) as [->|[->| ->]]; reflexivity. }
    rewrite Htruthy. unfold bind, incr_abbr, ret.
    destruct (casing_pass_string expansion
                (mkCounters (S (abbrFixed k0)) (casingFixed k0) (wsFixed k0)))
      as (k' & Hk').
    exists (VString (casing_string expansion)), k'.
    split; [exact Hk'|]. split; [reflexivity|discriminate].
  - destruct (assoc c Object_prototype) as [v|] eqn:Eproto.
    + destruct (inherited_values c v Eproto) as (Htruthy & Hnot & Hcasing).
      rewrite Htruthy. unfold bind, incr_abbr, ret. rewrite Hcasing.
      eexists; eexists. split; [reflexivity|]. split.
      * destruct v; [exfalso; eapply Hnot; reflexivity|discriminate|discriminate].
      * intros _. exact Hnot.
    + unfold ret. destruct (casing_pass_string c k0) as (k' & Hk').
      exists (VString (casing_string c)), k'.
      split; [exact Hk'|]. split; [reflexivity|discriminate].
Qed.


Lemma normalize_row_total row : forall k,
  exists row' k',
    mapM normalize_cell (map VString row) k = Ok (row', k')
    /\ (Forall (fun c => safe_cell c = true) row ->
        row' = map VString (map normalized_string row))
    /\ (Forall is_string row' -> Forall (fun c => safe_cell c = true) row).
Proof.
  induction row as [|cell row IH]; intros k.
  - exists [], k. repeat split; auto.
  - destruct (normalize_cell_total cell k) as (v & k1 & Hv & Hsafe & Hunsafe).
    destruct (IH k1) as (row' & k2 & Hrow & Hall & Hback).
    exists (v :: row'), k2. simpl. unfold bind. rewrite Hv, Hrow. unfold ret.
    split; [reflexivity|]. split.
    + intros F. inversion F; subst. rewrite Hsafe, Hall by assumption. reflexivity.
    + intros F. inversion F as [|? ? [s Hs] F']; subst. constructor.
      * destruct (safe_cell cell) eqn:E; [reflexivity|].
        exfalso. apply (Hunsafe eq_refl s). reflexivity.
      * apply Hback. assumption.
Qed.

Lemma normalize_rows_total rows : forall k,
  exists rows' k',
    normalize_rows (cells rows) k = Ok (rows', k')
    /\ (Forall (Forall (fun c => safe_cell c = true)) rows ->
        rows' = cells (map (map normalized_string) rows))
    /\ (Forall (Forall is_string) rows' ->
        Forall (Forall (fun c => safe_cell c = true)) rows).
Proof.
  unfold normalize_rows.
  induction rows as [|row rows IH]; intros k.
  - exists [], k. repeat split; auto.
  - destruct (normalize_row_total row k) as (row' & k1 & Hrow & Hall & Hback).
    destruct (IH k1) as (rows' & k2 & Hrows & Hall' & Hback').
    exists (row' :: rows'), k2. simpl. unfold bind. rewrite Hrow, Hrows. unfold ret.
    split; [reflexivity|]. split.
    + intros F. inversion F; subst. rewrite Hall, Hall' by assumption. reflexivity.
    + intros F. inversion F; subst. constructor; auto.
Qed.

Lemma mapM_lower_Ok row : forall k lowered_row k',
  mapM (fun c => s <- string_method c ;; ret (JS.toLowerCase s)) row k
  = Ok (lowered_row, k') ->
  Forall is_string row.
Proof.
  induction row as [|c row IH]; simpl; intros k l k' H; [constructor|].
  apply bind_Ok in H. destruct H as (x & k1 & Hx & H).
  apply bind_Ok in H. destruct H as (xs & k2 & Hxs & _).
  constructor.
  - destruct c; try discriminate. exists s. reflexivity.
  - eapply IH. exact Hxs.
Qed.

Lemma dedup_loop_Ok rows : forall seen deduped n k res k',
  dedup_loop rows seen deduped n k = Ok (res, k') ->
  Forall (Forall is_string) rows.
Proof.
  induction rows as [|row rows IH]; simpl; intros seen deduped n k res k' H;
    [constructor|].
  apply bind_Ok in H. destruct H as (key & k1 & Hkey & H).
  constructor.
  - unfold row_key in Hkey. apply bind_Ok in Hkey.
    destruct Hkey as (l & k2 & Hl & _). eapply mapM_lower_Ok. exact Hl.
  - destruct (negb (has seen key)); eapply IH; exact H.
Qed.


Lemma drop_empty_rows_cells rows :
  drop_empty_rows (cells rows) = cells (filter has_content rows).
Proof.
  unfold drop_empty_rows, cells.
  induction rows as [|row rows IH]; [reflexivity|].
  simpl. rewrite IH.
  assert (E : JS.some not_empty_string (map VString row) = has_content row).
  { unfold JS.some, has_content. induction row as [|c row IHr]; [reflexivity|].
    simpl. rewrite IHr. reflexivity. }
  rewrite E. destruct (has_content row); reflexivity.
Qed.

Lemma rationalize_Ok_safe hdrs (rows : list (list string)) r :
  rationalize hdrs (cells rows) = Ok r ->
  Forall (Forall (fun c => safe_cell c = true)) rows.
Proof.
  intros H. apply rationalize_Ok_inv in H.
  destruct H as (normalized & k1 & deduped & dups & k2 & Hn & Hd & _).
  destruct (normalize_rows_total rows no_fixes) as (rows' & k' & Hrows & _ & Hback).
  rewrite Hn in Hrows. inversion Hrows; subst. apply Hback.
  eapply dedup_loop_Ok. exact Hd.
Qed.

(** X22: a run on a table of strings completes exactly when every cell is
    safe, that is when no cell, trimmed and collapsed, spells a name
    inherited from [Object.prototype] that is not a key of the dictionary;
    on any other table the run throws. *)
Theorem rationalize_completes_iff hdrs (rows : list (list string)) :
  (exists r, rationalize hdrs (cells rows) = Ok r)
  <-> Forall (Forall (fun c => safe_cell c = true)) rows.
Proof.
  split.
  - intros (r & H). apply (rationalize_Ok_safe hdrs rows r H).
  - intros F.
    destruct (normalize_rows_total rows no_fixes) as (rows' & k' & Hrows & Hall & _).
    rewrite (Hall F) in Hrows.
    unfold rationalize, bind. rewrite Hrows, deduplicate_cells.
    destruct (dedup_strings _ [] [] 0) as [[seen deduped] n].
    eexists. reflexivity.
Qed.

Lemma rationalize_Ok_strings hdrs rows r :
  rationalize hdrs (cells rows) = Ok r ->
  rationRows r = cells (rationalized_strings rows) /\ rationHeaders r = hdrs.
Proof.
  intros H.
  assert (F : Forall (Forall (fun c => safe_cell c = true)) rows).
  { apply (rationalize_Ok_safe hdrs rows r H). }
  destruct (normalize_rows_total rows no_fixes) as (rows' & k' & Hrows & Hall & _).
  rewrite (Hall F) in Hrows.
  unfold rationalize, bind in H. rewrite Hrows, deduplicate_cells in H.
  unfold rationalized_strings.
  destruct (dedup_strings _ [] [] 0) as [[seen deduped] n].
  inversion H; subst. simpl. split; [apply drop_empty_rows_cells|reflexivity].
Qed.

(** ** Whitespace normal form *)

Lemma ws_normal_replace_ws s : forall prev inrun,
  (inrun = true -> prev = true) ->
  ws_normal_from prev s = true -> JS.replace_ws_from inrun s = s.
Proof.
  induction s as [|c s IH]; intros prev inrun Himp H; [reflexivity|].
  simpl in *. destruct (JS.isWhiteSpace c).
  - apply andb_true_iff in H. destruct H as [H Hrest].
    apply andb_true_iff in H. destruct H as [H _].
    apply andb_true_iff in H. destruct H as [Hc Hprev].
    apply Ascii.eqb_eq in Hc. subst c.
    destruct prev; [discriminate|].
    destruct inrun; [specialize (Himp eq_refl); discriminate|].
    f_equal. apply (IH true true); auto.
  - f_equal. apply (IH false false); auto.
Qed.

Lemma ws_normal_trimStart s : ws_normal s = true -> JS.trimStart s = s.
Proof.
  unfold ws_normal. destruct s as [|c s]; [reflexivity|]. simpl.
  destruct (JS.isWhiteSpace c); [|reflexivity].
  rewrite andb_false_r. simpl. discriminate.
Qed.

Lemma ws_normal_trimEnd s : forall prev,
  ws_normal_from prev s = true -> JS.trimEnd s = s.
Proof.
  induction s as [|c s IH]; intros prev H; [reflexivity|].
  simpl in *. destruct (JS.isWhiteSpace c).
  - apply andb_true_iff in H. destruct H as [H Hrest].
    apply andb_true_iff in H. destruct H as [_ Hne].
    rewrite (IH true Hrest). destruct s; [discriminate|reflexivity].
  - rewrite (IH false H). destruct s; reflexivity.
Qed.

Lemma ws_normal_fixed s :
  ws_normal s = true -> JS.trim s = s /\ JS.replace_ws s = s.
Proof.
  intros H. split.
  - unfold JS.trim. rewrite (ws_normal_trimStart s H).
    apply (ws_normal_trimEnd s true H).
  - apply (ws_normal_replace_ws s true false); [discriminate|exact H].
Qed.

Lemma no_trailing_ws_trimEnd s : no_trailing_ws (JS.trimEnd s) = true.
Proof.
  induction s as [|c s IH]; [reflexivity|].
  simpl. destruct (JS.trimEnd s) as [|d t] eqn:E.
  - destruct (JS.isWhiteSpace c) eqn:W; [reflexivity|]. simpl. rewrite W. reflexivity.
  - exact IH.
Qed.

Lemma trimEnd_head c s :
  JS.trimEnd (String c s) = EmptyString
  \/ exists t, JS.trimEnd (String c s) = String c t.
Proof.
  simpl. destruct (JS.trimEnd s) as [|d t].
  - destruct (JS.isWhiteSpace c); [left; reflexivity|right; eexists; reflexivity].
  - right. eexists; reflexivity.
Qed.

Lemma trim_head s :
  JS.trim s = EmptyString
  \/ exists c t, JS.trim s = String c t /\ JS.isWhiteSpace c = false.
Proof.
  unfold JS.trim. induction s as [|c s IH]; [left; reflexivity|].
  simpl. destruct (JS.isWhiteSpace c) eqn:W; [exact IH|].
  destruct (trimEnd_head c s) as [H|(t & H)]; [left; exact H|].
  right. exists c, t. split; assumption.
Qed.

Lemma replace_ws_nonempty s : forall inrun,
  no_trailing_ws s = true -> s <> EmptyString ->
  JS.replace_ws_from inrun s <> EmptyString.
Proof.
  induction s as [|c s IH]; intros inrun H Hne; [congruence|].
  simpl in *. destruct (JS.isWhiteSpace c) eqn:W.
  - destruct s as [|d s]; [discriminate|].
    destruct inrun; [|discriminate]. apply IH; [exact H|discriminate].
  - discriminate.
Qed.

Lemma replace_ws_normal s : forall inrun,
  no_trailing_ws s = true ->
  ws_normal_from inrun (JS.replace_ws_from inrun s) = true.
Proof.
  induction s as [|c s IH]; intros inrun H; [reflexivity|].
  assert (Htail : no_trailing_ws s = true).
  { simpl in H. destruct s; [reflexivity|exact H]. }
  cbn [JS.replace_ws_from]. destruct (JS.isWhiteSpace c) eqn:W.
  - assert (Hne : s <> EmptyString).
    { intros ->. simpl in H. rewrite W in H. discriminate. }
    destruct inrun.
    + apply IH. exact Htail.
    + cbn [ws_normal_from]. change (JS.isWhiteSpace " ") with true. cbv iota.
      rewrite (IH true Htail). simpl.
      pose proof (replace_ws_nonempty s true Htail Hne) as Hout.
      destruct (JS.replace_ws_from true s); [congruence|reflexivity].
  - cbn [ws_normal_from]. rewrite W. apply IH. exact Htail.
Qed.

Lemma ws_normal_normalized cell : ws_normal (JS.replace_ws (JS.trim cell)) = true.
Proof.
  assert (Htrail : no_trailing_ws (JS.trim cell) = true)
    by apply no_trailing_ws_trimEnd.
  unfold ws_normal, JS.replace_ws.
  destruct (trim_head cell) as [E|(c & t & E & W)]; rewrite E in *; [reflexivity|].
  cbn [JS.replace_ws_from ws_normal_from]. rewrite W.
  cbn [ws_normal_from]. rewrite W.
  apply replace_ws_normal. simpl in Htrail. destruct t; [reflexivity|exact Htrail].
Qed.

(** Case conversion leaves whitespace characters alone. *)
Lemma toUpperChar_ws c :
  JS.isWhiteSpace (JS.toUpperChar c) = JS.isWhiteSpace c
  /\ Ascii.eqb (JS.toUpperChar c) " " = Ascii.eqb c " ".
Proof. destruct c as [[] [] [] [] [] [] [] []]; vm_compute; split; reflexivity. Qed.

Lemma toLowerChar_ws c :
  JS.isWhiteSpace (JS.toLowerChar c) = JS.isWhiteSpace c
  /\ Ascii.eqb (JS.toLowerChar c) " " = Ascii.eqb c " ".
Proof. destruct c as [[] [] [] [] [] [] [] []]; vm_compute; split; reflexivity. Qed.

Lemma ws_normal_title s : forall start prev,
  ws_normal_from prev (capitalize_from JS.toLowerChar start s) = ws_normal_from prev s.
Proof.
  induction s as [|c s IH]; intros start prev; [reflexivity|].
  cbn [capitalize_from ws_normal_from].
  assert (W : JS.isWhiteSpace (if start then JS.toUpperChar c else JS.toLowerChar c)
              = JS.isWhiteSpace c
              /\ Ascii.eqb (if start then JS.toUpperChar c else JS.toLowerChar c) " "
                 = Ascii.eqb c " ").
  { destruct start; [apply toUpperChar_ws|apply toLowerChar_ws]. }
  destruct W as [-> ->]. rewrite !IH.
  destruct s; reflexivity.
Qed.

Lemma toUpperChar_idem c :
  JS.toUpperChar (JS.toUpperChar c) = JS.toUpperChar c
  /\ JS.toLowerChar (JS.toLowerChar c) = JS.toLowerChar c.
Proof. destruct c as [[] [] [] [] [] [] [] []]; vm_compute; split; reflexivity. Qed.

Lemma title_idempotent s : forall start,
  capitalize_from JS.toLowerChar start (capitalize_from JS.toLowerChar start s)
  = capitalize_from JS.toLowerChar start s.
Proof.
  induction s as [|c s IH]; intros start; [reflexivity|].
  cbn [capitalize_from]. f_equal.
  - destruct start; apply toUpperChar_idem.
  - assert (E : Ascii.eqb (if start then JS.toUpperChar c else JS.toLowerChar c) " "
                = Ascii.eqb c " ").
    { destruct start; [apply toUpperChar_ws|apply toLowerChar_ws]. }
    rewrite E. apply IH.
Qed.

(** ** A second run on the output of a first *)

Lemma toUpperChar_not_lower c :
  Ascii.eqb "e" (JS.toUpperChar c) = false
  /\ Ascii.eqb "p" (JS.toUpperChar c) = false
  /\ Ascii.eqb "n" (JS.toUpperChar c) = false.
Proof. destruct c as [[] [] [] [] [] [] [] []]; vm_compute; repeat split. Qed.

Lemma toLowerChar_not_upper c :
  Ascii.eqb "A" (JS.toLowerChar c) = false
  /\ Ascii.eqb "C" (JS.toLowerChar c) = false.
Proof. destruct c as [[] [] [] [] [] [] [] []]; vm_compute; repeat split. Qed.

Lemma toUpperChar_E_P c :
  Ascii.eqb c " " = true ->
  Ascii.eqb "E" (JS.toUpperChar c) = false /\ Ascii.eqb "P" (JS.toUpperChar c) = false.
Proof. intros H. apply Ascii.eqb_eq in H. subst c. split; reflexivity. Qed.

(** No key of the dictionary is in title case. *)
Lemma title_not_key s : assoc (title_by_letter s) VALUE_ABBREVIATIONS = None.
Proof.
  destruct s as [|c s]; [reflexivity|].
  unfold title_by_letter. cbn [capitalize_from].
  destruct (toUpperChar_not_lower c) as (He & Hp & Hn).
  unfold VALUE_ABBREVIATIONS, assoc. cbn [String.eqb].
  rewrite He, Hp, Hn.
  destruct (Ascii.eqb c " ") eqn:Esp.
  - destruct (toUpperChar_E_P c Esp) as [-> ->]. reflexivity.
  - destruct s as [|d s]; cbn [capitalize_from String.eqb].
    + destruct (Ascii.eqb "E" _); destruct (Ascii.eqb "P" _); reflexivity.
    + destruct (toLowerChar_not_upper d) as [-> ->].
      destruct (Ascii.eqb "E" _); destruct (Ascii.eqb "P" _); reflexivity.
Qed.

Lemma casing_pass_fixed s k :
  titleCase s = s -> casing_pass (VString s) k = Ok (VString s, k).
Proof.
  intros H. unfold casing_pass. cbn [length_of].
  destruct (Nat.ltb 3 (String.length s)); [|reflexivity].
  unfold string_method, bind, ret.
  destruct (String.eqb s (JS.toUpperCase s) || String.eqb s (JS.toLowerCase s));
    [|reflexivity].
  rewrite H, String.eqb_refl. reflexivity.
Qed.

Lemma casing_string_fixed c k :
  casing_pass (VString (casing_string c)) k = Ok (VString (casing_string c), k).
Proof.
  unfold casing_string.
  destruct (Nat.ltb 3 (String.length c)) eqn:L; cbn [andb].
  - destruct (String.eqb c (JS.toUpperCase c) || String.eqb c (JS.toLowerCase c)) eqn:C.
    + apply casing_pass_fixed. rewrite !titleCase_by_letter. apply title_idempotent.
    + unfold casing_pass. cbn [length_of]. rewrite L.
      unfold string_method, bind, ret. rewrite C. reflexivity.
  - unfold casing_pass. cbn [length_of]. rewrite L. reflexivity.
Qed.

Lemma ws_normal_casing_string c :
  ws_normal c = true -> ws_normal (casing_string c) = true.
Proof.
  intros H. unfold casing_string.
  destruct (_ && _); [|exact H].
  rewrite titleCase_by_letter. unfold ws_normal, title_by_letter.
  rewrite ws_normal_title. exact H.
Qed.

Lemma casing_string_not_key c :
  assoc c VALUE_ABBREVIATIONS = None ->
  assoc (casing_string c) VALUE_ABBREVIATIONS = None.
Proof.
  intros H. unfold casing_string.
  destruct (_ && _); [|exact H].
  rewrite titleCase_by_letter. apply title_not_key.
Qed.

(** A string in whitespace normal form that the dictionary does not know
    and that the casing pass leaves alone goes through the cell callback
    unchanged, and no counter moves. *)
Lemma normalize_cell_fixed s k :
  ws_normal s = true ->
  assoc s VALUE_ABBREVIATIONS = None ->
  inherited_name s = false ->
  casing_pass (VString s) k = Ok (VString s, k) ->
  normalize_cell (VString s) k = Ok (VString s, k).
Proof.
  intros Hws Hown Hinh Hcasing.
  destruct (ws_normal_fixed s Hws) as [Htrim Hrepl].
  rewrite normalize_cell_stages.
  unfold whitespace_pass, abbreviation_pass.
  rewrite Htrim, String.eqb_refl, Hrepl.
  unfold bind, ret.
  unfold inherited_name in Hinh. unfold get_abbreviation in *. rewrite Hown in *.
  destruct (assoc s Object_prototype) as [v|] eqn:E.
  - destruct (inherited_values s v E) as (_ & Hnot & _).
    destruct v; [exfalso; eapply Hnot; reflexivity|discriminate|discriminate].
  - exact Hcasing.
Qed.

Lemma normalized_string_fixed cell k :
  safe_cell (normalized_string cell) = true ->
  normalize_cell (VString (normalized_string cell)) k
  = Ok (VString (normalized_string cell), k).
Proof.
  unfold normalized_string.
  set (c := JS.replace_ws (JS.trim cell)).
  destruct (assoc c VALUE_ABBREVIATIONS) as [expansion|] eqn:Eown.
  - intros _.
    destruct (abbreviation_expansions _ _ Eown) as [->|[->| ->]]; reflexivity.
  - intros Hsafe.
    assert (Hws : ws_normal (casing_string c) = true).
    { apply ws_normal_casing_string. apply ws_normal_normalized. }
    apply normalize_cell_fixed.
    + exact Hws.
    + apply casing_string_not_key. exact Eown.
    + unfold safe_cell in Hsafe.
      destruct (ws_normal_fixed _ Hws) as [Htrim Hrepl].
      rewrite Htrim, Hrepl in Hsafe. apply negb_true_iff. exact Hsafe.
    + apply casing_string_fixed.
Qed.

Lemma mapM_fixed {A} (f : A -> M A) l :
  (forall a, In a l -> forall k, f a k = Ok (a, k)) ->
  forall k, mapM f l k = Ok (l, k).
Proof.
  induction l as [|a l IH]; intros H k; [reflexivity|].
  simpl. unfold bind. rewrite (H a (or_introl eq_refl)).
  rewrite IH; [reflexivity|]. intros b Hb. apply H. right. exact Hb.
Qed.

Lemma dedup_strings_nodup rows : forall seen deduped n seen1 deduped1 n1,
  dedup_strings rows seen deduped n = (seen1, deduped1, n1) ->
  NoDup seen -> NoDup seen1.
Proof.
  induction rows as [|row rows IH]; simpl; intros seen deduped n seen1 deduped1 n1 H N.
  - inversion H; subst. exact N.
  - destruct (has seen (key_of row)) eqn:E; simpl in H.
    + eapply IH; [exact H|exact N].
    + eapply IH; [exact H|].
      apply NoDup_app; [exact N|repeat constructor; intros []|].
      intros x Hx [<-|[]].
      apply has_In in Hx. congruence.
Qed.

Lemma dedup_strings_distinct rows : forall seen deduped n,
  NoDup (seen ++ map key_of rows) ->
  dedup_strings rows seen deduped n = (seen ++ map key_of rows, deduped ++ rows, n).
Proof.
  induction rows as [|row rows IH]; simpl; intros seen deduped n N.
  - rewrite !app_nil_r. reflexivity.
  - assert (E : has seen (key_of row) = false).
    { destruct (has seen (key_of row)) eqn:E; [|reflexivity]. exfalso.
      apply has_In in E. apply NoDup_remove_2 in N. apply N.
      apply in_or_app. left. exact E. }
    rewrite E. simpl. rewrite IH.
    + rewrite <- !app_assoc. reflexivity.
    + rewrite <- app_assoc. exact N.
Qed.

Lemma NoDup_map_filter {A B} (f : A -> B) (p : A -> bool) l :
  NoDup (map f l) -> NoDup (map f (filter p l)).
Proof.
  induction l as [|a l IH]; simpl; intros N; [constructor|].
  inversion N as [|? ? Hnotin N']; subst.
  destruct (p a); [|auto]. simpl. constructor; [|auto].
  intros Hin. apply Hnotin. apply in_map_iff in Hin.
  destruct Hin as (b & Hb & Hin). apply filter_In in Hin.
  rewrite <- Hb. apply in_map. tauto.
Qed.

Lemma filter_filter {A} (p : A -> bool) l : filter p (filter p l) = filter p l.
Proof.
  induction l as [|a l IH]; [reflexivity|].
  simpl. destruct (p a) eqn:E; [|exact IH]. simpl. rewrite E, IH. reflexivity.
Qed.

Lemma rationalized_strings_spec rows :
  NoDup (map key_of (rationalized_strings rows))
  /\ filter has_content (rationalized_strings rows) = rationalized_strings rows
  /\ forall row c, In row (rationalized_strings rows) -> In c row ->
       exists cell, c = normalized_string cell.
Proof.
  unfold rationalized_strings.
  destruct (dedup_strings (map (map normalized_string) rows) [] [] 0)
    as [[seen deduped] n] eqn:E.
  destruct (dedup_strings_inv _ _ _ _ _ _ _ E eq_refl)
    as (Hseen & _ & _ & tail & Htail & Hsub).
  simpl in Htail. subst tail. simpl.
  split; [|split].
  - apply NoDup_map_filter. rewrite <- Hseen.
    eapply dedup_strings_nodup; [exact E|constructor].
  - apply filter_filter.
  - intros row c Hrow Hc. apply filter_In in Hrow. destruct Hrow as [Hrow _].
    apply Hsub in Hrow. apply in_map_iff in Hrow. destruct Hrow as (row0 & <- & _).
    apply in_map_iff in Hc. destruct Hc as (cell & <- & _).
    exists cell. reflexivity.
Qed.

(** When a first run on a table of strings and a second run on its output
    both complete, the second returns the table it was given and counts
    nothing. *)
Lemma second_run_changes_nothing hdrs (rows : list (list string)) r1 r2 :
  rationalize hdrs (cells rows) = Ok r1 ->
  rationalize (rationHeaders r1) (rationRows r1) = Ok r2 ->
  r2 = mkRationalized (rationHeaders r1) (rationRows r1)
         (mkRationStats 0 0 0 0 (List.length (rationRows r1))).
Proof.
  intros H1 H2.
  destruct (rationalize_Ok_strings _ _ _ H1) as [Hrows Hhdrs].
  rewrite Hrows, Hhdrs in *. clear H1 Hrows Hhdrs.
  set (T1 := rationalized_strings rows) in *.
  destruct (rationalized_strings_spec rows) as (Hnodup & Hfilter & Hcells).
  fold T1 in Hnodup, Hfilter, Hcells.
  assert (F : Forall (Forall (fun c => safe_cell c = true)) T1).
  { apply (rationalize_Ok_safe hdrs T1 r2 H2). }
  assert (Hnorm : forall k, normalize_rows (cells T1) k = Ok (cells T1, k)).
  { unfold normalize_rows, cells. apply mapM_fixed.
    intros vrow Hvrow. apply in_map_iff in Hvrow. destruct Hvrow as (row & <- & Hrow).
    apply mapM_fixed. intros v Hv k. apply in_map_iff in Hv.
    destruct Hv as (c & <- & Hc).
    destruct (Hcells row c Hrow Hc) as (cell & ->).
    apply normalized_string_fixed.
    rewrite Forall_forall in F. specialize (F row Hrow).
    rewrite Forall_forall in F. apply F. exact Hc. }
  unfold rationalize, bind in H2.
  rewrite Hnorm, deduplicate_cells in H2.
  rewrite (dedup_strings_distinct T1 [] [] 0 Hnodup) in H2.
  simpl in H2. rewrite drop_empty_rows_cells, Hfilter, Nat.sub_diag in H2.
  inversion H2. reflexivity.
Qed.

(** ** Worked examples *)

Example trim_and_collapse :
  JS.replace_ws (JS.trim (String (ascii_of_nat 9) "  hex   bolt  ")) = "hex bolt".
Proof. reflexivity. Qed.

Example split_keeps_empty_pieces :
  JS.split " " "a  b" = ["a"; EmptyString; "b"]
  /\ JS.split " " EmptyString = [EmptyString]
  /\ JS.join " " ["a"; EmptyString; "b"] = "a  b".
Proof. repeat split. Qed.

Example abbreviation_scenario :
  normalize_cell (VString "ea.") no_fixes = Ok (VString "Each", mkCounters 1 0 0).
Proof. reflexivity. Qed.

(** The two-file scenario: both files reconcile to the same three columns,
    the merged table has two rows, and rationalization keeps one of them
    and reports one duplicate. *)
Example two_files_scenario :
  let fileA := mkFileData "a.csv" ["Part Number"; "Qty"; "Desc"] [["100"; "5"; "Widget"]] in
  let fileB := mkFileData "b.csv" ["P/N"; "qty."; "description"] [["100"; "5"; "WIDGET"]] in
  let merged := [["100"; "5"; "Widget"]; ["100"; "5"; "WIDGET"]] in
  mergedHeaders (mergeAndPreview [fileA; fileB]) = ["Part Number"; "Quantity"; "Description"]
  /\ mergedRows (mergeAndPreview [fileA; fileB]) = map (map Some) merged
  /\ rationalize ["Part Number"; "Quantity"; "Description"] (cells merged)
     = Ok (mkRationalized ["Part Number"; "Quantity"; "Description"]
             (cells [["100"; "5"; "Widget"]]) (mkRationStats 1 0 1 0 1)).
Proof. repeat split. Qed.

(** * Further properties of the code *)

(** ** String facts *)

Lemma string_app_nil_r (s : string) : (s ++ EmptyString)%string = s.
Proof. induction s as [|c s IH]; simpl; [|rewrite IH]; reflexivity. Qed.

Lemma string_app_assoc (a b c : string) :
  ((a ++ b) ++ c)%string = (a ++ (b ++ c))%string.
Proof. induction a as [|x a IH]; simpl; [|rewrite IH]; reflexivity. Qed.

Lemma contains_app c a b : contains c (a ++ b) = contains c a || contains c b.
Proof.
  induction a as [|x a IH]; simpl; [reflexivity|].
  rewrite IH, orb_assoc. reflexivity.
Qed.

Lemma contains_trimStart c s :
  contains c s = false -> contains c (JS.trimStart s) = false.
Proof.
  induction s as [|d s IH]; simpl; intros H; [reflexivity|].
  apply orb_false_iff in H. destruct H as [Hd Hs].
  destruct (JS.isWhiteSpace d); [apply IH; exact Hs|].
  simpl. rewrite Hd, Hs. reflexivity.
Qed.

Lemma contains_trimEnd c s :
  contains c s = false -> contains c (JS.trimEnd s) = false.
Proof.
  induction s as [|d s IH]; simpl; intros H; [reflexivity|].
  apply orb_false_iff in H. destruct H as [Hd Hs].
  specialize (IH Hs).
  destruct (JS.trimEnd s) as [|e t].
  - destruct (JS.isWhiteSpace d); simpl; [reflexivity|].
    rewrite Hd. reflexivity.
  - simpl in *. rewrite Hd. exact IH.
Qed.

Lemma contains_trim c s : contains c s = false -> contains c (JS.trim s) = false.
Proof. intros H. apply contains_trimEnd, contains_trimStart, H. Qed.

Lemma trimEnd_fixed s : no_trailing_ws s = true -> JS.trimEnd s = s.
Proof.
  induction s as [|c s IH]; intros H; [reflexivity|].
  simpl in *. destruct s as [|d s].
  - simpl. apply negb_true_iff in H. rewrite H. reflexivity.
  - rewrite (IH H). reflexivity.
Qed.

Lemma trim_idempotent s : JS.trim (JS.trim s) = JS.trim s.
Proof.
  assert (Hstart : JS.trimStart (JS.trim s) = JS.trim s).
  { destruct (trim_head s) as [E|(c & t & E & W)]; rewrite E; [reflexivity|].
    simpl. rewrite W. reflexivity. }
  unfold JS.trim at 1. rewrite Hstart.
  apply trimEnd_fixed. apply no_trailing_ws_trimEnd.
Qed.

Lemma trimEnd_append_ws c s :
  JS.isWhiteSpace c = true ->
  JS.trimEnd (s ++ String c EmptyString) = JS.trimEnd s.
Proof.
  intros W. induction s as [|d s IH]; simpl.
  - rewrite W. reflexivity.
  - rewrite IH. reflexivity.
Qed.

Lemma trim_append_ws c s :
  JS.isWhiteSpace c = true ->
  JS.trim (s ++ String c EmptyString) = JS.trim s.
Proof.
  intros W. unfold JS.trim. induction s as [|d s IH]; simpl.
  - rewrite W. reflexivity.
  - destruct (JS.isWhiteSpace d); [exact IH|].
    apply (trimEnd_append_ws c (String d s) W).
Qed.

Lemma trim_nonempty_head c s :
  JS.isWhiteSpace c = false -> JS.trim (String c s) <> EmptyString.
Proof.
  intros W. unfold JS.trim. simpl. rewrite W. simpl.
  destruct (JS.trimEnd s); [rewrite W|]; discriminate.
Qed.

Lemma trim_empty_iff s : JS.trim s = EmptyString <-> all_whitespace s = true.
Proof.
  induction s as [|c s IH]; [split; reflexivity|].
  simpl. destruct (JS.isWhiteSpace c) eqn:W.
  - unfold JS.trim in *. simpl. rewrite W. exact IH.
  - split; [|discriminate]. intros H. exfalso.
    apply (trim_nonempty_head c s W H).
Qed.

(** ** CSV lines *)

Lemma parseCSVLine_from_result line : forall result current q,
  parseCSVLine_from line result current q
  = result ++ parseCSVLine_from line [] current q.
Proof.
  induction line as [|ch rest IH]; intros result current q; simpl; [reflexivity|].
  destruct (Ascii.eqb ch JS.dquote); [apply IH|].
  destruct (Ascii.eqb ch "," && negb q); [|apply IH].
  rewrite IH. rewrite (IH [JS.trim current]). rewrite app_assoc. reflexivity.
Qed.

Lemma parseCSVLine_from_fields line : forall result current q,
  contains JS.dquote current = false ->
  Forall (fun f => JS.trim f = f /\ contains JS.dquote f = false) result ->
  parseCSVLine_from line result current q <> []
  /\ Forall (fun f => JS.trim f = f /\ contains JS.dquote f = false)
            (parseCSVLine_from line result current q).
Proof.
  induction line as [|ch rest IH]; intros result current q Hcur Hres; simpl.
  - split; [destruct result; discriminate|].
    apply Forall_app. split; [exact Hres|]. constructor; [|constructor].
    split; [apply trim_idempotent|apply contains_trim; exact Hcur].
  - destruct (Ascii.eqb ch JS.dquote) eqn:Q; [apply IH; assumption|].
    destruct (Ascii.eqb ch "," && negb q).
    + apply IH; [reflexivity|].
      apply Forall_app. split; [exact Hres|]. constructor; [|constructor].
      split; [apply trim_idempotent|apply contains_trim; exact Hcur].
    + apply IH; [|exact Hres].
      rewrite contains_app, Hcur. simpl. rewrite Q. reflexivity.
Qed.

(** X1: whatever the line, [parseCSVLine] returns at least one field, and
    every field is trimmed and free of double quotes: quote characters only
    switch the quoting state and are never copied. *)
Theorem parseCSVLine_fields (line : string) :
  parseCSVLine line <> []
  /\ Forall (fun f => JS.trim f = f /\ contains JS.dquote f = false)
            (parseCSVLine line).
Proof. apply parseCSVLine_from_fields; [reflexivity|constructor]. Qed.

Lemma parseCSVLine_from_unquoted line : forall result current,
  contains JS.dquote line = false ->
  parseCSVLine_from line result current false
  = result ++ match JS.split "," line with
              | w :: ws => JS.trim (current ++ w) :: map JS.trim ws
              | [] => []
              end.
Proof.
  induction line as [|ch rest IH]; intros result current H; simpl.
  - rewrite string_app_nil_r. reflexivity.
  - simpl in H. apply orb_false_iff in H. destruct H as [Q H].
    rewrite Q. destruct (Ascii.eqb ch ",") eqn:C; simpl.
    + rewrite (IH _ EmptyString H). rewrite string_app_nil_r.
      destruct (JS.split "," rest) as [|w ws]; rewrite <- app_assoc; reflexivity.
    + rewrite (IH _ _ H).
      pose proof (split_nonempty "," rest) as Hne.
      destruct (JS.split "," rest) as [|w ws]; [congruence|].
      rewrite string_app_assoc. reflexivity.
Qed.

(** X2: on a line without double quotes [parseCSVLine] is the split at
    every comma followed by a trim of each piece. *)
Theorem parseCSVLine_unquoted (line : string) :
  contains JS.dquote line = false ->
  parseCSVLine line = map JS.trim (JS.split "," line).
Proof.
  intros H. unfold parseCSVLine. rewrite parseCSVLine_from_unquoted by exact H.
  destruct (JS.split "," line); reflexivity.
Qed.

Lemma parseCSVLine_unquoted_witness :
  parseCSVLine " 100, Hex bolt ,,5 " = ["100"; "Hex bolt"; EmptyString; "5"].
Proof.
  rewrite (parseCSVLine_unquoted " 100, Hex bolt ,,5 "); reflexivity.
Defined.

Lemma parseCSVLine_from_trailing_ws c line : forall result current q,
  JS.isWhiteSpace c = true ->
  parseCSVLine_from (line ++ String c EmptyString) result current q
  = parseCSVLine_from line result current q.
Proof.
  intros result current q W. revert result current q.
  assert (Q : Ascii.eqb c JS.dquote = false /\ Ascii.eqb c "," = false).
  { destruct c as [[] [] [] [] [] [] [] []]; try discriminate W; split; reflexivity. }
  destruct Q as [Q C].
  induction line as [|ch rest IH]; intros result current q; simpl.
  - rewrite Q, C. simpl. rewrite trim_append_ws by exact W. reflexivity.
  - destruct (Ascii.eqb ch JS.dquote); [apply IH|].
    destruct (Ascii.eqb ch "," && negb q); apply IH.
Qed.

(** Doubled quotes inside a quoted field: the state comes back to quoted
    after each pair and the characters between are kept, commas included. *)
Lemma parseCSVLine_from_escaped c : forall tail result current,
  parseCSVLine_from (JS.double_quotes c ++ tail) result current true
  = parseCSVLine_from tail result (current ++ strip_quotes c) true.
Proof.
  induction c as [|ch c IH]; intros tail result current; simpl.
  - rewrite string_app_nil_r. reflexivity.
  - destruct (Ascii.eqb ch JS.dquote) eqn:Q; simpl.
    + change (Ascii.eqb JS.dquote JS.dquote) with true. simpl. apply IH.
    + rewrite Q, andb_false_r. rewrite IH, string_app_assoc. reflexivity.
Qed.

Lemma parseCSVLine_from_field c tail result current :
  parseCSVLine_from (quoted (JS.double_quotes c) ++ tail) result current false
  = parseCSVLine_from tail result (current ++ strip_quotes c) false.
Proof.
  unfold quoted. cbn [append parseCSVLine_from].
  change (Ascii.eqb JS.dquote JS.dquote) with true. cbv iota. cbn [negb].
  rewrite string_app_assoc, parseCSVLine_from_escaped.
  cbn [append parseCSVLine_from].
  change (Ascii.eqb JS.dquote JS.dquote) with true. reflexivity.
Qed.

Lemma parseCSVLine_from_exported r : forall result,
  r <> [] ->
  parseCSVLine_from (JS.join "," (map (fun c => quoted (JS.double_quotes c)) r))
                    result EmptyString false
  = result ++ map (fun c => JS.trim (strip_quotes c)) r.
Proof.
  induction r as [|c r IH]; intros result Hne; [congruence|].
  destruct r as [|c' r].
  - simpl JS.join.
    rewrite <- (string_app_nil_r (quoted (JS.double_quotes c))).
    rewrite parseCSVLine_from_field. reflexivity.
  - change (JS.join "," (map (fun c => quoted (JS.double_quotes c)) (c :: c' :: r)))
      with (quoted (JS.double_quotes c)
            ++ String "," (JS.join "," (map (fun c => quoted (JS.double_quotes c)) (c' :: r))))%string.
    rewrite parseCSVLine_from_field.
    cbn [parseCSVLine_from]. change (Ascii.eqb "," JS.dquote) with false.
    change (Ascii.eqb "," "," && negb false) with true. cbv iota.
    rewrite IH by discriminate. rewrite <- app_assoc. reflexivity.
Qed.

(** X4: a data line written by [exportCSV] parses back, field by field,
    to the cells trimmed and without their double quotes; commas inside a
    cell stay inside it. *)
Theorem parseCSVLine_exported_row (r : list string) :
  r <> [] ->
  parseCSVLine (JS.join "," (map (fun c => quoted (JS.double_quotes c)) r))
  = map (fun c => JS.trim (strip_quotes c)) r.
Proof. intros H. unfold parseCSVLine. rewrite parseCSVLine_from_exported by exact H. reflexivity. Qed.

Lemma parseCSVLine_exported_row_witness :
  parseCSVLine (JS.join ","
     (map (fun c => quoted (JS.double_quotes c))
          ["Bolt, hex"; String "2" (String JS.dquote EmptyString)]))
  = ["Bolt, hex"; "2"].
Proof.
  rewrite parseCSVLine_exported_row; [reflexivity|discriminate].
Defined.
(** ** CSV files *)

(** Splitting at the line feed undoes a join whose separator ends in a line
    feed; what precedes the line feed in the separator stays at the end of
    every piece but the last. *)
Lemma split_join_lines prefix lines :
  lines <> [] ->
  Forall (fun l => contains LF l = false) lines ->
  contains LF prefix = false ->
  JS.split LF (JS.join (prefix ++ newline) lines)
  = append_to_all_but_last prefix lines.
Proof.
  intros Hne F Hp. induction lines as [|l lines IH]; [congruence|].
  inversion F as [|? ? Hl F']; subst.
  destruct lines as [|l' lines].
  - simpl. apply split_no_separator. exact Hl.
  - change (JS.join (prefix ++ newline) (l :: l' :: lines))
      with (l ++ (prefix ++ newline) ++ JS.join (prefix ++ newline) (l' :: lines))%string.
    rewrite <- string_app_assoc, <- string_app_assoc.
    unfold newline at 1. rewrite (string_app_assoc (l ++ prefix)).
    change (String (ascii_of_nat 10) EmptyString
            ++ JS.join (prefix ++ newline) (l' :: lines))%string
      with (String LF (JS.join (prefix ++ newline) (l' :: lines))).
    rewrite split_app_separator.
    + rewrite IH; [reflexivity|discriminate|exact F'].
    + rewrite contains_app, Hl, Hp. reflexivity.
Qed.

Lemma append_nothing_to_all_but_last ls : append_to_all_but_last EmptyString ls = ls.
Proof.
  induction ls as [|x ls IH]; [reflexivity|].
  destruct ls as [|y ls]; [reflexivity|].
  change (append_to_all_but_last EmptyString (x :: y :: ls))
    with ((x ++ EmptyString)%string :: append_to_all_but_last EmptyString (y :: ls)).
  rewrite IH, string_app_nil_r. reflexivity.
Qed.

Lemma split_join_newline lines :
  lines <> [] ->
  Forall (fun l => contains LF l = false) lines ->
  JS.split LF (JS.join newline lines) = lines.
Proof.
  intros Hne F.
  change (JS.join newline lines) with (JS.join (EmptyString ++ newline) lines).
  rewrite split_join_lines; [apply append_nothing_to_all_but_last|assumption..|reflexivity].
Qed.

Lemma ingest_csv_lines name text :
  ingest_csv name text
  = match map parseCSVLine (filter not_blank (JS.split LF text)) with
    | [] => None
    | first :: others => Some (mkFileData name first others)
    end.
Proof.
  unfold ingest_csv. fold not_blank.
  destruct (filter not_blank (JS.split LF text)); reflexivity.
Qed.

Lemma not_blank_trailing_ws c l :
  JS.isWhiteSpace c = true -> not_blank (l ++ String c EmptyString) = not_blank l.
Proof. intros W. unfold not_blank. rewrite trim_append_ws by exact W. reflexivity. Qed.

Lemma parseCSVLine_trailing_ws c l :
  JS.isWhiteSpace c = true ->
  parseCSVLine (l ++ String c EmptyString) = parseCSVLine l.
Proof. intros W. apply parseCSVLine_from_trailing_ws. exact W. Qed.

Lemma parsed_lines_trailing_ws c lines :
  JS.isWhiteSpace c = true ->
  map parseCSVLine (filter not_blank (append_to_all_but_last (String c EmptyString) lines))
  = map parseCSVLine (filter not_blank lines).
Proof.
  intros W. induction lines as [|l lines IH]; [reflexivity|].
  destruct lines as [|l' lines]; [reflexivity|].
  change (append_to_all_but_last (String c EmptyString) (l :: l' :: lines))
    with ((l ++ String c EmptyString)%string
          :: append_to_all_but_last (String c EmptyString) (l' :: lines)).
  remember (append_to_all_but_last (String c EmptyString) (l' :: lines)) as T.
  remember (l' :: lines) as T'.
  cbn [filter]. rewrite (not_blank_trailing_ws c l W).
  destruct (not_blank l).
  - cbn [map]. rewrite IH, (parseCSVLine_trailing_ws c l W). reflexivity.
  - exact IH.
Qed.

(** X3: carriage returns before the line feeds change nothing: a text
    whose lines are joined with CR LF is ingested like the same lines
    joined with LF. *)
Theorem ingest_csv_crlf (name : string) (lines : list string) :
  Forall (fun l => contains LF l = false) lines ->
  ingest_csv name (JS.join (String CR newline) lines)
  = ingest_csv name (JS.join newline lines).
Proof.
  intros F. destruct lines as [|l lines]; [reflexivity|].
  rewrite !ingest_csv_lines.
  rewrite split_join_newline; [|discriminate|exact F].
  change (String CR newline) with (String CR EmptyString ++ newline)%string.
  rewrite split_join_lines; [|discriminate|exact F|reflexivity].
  rewrite parsed_lines_trailing_ws by reflexivity. reflexivity.
Qed.

Lemma ingest_csv_crlf_witness :
  ingest_csv "parts.csv" (JS.join (String CR newline) ["P/N,Qty"; "100,5"; "200,7"])
  = Some (mkFileData "parts.csv" ["P/N"; "Qty"] [["100"; "5"]; ["200"; "7"]]).
Proof.
  rewrite (ingest_csv_crlf "parts.csv" ["P/N,Qty"; "100,5"; "200,7"]).
  - reflexivity.
  - repeat constructor.
Defined.

Lemma all_whitespace_split text :
  all_whitespace text = forallb all_whitespace (JS.split LF text).
Proof.
  induction text as [|c text IH]; [reflexivity|].
  simpl. destruct (Ascii.eqb c LF) eqn:E.
  - apply Ascii.eqb_eq in E. subst c. simpl. exact IH.
  - pose proof (split_nonempty LF text) as Hne.
    destruct (JS.split LF text) as [|w ws]; [congruence|].
    simpl in *. rewrite IH, andb_assoc. reflexivity.
Qed.

Lemma not_blank_all_whitespace l : not_blank l = negb (all_whitespace l).
Proof.
  unfold not_blank. destruct (all_whitespace l) eqn:E.
  - apply trim_empty_iff in E. rewrite E. reflexivity.
  - destruct (String.eqb (JS.trim l) EmptyString) eqn:T; [|reflexivity].
    apply String.eqb_eq, trim_empty_iff in T. congruence.
Qed.

Lemma filter_not_blank_nil lines :
  filter not_blank lines = [] <-> forallb all_whitespace lines = true.
Proof.
  induction lines as [|l lines IH]; [split; reflexivity|].
  simpl. rewrite not_blank_all_whitespace.
  destruct (all_whitespace l); simpl; [exact IH|split; discriminate].
Qed.

(** X6: a CSV text is skipped exactly when it holds nothing but
    whitespace.  Otherwise the file gets the given name, at least one
    header, one row per further non-blank line, and no row is empty. *)
Theorem ingest_csv_result (name text : string) :
  (ingest_csv name text = None <-> all_whitespace text = true)
  /\ forall f, ingest_csv name text = Some f ->
       fileName f = name
       /\ headers f <> []
       /\ Forall (fun r => r <> []) (rows f)
       /\ S (List.length (rows f))
          = List.length (filter not_blank (JS.split LF text)).
Proof.
  rewrite ingest_csv_lines, all_whitespace_split.
  split.
  - rewrite <- filter_not_blank_nil.
    destruct (filter not_blank (JS.split LF text)); simpl; split; intros H;
      try reflexivity; discriminate.
  - intros f H.
    destruct (filter not_blank (JS.split LF text)) as [|first others];
      [discriminate|].
    simpl in H. inversion H; subst f; clear H. simpl.
    split; [reflexivity|].
    split; [apply (parseCSVLine_from_fields first [] EmptyString false eq_refl (Forall_nil _))|].
    split; [|rewrite length_map; reflexivity].
    apply Forall_forall. intros r Hr. apply in_map_iff in Hr.
    destruct Hr as (l & <- & _).
    apply (parseCSVLine_from_fields l [] EmptyString false eq_refl (Forall_nil _)).
Qed.

Lemma ingest_csv_result_witness :
  let text := JS.join newline ["Part Number,Qty"; EmptyString; "100,5"; "  "] in
  fileName (mkFileData "a.csv" ["Part Number"; "Qty"] [["100"; "5"]]) = "a.csv"
  /\ headers (mkFileData "a.csv" ["Part Number"; "Qty"] [["100"; "5"]]) <> []
  /\ Forall (fun r => r <> []) (rows (mkFileData "a.csv" ["Part Number"; "Qty"] [["100"; "5"]]))
  /\ S (List.length (rows (mkFileData "a.csv" ["Part Number"; "Qty"] [["100"; "5"]])))
     = List.length (filter not_blank (JS.split LF text)).
Proof.
  intros text.
  apply (proj2 (ingest_csv_result "a.csv" text)
           (mkFileData "a.csv" ["Part Number"; "Qty"] [["100"; "5"]])).
  reflexivity.
Defined.

Lemma double_quotes_unquoted s :
  contains JS.dquote s = false -> JS.double_quotes s = s.
Proof.
  induction s as [|c s IH]; simpl; intros H; [reflexivity|].
  apply orb_false_iff in H. destruct H as [Hc Hs].
  rewrite Hc, (IH Hs). reflexivity.
Qed.

Lemma strip_quotes_unquoted s :
  contains JS.dquote s = false -> strip_quotes s = s.
Proof.
  induction s as [|c s IH]; simpl; intros H; [reflexivity|].
  apply orb_false_iff in H. destruct H as [Hc Hs].
  rewrite Hc, (IH Hs). reflexivity.
Qed.

Lemma contains_join c sep l :
  contains c sep = false ->
  Forall (fun s => contains c s = false) l ->
  contains c (JS.join sep l) = false.
Proof.
  intros Hsep F. induction l as [|x l IH]; [reflexivity|].
  inversion F as [|? ? Hx F']; subst.
  destruct l as [|y l]; [exact Hx|].
  change (JS.join sep (x :: y :: l)) with (x ++ sep ++ JS.join sep (y :: l))%string.
  rewrite !contains_app, Hx, Hsep, (IH F'). reflexivity.
Qed.

Lemma exported_line_plain r :
  r <> [] -> Forall plain_field r ->
  contains LF (export_line r) = false
  /\ not_blank (export_line r) = true
  /\ parseCSVLine (export_line r) = r.
Proof.
  intros Hne F. split; [|split].
  - apply contains_join; [reflexivity|].
    apply Forall_map. eapply Forall_impl; [|exact F].
    intros s (Hlf & Hq & _). rewrite (double_quotes_unquoted s Hq).
    unfold quoted. simpl. rewrite contains_app, Hlf. reflexivity.
  - destruct r as [|c r]; [congruence|].
    assert (E : exists rest, export_line (c :: r) = String JS.dquote rest).
    { unfold export_line. destruct r; simpl; eexists; reflexivity. }
    destruct E as (rest & ->). unfold not_blank.
    destruct (String.eqb (JS.trim (String JS.dquote rest)) EmptyString) eqn:E;
      [|reflexivity].
    apply String.eqb_eq in E. exfalso.
    apply (trim_nonempty_head JS.dquote rest); [reflexivity|exact E].
  - unfold export_line, parseCSVLine.
    rewrite parseCSVLine_from_exported by exact Hne. cbn [app].
    rewrite <- (map_id r) at 2. apply map_ext_in.
    intros c Hc. rewrite Forall_forall in F. destruct (F c Hc) as (_ & Hq & Ht).
    rewrite (strip_quotes_unquoted c Hq). exact Ht.
Qed.

Lemma exported_lines_parse table :
  Forall (fun r => r <> [] /\ Forall plain_field r) table ->
  map parseCSVLine (filter not_blank (map export_line table)) = table.
Proof.
  induction table as [|r table IH]; intros F; [reflexivity|].
  inversion F as [|? ? [Hr Fr] F']; subst.
  destruct (exported_line_plain r Hr Fr) as (_ & Hnb & Hparse).
  cbn [map filter]. rewrite Hnb. cbn [map]. rewrite Hparse, (IH F'). reflexivity.
Qed.

(** X5: export followed by intake is the identity on plain tables.  When
    there is at least one header, no row is empty and every header and cell
    is free of line feeds and double quotes and already trimmed, the text
    written by [exportCSV] is ingested as the same headers and rows. *)
Theorem exportCSV_ingest_csv (name : string) (hs : list string)
    (table : list (list string)) :
  hs <> [] -> Forall plain_field hs ->
  Forall (fun r => r <> [] /\ Forall plain_field r) table ->
  ingest_csv name (exportCSV hs table) = Some (mkFileData name hs table).
Proof.
  intros Hne Fh Ft.
  assert (Ehs : JS.join "," (map (fun h => quoted h) hs) = export_line hs).
  { unfold export_line. f_equal. apply map_ext_in. intros h Hh.
    rewrite Forall_forall in Fh. destruct (Fh h Hh) as (_ & Hq & _).
    rewrite (double_quotes_unquoted h Hq). reflexivity. }
  assert (E : exportCSV hs table = JS.join newline (map export_line (hs :: table))).
  { unfold exportCSV. rewrite Ehs. reflexivity. }
  assert (Fall : Forall (fun r => r <> [] /\ Forall plain_field r) (hs :: table))
    by (constructor; [split; assumption|exact Ft]).
  rewrite E, ingest_csv_lines, split_join_newline.
  - rewrite (exported_lines_parse _ Fall). reflexivity.
  - discriminate.
  - apply Forall_map. eapply Forall_impl; [|exact Fall].
    intros r [Hr Fr]. apply (exported_line_plain r Hr Fr).
Qed.

Lemma exportCSV_ingest_csv_witness :
  ingest_csv "out.csv"
    (exportCSV ["Part Number"; "Description"] [["100"; "Bolt, hex"]; ["200"; EmptyString]])
  = Some (mkFileData "out.csv" ["Part Number"; "Description"]
            [["100"; "Bolt, hex"]; ["200"; EmptyString]]).
Proof.
  apply exportCSV_ingest_csv.
  - discriminate.
  - repeat constructor.
  - repeat constructor; discriminate.
Defined.

(** ** Insertion-ordered maps *)

Section MapFacts.

Context {K V : Type} (eqb : K -> K -> bool).
Hypothesis eqb_eq : forall a b, eqb a b = true <-> a = b.

Lemma eqb_refl_true a : eqb a a = true.
Proof. apply eqb_eq. reflexivity. Qed.

Lemma eqb_neq_false a b : a <> b -> eqb a b = false.
Proof.
  intros H. destruct (eqb a b) eqn:E; [|reflexivity].
  apply eqb_eq in E. contradiction.
Qed.

Lemma map_get_set_same (m : list (K * V)) k v :
  Map.get eqb (Map.set eqb k v m) k = Some v.
Proof.
  induction m as [|[k' v'] m IH]; simpl.
  - rewrite eqb_refl_true. reflexivity.
  - destruct (eqb k' k) eqn:E; simpl.
    + rewrite eqb_refl_true. reflexivity.
    + rewrite E. exact IH.
Qed.

Lemma map_get_set_other (m : list (K * V)) k v k' :
  k' <> k -> Map.get eqb (Map.set eqb k v m) k' = Map.get eqb m k'.
Proof.
  intros Hne. induction m as [|[k0 v0] m IH]; simpl.
  - rewrite eqb_neq_false by congruence. reflexivity.
  - destruct (eqb k0 k) eqn:E; simpl.
    + apply eqb_eq in E. subst k0.
      rewrite !eqb_neq_false by congruence. reflexivity.
    + destruct (eqb k0 k'); [reflexivity|exact IH].
Qed.

Lemma map_has_keys (m : list (K * V)) k :
  Map.has eqb m k = true <-> In k (map fst m).
Proof.
  unfold Map.has. induction m as [|[k' v'] m IH]; simpl.
  - split; [discriminate|intros []].
  - destruct (eqb k' k) eqn:E.
    + apply eqb_eq in E. split; auto.
    + rewrite IH. split; [auto|]. intros [H|H]; [|exact H].
      subst k'. rewrite eqb_refl_true in E. discriminate.
Qed.

Lemma map_keys_set (m : list (K * V)) k v :
  map fst (Map.set eqb k v m)
  = if Map.has eqb m k then map fst m else map fst m ++ [k].
Proof.
  unfold Map.has. induction m as [|[k' v'] m IH]; simpl; [reflexivity|].
  destruct (eqb k' k) eqn:E; simpl.
  - apply eqb_eq in E. subst k'. reflexivity.
  - rewrite IH. destruct (Map.get eqb m k); reflexivity.
Qed.

Lemma map_get_In (m : list (K * V)) k v :
  Map.get eqb m k = Some v -> In (k, v) m.
Proof.
  induction m as [|[k' v'] m IH]; simpl; [discriminate|].
  destruct (eqb k' k) eqn:E.
  - apply eqb_eq in E. intros H. inversion H. subst. left. reflexivity.
  - intros H. right. apply IH. exact H.
Qed.

Lemma map_In_get (m : list (K * V)) k v :
  NoDup (map fst m) -> In (k, v) m -> Map.get eqb m k = Some v.
Proof.
  induction m as [|[k' v'] m IH]; simpl; intros N H; [contradiction|].
  inversion N as [|? ? Hnotin N']; subst.
  destruct H as [H|H].
  - inversion H; subst. rewrite eqb_refl_true. reflexivity.
  - destruct (eqb k' k) eqn:E.
    + apply eqb_eq in E. subst k'. exfalso. apply Hnotin.
      apply (in_map fst) in H. exact H.
    + apply IH; assumption.
Qed.

Lemma map_In_set (m : list (K * V)) k v a b :
  NoDup (map fst m) ->
  In (a, b) (Map.set eqb k v m) ->
  (a = k /\ b = v) \/ (a <> k /\ In (a, b) m).
Proof.
  induction m as [|[k' v'] m IH]; simpl; intros N H.
  - destruct H as [H|[]]. inversion H. left. split; reflexivity.
  - inversion N as [|? ? Hnotin N']; subst.
    destruct (eqb k' k) eqn:E.
    + apply eqb_eq in E. subst k'. destruct H as [H|H].
      * inversion H. left. split; reflexivity.
      * right. split; [|right; exact H].
        intros ->. apply Hnotin. apply (in_map fst) in H. exact H.
    + destruct H as [H|H].
      * inversion H; subst. right. split; [|left; reflexivity].
        intros ->. rewrite eqb_refl_true in E. discriminate.
      * destruct (IH N' H) as [Hl|[Hne Hin]]; [left; exact Hl|].
        right. split; [exact Hne|right; exact Hin].
Qed.

Lemma map_In_set_new (m : list (K * V)) k v : In (k, v) (Map.set eqb k v m).
Proof. apply map_get_In. apply map_get_set_same. Qed.

Lemma map_In_set_old (m : list (K * V)) k v a b :
  a <> k -> In (a, b) m -> In (a, b) (Map.set eqb k v m).
Proof.
  intros Hne. induction m as [|[k' v'] m IH]; simpl; [intros []|].
  intros [H|H].
  - inversion H; subst. rewrite eqb_neq_false by exact Hne. left. reflexivity.
  - destruct (eqb k' k); right; [exact H|apply IH; exact H].
Qed.

End MapFacts.

(** ** Column mapping *)

Lemma set_add_In x y s : In x (set_add y s) <-> x = y \/ In x s.
Proof.
  unfold set_add. destruct (existsb (String.eqb y) s) eqn:E.
  - split; [auto|]. intros [->|H]; [|exact H].
    apply existsb_exists in E. destruct E as (z & Hz & Ez).
    apply String.eqb_eq in Ez. subst. exact Hz.
  - rewrite in_app_iff. simpl. split; intros H; [|destruct H as [->|H]; auto].
    destruct H as [H|[<-|[]]]; auto.
Qed.

Lemma set_add_NoDup y s : NoDup s -> NoDup (set_add y s).
Proof.
  intros N. unfold set_add. destruct (existsb (String.eqb y) s) eqn:E; [exact N|].
  apply NoDup_app; [exact N|repeat constructor; intros []|].
  intros x Hx [->|[]].
  assert (existsb (String.eqb x) s = true); [|congruence].
  apply existsb_exists. exists x. split; [exact Hx|apply String.eqb_refl].
Qed.

Lemma set_add_length y s : List.length s <= List.length (set_add y s).
Proof.
  unfold set_add. destruct (existsb (String.eqb y) s); [lia|].
  rewrite length_app. lia.
Qed.

Lemma allSourceCols_spec files :
  NoDup (allSourceCols files)
  /\ forall h, In h (allSourceCols files)
               <-> exists f, In f files /\ In h (headers f).
Proof.
  unfold allSourceCols.
  assert (G : forall fs acc,
             NoDup acc ->
             NoDup (fold_left (fun acc f => fold_left (fun acc h => set_add h acc) (headers f) acc) fs acc)
             /\ forall h,
                  In h (fold_left (fun acc f => fold_left (fun acc h => set_add h acc) (headers f) acc) fs acc)
                  <-> In h acc \/ exists f, In f fs /\ In h (headers f)).
  { assert (H1 : forall hs acc, NoDup acc ->
                   NoDup (fold_left (fun acc h => set_add h acc) hs acc)
                   /\ forall h, In h (fold_left (fun acc h => set_add h acc) hs acc)
                                <-> In h acc \/ In h hs).
    { induction hs as [|x hs IH]; intros acc N; simpl.
      - split; [exact N|]. intros h. tauto.
      - destruct (IH (set_add x acc) (set_add_NoDup x acc N)) as [N' H'].
        split; [exact N'|]. intros h. rewrite H', set_add_In. intuition. }
    induction fs as [|f fs IH]; intros acc N; simpl.
    - split; [exact N|]. intros h. split; [auto|].
      intros [H|(f & [] & _)]. exact H.
    - destruct (H1 (headers f) acc N) as [N1 M1].
      destruct (IH _ N1) as [N2 M2]. split; [exact N2|].
      intros h. rewrite M2, M1. split.
      + intros [[H|H]|(g & Hg & Hh)]; [left; exact H| |].
        * right. exists f. split; [left; reflexivity|exact H].
        * right. exists g. split; [right; exact Hg|exact Hh].
      + intros [H|(g & [<-|Hg] & Hh)]; [left; left; exact H| |].
        * left. right. exact Hh.
        * right. exists g. split; assumption. }
  destruct (G files [] (NoDup_nil _)) as [N M]. split; [exact N|].
  intros h. rewrite M. split; [|auto]. intros [[]|H]. exact H.
Qed.

Lemma resolve_by_key a b : header_key a = header_key b -> resolve a = resolve b.
Proof. intros H. unfold resolve. rewrite H. reflexivity. Qed.

Lemma map_column_invariant processed st src :
  mapping_invariant processed st ->
  mapping_invariant (processed ++ [src]) (map_column st src).
Proof.
  intros (Hkeys & Hnodup & Hproc & Htrack & Hlen).
  assert (Ntrack : NoDup (map fst (mappingTracker st))) by (rewrite Hkeys; exact Hnodup).
  unfold map_column.
  set (name := resolve src).
  destruct (Map.has String.eqb (mappingTracker st) name) eqn:Ehas; cbn [negb].
  - (* the name is already a standard column *)
    assert (Hin : In name (map fst (mappingTracker st)))
      by (apply (map_has_keys String.eqb String.eqb_eq); exact Ehas).
    destruct (Map.get String.eqb (mappingTracker st) name) as [old|] eqn:Eget.
    2:{ unfold Map.has in Ehas. rewrite Eget in Ehas. discriminate. }
    assert (Hold : In (name, old) (mappingTracker st))
      by (apply (map_get_In String.eqb String.eqb_eq); exact Eget).
    unfold mapping_invariant. cbn [colMapping standardCols mappingTracker].
    split; [|split; [|split; [|split]]].
    + rewrite (map_keys_set String.eqb String.eqb_eq), Ehas. exact Hkeys.
    + exact Hnodup.
    + intros s Hs. apply in_app_iff in Hs. split.
      * destruct (String.eqb (header_key s) (header_key src)) eqn:E.
        -- apply String.eqb_eq in E. rewrite E.
           rewrite (map_get_set_same String.eqb String.eqb_eq).
           f_equal. symmetry. apply resolve_by_key. exact E.
        -- apply String.eqb_neq in E.
           rewrite (map_get_set_other String.eqb String.eqb_eq) by exact E.
           destruct Hs as [Hs|[<-|[]]]; [apply Hproc; exact Hs|congruence].
      * destruct Hs as [Hs|[<-|[]]].
        -- destruct (Hproc s Hs) as (_ & srcs & Hentry & Hsrc).
           destruct (String.eqb (resolve s) name) eqn:E.
           ++ apply String.eqb_eq in E. exists (set_add src old). split.
              ** rewrite E. apply (map_In_set_new String.eqb String.eqb_eq).
              ** apply set_add_In. right.
                 rewrite E in Hentry.
                 pose proof (map_In_get String.eqb String.eqb_eq _ _ _ Ntrack Hentry) as G.
                 rewrite Eget in G. inversion G. exact Hsrc.
           ++ apply String.eqb_neq in E. exists srcs. split; [|exact Hsrc].
              apply (map_In_set_old String.eqb String.eqb_eq); assumption.
        -- exists (set_add src old). split.
           ++ apply (map_In_set_new String.eqb String.eqb_eq).
           ++ apply set_add_In. left. reflexivity.
    + intros t srcs Hentry.
      apply (map_In_set String.eqb String.eqb_eq) in Hentry; [|exact Ntrack].
      destruct Hentry as [[-> ->]|[Hne Hentry]].
      * destruct (Htrack name old Hold) as [_ Hsrcs]. split.
        -- intros E. assert (In src (set_add src old)) by (apply set_add_In; auto).
           rewrite E in H. exact H.
        -- intros s Hs. apply set_add_In in Hs. rewrite in_app_iff.
           destruct Hs as [->|Hs]; [split; [right; left; reflexivity|reflexivity]|].
           destruct (Hsrcs s Hs). split; [left; assumption|assumption].
      * destruct (Htrack t srcs Hentry) as [Hne' Hsrcs]. split; [exact Hne'|].
        intros s Hs. destruct (Hsrcs s Hs). rewrite in_app_iff. split; auto.
    + rewrite length_app. simpl. lia.
  - (* a new standard column *)
    assert (Hnotin : ~ In name (map fst (mappingTracker st))).
    { intros H. apply (map_has_keys String.eqb String.eqb_eq) in H. congruence. }
    rewrite (map_get_set_same String.eqb String.eqb_eq).
    set (tracker1 := Map.set String.eqb name [] (mappingTracker st)).
    assert (Hkeys1 : map fst tracker1 = standardCols st ++ [name]).
    { unfold tracker1. rewrite (map_keys_set String.eqb String.eqb_eq), Ehas, Hkeys.
      reflexivity. }
    assert (Nnew : NoDup (standardCols st ++ [name])).
    { apply NoDup_app; [exact Hnodup|repeat constructor; intros []|].
      intros x Hx [<-|[]]. apply Hnotin. rewrite Hkeys. exact Hx. }
    assert (Ntrack1 : NoDup (map fst tracker1)) by (rewrite Hkeys1; exact Nnew).
    assert (Hhas1 : Map.has String.eqb tracker1 name = true).
    { unfold Map.has, tracker1. rewrite (map_get_set_same String.eqb String.eqb_eq).
      reflexivity. }
    unfold mapping_invariant. cbn [colMapping standardCols mappingTracker].
    change (set_add src []) with [src].
    split; [|split; [|split; [|split]]].
    + rewrite (map_keys_set String.eqb String.eqb_eq), Hhas1. exact Hkeys1.
    + exact Nnew.
    + intros s Hs. apply in_app_iff in Hs. split.
      * destruct (String.eqb (header_key s) (header_key src)) eqn:E.
        -- apply String.eqb_eq in E. rewrite E.
           rewrite (map_get_set_same String.eqb String.eqb_eq).
           f_equal. symmetry. apply resolve_by_key. exact E.
        -- apply String.eqb_neq in E.
           rewrite (map_get_set_other String.eqb String.eqb_eq) by exact E.
           destruct Hs as [Hs|[<-|[]]]; [apply Hproc; exact Hs|congruence].
      * destruct Hs as [Hs|[<-|[]]].
        -- destruct (Hproc s Hs) as (_ & srcs & Hentry & Hsrc).
           assert (Hne : resolve s <> name).
           { intros E. apply Hnotin. rewrite <- E.
             apply (in_map fst) in Hentry. exact Hentry. }
           exists srcs. split; [|exact Hsrc].
           apply (map_In_set_old String.eqb String.eqb_eq); [exact Hne|].
           apply (map_In_set_old String.eqb String.eqb_eq); assumption.
        -- exists [src]. split; [|left; reflexivity].
           apply (map_In_set_new String.eqb String.eqb_eq).
    + intros t srcs Hentry.
      apply (map_In_set String.eqb String.eqb_eq) in Hentry; [|exact Ntrack1].
      destruct Hentry as [[-> ->]|[Hne Hentry]].
      * split; [discriminate|]. intros s [<-|[]].
        rewrite in_app_iff. split; [right; left; reflexivity|reflexivity].
      * apply (map_In_set String.eqb String.eqb_eq) in Hentry; [|exact Ntrack].
        destruct Hentry as [[E _]|[_ Hentry]]; [contradiction|].
        destruct (Htrack t srcs Hentry) as [Hne' Hsrcs]. split; [exact Hne'|].
        intros s Hs. destruct (Hsrcs s Hs). rewrite in_app_iff. split; auto.
    + rewrite !length_app. simpl. lia.
Qed.

Lemma map_columns_invariant files :
  mapping_invariant (allSourceCols files) (map_columns files).
Proof.
  unfold map_columns.
  assert (G : forall l processed st,
             mapping_invariant processed st ->
             mapping_invariant (processed ++ l) (fold_left map_column l st)).
  { induction l as [|src l IH]; intros processed st H; simpl.
    - rewrite app_nil_r. exact H.
    - replace (processed ++ src :: l) with ((processed ++ [src]) ++ l)
        by (rewrite <- app_assoc; reflexivity).
      apply IH. apply map_column_invariant. exact H. }
  apply (G (allSourceCols files) [] (mkMappingState [] [] [])).
  unfold mapping_invariant. simpl.
  split; [reflexivity|]. split; [constructor|]. split; [intros ? []|].
  split; [intros ? ? []|lia].
Qed.
Lemma header_in_allSourceCols files f h :
  In f files -> In h (headers f) -> In h (allSourceCols files).
Proof.
  intros Hf Hh. apply (proj2 (allSourceCols_spec files)). exists f. split; assumption.
Qed.

(** X7: the merged headers list every name once; there are at most as many
    of them as distinct source headers; every source header resolves to one
    of them, and every one of them is the name some source header resolves
    to. *)
Theorem merged_headers_columns (files : list FileData) :
  let m := mergeAndPreview files in
  NoDup (mergedHeaders m)
  /\ outputColumns m <= sourceColumns m
  /\ (forall f h, In f files -> In h (headers f) -> In (resolve h) (mergedHeaders m))
  /\ (forall c, In c (mergedHeaders m) ->
        exists f h, In f files /\ In h (headers f) /\ resolve h = c).
Proof.
  intros m. subst m. simpl.
  destruct (map_columns_invariant files) as (Hkeys & Hnodup & Hproc & Htrack & Hlen).
  split; [exact Hnodup|]. split; [exact Hlen|]. split.
  - intros f h Hf Hh.
    destruct (Hproc h (header_in_allSourceCols files f h Hf Hh)) as (_ & srcs & Hentry & _).
    rewrite <- Hkeys. apply (in_map fst) in Hentry. exact Hentry.
  - intros c Hc. rewrite <- Hkeys in Hc. apply in_map_iff in Hc.
    destruct Hc as ([t srcs] & <- & Hentry). simpl.
    destruct (Htrack t srcs Hentry) as [Hne Hsrcs].
    destruct srcs as [|s srcs]; [congruence|].
    destruct (Hsrcs s (or_introl eq_refl)) as [Hs Hres].
    apply (proj2 (allSourceCols_spec files)) in Hs. destruct Hs as (f & Hf & Hh).
    exists f, s. repeat split; assumption.
Qed.

(** X8: the column mappings reported with the merge follow the merged
    headers one for one; each has at least one source; its sources are
    source headers that resolve to its target; every source header is a
    source of the mapping of its name; and the display filter hides a
    mapping exactly when its only source is the target itself. *)
Theorem column_mappings_report (files : list FileData) :
  let m := mergeAndPreview files in
  map target (columnMappings m) = mergedHeaders m
  /\ (forall cm, In cm (columnMappings m) ->
        sources cm <> []
        /\ (forall s, In s (sources cm) ->
              resolve s = target cm /\ exists f, In f files /\ In s (headers f))
        /\ (nontrivial_mapping cm = false <-> sources cm = [target cm]))
  /\ (forall f h, In f files -> In h (headers f) ->
        exists cm, In cm (columnMappings m)
                   /\ target cm = resolve h /\ In h (sources cm)).
Proof.
  intros m. subst m. simpl.
  destruct (map_columns_invariant files) as (Hkeys & Hnodup & Hproc & Htrack & Hlen).
  split; [|split].
  - rewrite map_map. simpl. exact Hkeys.
  - intros cm Hcm. apply in_map_iff in Hcm. destruct Hcm as ([t srcs] & <- & Hentry).
    simpl. destruct (Htrack t srcs Hentry) as [Hne Hsrcs].
    split; [exact Hne|]. split.
    + intros s Hs. destruct (Hsrcs s Hs) as [Hin Hres]. split; [exact Hres|].
      apply (proj2 (allSourceCols_spec files)). exact Hin.
    + unfold nontrivial_mapping. simpl.
      destruct srcs as [|s [|s' srcs]]; [congruence| |].
      * simpl. destruct (String.eqb s t) eqn:E; simpl.
        -- apply String.eqb_eq in E. subst. split; reflexivity.
        -- apply String.eqb_neq in E. split; [discriminate|].
           intros H. inversion H. contradiction.
      * simpl. split; discriminate.
  - intros f h Hf Hh.
    destruct (Hproc h (header_in_allSourceCols files f h Hf Hh)) as (_ & srcs & Hentry & Hsrc).
    exists (mkColumnMapping srcs (resolve h)). split; [|split; [reflexivity|exact Hsrc]].
    apply in_map_iff. exists (resolve h, srcs). split; [reflexivity|exact Hentry].
Qed.

(** X9: the merge neither drops nor adds rows: the merged table has as many
    rows as the files together, and that is the [totalSourceRows] it
    reports. *)
Theorem merged_row_count (files : list FileData) :
  let m := mergeAndPreview files in
  List.length (mergedRows m) = list_sum (map (fun f => List.length (rows f)) files)
  /\ totalSourceRows m = List.length (mergedRows m)
  /\ totalFiles m = List.length files.
Proof.
  intros m. subst m. simpl. split; [|split; reflexivity].
  unfold merge_rows. generalize (map_columns files). intros st.
  induction files as [|f files IH]; [reflexivity|].
  simpl. rewrite length_app, length_map, IH. reflexivity.
Qed.

(** ** Merge: where a cell lands *)

Lemma indexOf_nth a x : forall i, JS.indexOf a x = Some i -> nth_error a i = Some x.
Proof.
  induction a as [|y a IH]; simpl; intros i H; [discriminate|].
  destruct (String.eqb y x) eqn:E.
  - apply String.eqb_eq in E. inversion H. subst. reflexivity.
  - destruct (JS.indexOf a x) as [i'|]; [|discriminate].
    inversion H. simpl. apply IH. reflexivity.
Qed.

Lemma indexOf_In a x : In x a -> exists i, JS.indexOf a x = Some i.
Proof.
  induction a as [|y a IH]; simpl; intros H; [contradiction|].
  destruct (String.eqb y x) eqn:E; [eexists; reflexivity|].
  destruct H as [H|H]; [subst; rewrite String.eqb_refl in E; discriminate|].
  destruct (IH H) as (i & ->). eexists; reflexivity.
Qed.

Lemma headerMap_from_get st hs : forall i0 hm i,
  (forall k v, Map.get Nat.eqb hm k = Some v -> k < i0) ->
  Map.get Nat.eqb (headerMap_from st i0 hs hm) i
  = if Nat.ltb i i0 then Map.get Nat.eqb hm i
    else match nth_error hs (i - i0) with
         | Some h => mapped_index st h
         | None => None
         end.
Proof.
  induction hs as [|h hs IH]; intros i0 hm i Hkeys; simpl.
  - destruct (Nat.ltb i i0) eqn:L; [reflexivity|].
    destruct (i - i0); simpl;
      (destruct (Map.get Nat.eqb hm i) as [v|] eqn:G; [|reflexivity];
       apply Hkeys in G; apply Nat.ltb_ge in L; lia).
  - fold (mapped_index st h).
    set (hm' := match mapped_index st h with
                | Some idx => Map.set Nat.eqb i0 idx hm
                | None => hm
                end).
    assert (Hkeys' : forall k v, Map.get Nat.eqb hm' k = Some v -> k < S i0).
    { intros k v G. unfold hm' in G. destruct (mapped_index st h) as [idx|].
      - apply get_set_nat in G. destruct G as [[-> _]|G]; [lia|].
        apply Hkeys in G. lia.
      - apply Hkeys in G. lia. }
    assert (E : (match truthy_string (Map.get String.eqb (colMapping st) (header_key h)) with
                 | Some standard =>
                     match JS.indexOf (standardCols st) standard with
                     | Some idx => Map.set Nat.eqb i0 idx hm
                     | None => hm
                     end
                 | None => hm
                 end) = hm').
    { unfold hm', mapped_index.
      destruct (truthy_string _) as [standard|]; reflexivity. }
    rewrite E, (IH (S i0) hm' i Hkeys').
    destruct (Nat.ltb i (S i0)) eqn:L1; destruct (Nat.ltb i i0) eqn:L0.
    + apply Nat.ltb_lt in L0. unfold hm'. destruct (mapped_index st h); [|reflexivity].
      apply (map_get_set_other Nat.eqb Nat.eqb_eq). lia.
    + apply Nat.ltb_lt in L1. apply Nat.ltb_ge in L0.
      assert (i = i0) by lia. subst i. rewrite Nat.sub_diag. simpl.
      unfold hm'. destruct (mapped_index st h) as [idx|].
      * apply (map_get_set_same Nat.eqb Nat.eqb_eq).
      * destruct (Map.get Nat.eqb hm i0) as [v|] eqn:G; [|reflexivity].
        apply Hkeys in G. lia.
    + apply Nat.ltb_ge in L1. apply Nat.ltb_lt in L0. lia.
    + apply Nat.ltb_ge in L1.
      replace (i - i0) with (S (i - S i0)) by lia. reflexivity.
Qed.

Lemma headerMap_get st f i :
  Map.get Nat.eqb (headerMap st f) i
  = match nth_error (headers f) i with
    | Some h => mapped_index st h
    | None => None
    end.
Proof.
  unfold headerMap. rewrite headerMap_from_get.
  - simpl. rewrite Nat.sub_0_r. reflexivity.
  - intros k v G. discriminate.
Qed.

Lemma array_set_same idx cell : forall a,
  idx < List.length a -> nth_error (array_set idx cell a) idx = Some (Some cell).
Proof.
  induction idx as [|i IH]; intros [|x a] H; simpl in *; try lia.
  - reflexivity.
  - apply IH. lia.
Qed.

Lemma fill_from_written n bound hm :
  header_map_ok n bound hm ->
  forall row i0 merged i cell idx,
    List.length merged = n ->
    i0 <= i -> nth_error row (i - i0) = Some cell ->
    Map.get Nat.eqb hm i = Some idx ->
    (forall j, i < j < i0 + List.length row -> Map.get Nat.eqb hm j <> Some idx) ->
    nth_error (fill_from hm i0 row merged) idx = Some (Some cell).
Proof.
  intros ok. induction row as [|c row IH]; intros i0 merged i cell idx L Hle Hcell Hget Hlater.
  - destruct (i - i0); discriminate.
  - destruct (ok i idx Hget) as [Hidx _]. simpl.
    destruct (Nat.eq_dec i i0) as [->|Hne].
    + rewrite Nat.sub_diag in Hcell. simpl in Hcell. inversion Hcell; subst c.
      rewrite Hget.
      rewrite (fill_from_untouched n bound hm ok).
      * apply array_set_same. lia.
      * rewrite array_set_length; lia.
      * exact Hidx.
      * intros j Hj. apply Hlater. simpl. lia.
    + replace (i - i0) with (S (i - S i0)) in Hcell by lia. simpl in Hcell.
      apply (IH (S i0) _ i cell idx); try assumption; try lia.
      * destruct (Map.get Nat.eqb hm i0) as [idx0|] eqn:G; [|exact L].
        destruct (ok i0 idx0 G) as [H0 _]. rewrite array_set_length; lia.
      * intros j Hj. apply Hlater. simpl. lia.
Qed.

(** X10: a cell lands under the name of its header.  For a cell at a
    position that has a header whose name is not empty, and provided no
    later cell of the row has a header of the same name, the merged row
    holds that cell at the position of the name in the merged headers. *)
Theorem merged_cell_under_its_header (files : list FileData) (f : FileData)
    (row : list string) (i : nat) (h cell : string) :
  In f files -> In row (rows f) ->
  nth_error (headers f) i = Some h -> nth_error row i = Some cell ->
  resolve h <> EmptyString ->
  (forall j h', i < j < List.length row -> nth_error (headers f) j = Some h' ->
                resolve h' <> resolve h) ->
  let m := mergeAndPreview files in
  let out := merge_row (List.length (mergedHeaders m)) (headerMap (map_columns files) f) row in
  In out (mergedRows m)
  /\ exists idx, nth_error (mergedHeaders m) idx = Some (resolve h)
                 /\ nth_error out idx = Some (Some cell).
Proof.
  intros Hf Hrow Hh Hcell Hname Hlater m out. subst m out. simpl.
  set (st := map_columns files).
  destruct (map_columns_invariant files) as (Hkeys & Hnodup & Hproc & Htrack & Hlen).
  fold st in Hkeys, Hnodup, Hproc, Htrack, Hlen.
  assert (Hmapped : forall h0, In h0 (headers f) -> resolve h0 <> EmptyString ->
            mapped_index st h0 = JS.indexOf (standardCols st) (resolve h0)).
  { intros h0 Hin Hne. unfold mapped_index.
    destruct (Hproc h0 (header_in_allSourceCols files f h0 Hf Hin)) as (-> & _).
    simpl. apply String.eqb_neq in Hne. rewrite Hne. reflexivity. }
  assert (Hmapped' : forall h0 idx, In h0 (headers f) -> mapped_index st h0 = Some idx ->
            nth_error (standardCols st) idx = Some (resolve h0)).
  { intros h0 idx Hin Hidx. unfold mapped_index in Hidx.
    destruct (Hproc h0 (header_in_allSourceCols files f h0 Hf Hin)) as (E & _).
    rewrite E in Hidx. simpl in Hidx.
    destruct (String.eqb (resolve h0) EmptyString); [discriminate|].
    apply indexOf_nth. exact Hidx. }
  assert (Hin : In h (headers f)) by (eapply nth_error_In; exact Hh).
  destruct (Hproc h (header_in_allSourceCols files f h Hf Hin)) as (_ & srcs & Hentry & _).
  assert (Hcol : In (resolve h) (standardCols st)).
  { rewrite <- Hkeys. apply (in_map fst) in Hentry. exact Hentry. }
  destruct (indexOf_In _ _ Hcol) as (idx & Hidx).
  split.
  - unfold merge_rows. apply in_flat_map. exists f. split; [exact Hf|].
    apply in_map. exact Hrow.
  - exists idx. split; [apply indexOf_nth; exact Hidx|].
    unfold merge_row.
    apply (fill_from_written _ _ _ (headerMap_ok st f)) with (i := i).
    + apply repeat_length.
    + lia.
    + rewrite Nat.sub_0_r. exact Hcell.
    + rewrite headerMap_get, Hh, (Hmapped h Hin Hname). exact Hidx.
    + intros j Hj G. rewrite headerMap_get in G.
      destruct (nth_error (headers f) j) as [h'|] eqn:Ej; [|discriminate].
      assert (Hin' : In h' (headers f)) by (eapply nth_error_In; exact Ej).
      pose proof (Hmapped' h' idx Hin' G) as H1.
      pose proof (indexOf_nth _ _ _ Hidx) as H2.
      rewrite H1 in H2. inversion H2 as [H3].
      apply (Hlater j h'); [simpl in Hj; lia|exact Ej|exact H3].
Qed.

Lemma merged_cell_under_its_header_witness :
  let fileB := mkFileData "b.csv" ["P/N"; "qty."; "Colour"] [["100"; "5"; "red"; "extra"]] in
  let files := [mkFileData "a.csv" ["Part Number"; "Qty"] [["7"; "1"]]; fileB] in
  exists idx,
    nth_error (mergedHeaders (mergeAndPreview files)) idx = Some "Colour"
    /\ nth_error (merge_row (List.length (mergedHeaders (mergeAndPreview files)))
                    (headerMap (map_columns files) fileB) ["100"; "5"; "red"; "extra"])
                 idx
       = Some (Some "red").
Proof.
  intros fileB files.
  apply (merged_cell_under_its_header files fileB ["100"; "5"; "red"; "extra"] 2
           "Colour" "red").
  - right. left. reflexivity.
  - left. reflexivity.
  - reflexivity.
  - reflexivity.
  - vm_compute. discriminate.
  - intros j h' Hj Hh'. simpl in Hj.
    assert (j = 3) by lia. subst j. discriminate.
Defined.
(** ** Canonical names *)

Lemma map_chars_trimStart f s :
  (forall c, JS.isWhiteSpace (f c) = JS.isWhiteSpace c) ->
  JS.trimStart (JS.map_chars f s) = JS.map_chars f (JS.trimStart s).
Proof.
  intros Hf. induction s as [|c s IH]; [reflexivity|].
  simpl. rewrite Hf. destruct (JS.isWhiteSpace c); [exact IH|reflexivity].
Qed.

Lemma map_chars_trimEnd f s :
  (forall c, JS.isWhiteSpace (f c) = JS.isWhiteSpace c) ->
  JS.trimEnd (JS.map_chars f s) = JS.map_chars f (JS.trimEnd s).
Proof.
  intros Hf. induction s as [|c s IH]; [reflexivity|].
  simpl. rewrite IH, Hf.
  destruct (JS.trimEnd s); simpl; [destruct (JS.isWhiteSpace c)|]; reflexivity.
Qed.

Lemma toLowerCase_trim s : JS.toLowerCase (JS.trim s) = JS.trim (JS.toLowerCase s).
Proof.
  unfold JS.toLowerCase, JS.trim.
  rewrite map_chars_trimStart, map_chars_trimEnd; [reflexivity| |];
    intros c; apply toLowerChar_ws.
Qed.

Lemma toLowerCase_idempotent s : JS.toLowerCase (JS.toLowerCase s) = JS.toLowerCase s.
Proof.
  unfold JS.toLowerCase. induction s as [|c s IH]; [reflexivity|].
  simpl. rewrite IH. f_equal. apply toUpperChar_idem.
Qed.

Lemma toLowerChar_toUpperChar c : JS.toLowerChar (JS.toUpperChar c) = JS.toLowerChar c.
Proof. destruct c as [[] [] [] [] [] [] [] []]; vm_compute; reflexivity. Qed.

Lemma toLowerCase_capitalize s : forall start,
  JS.toLowerCase (capitalize_from (fun c => c) start s) = JS.toLowerCase s.
Proof.
  unfold JS.toLowerCase. induction s as [|c s IH]; intros start; [reflexivity|].
  simpl. rewrite IH. f_equal. destruct start; [apply toLowerChar_toUpperChar|reflexivity].
Qed.

Lemma header_key_idempotent src : header_key (header_key src) = header_key src.
Proof.
  unfold header_key.
  rewrite <- toLowerCase_trim, trim_idempotent, toLowerCase_trim, toLowerCase_idempotent.
  reflexivity.
Qed.

(** The passthrough name of a key has that key. *)
Lemma header_key_passthrough src :
  header_key (passthrough (header_key src)) = header_key src.
Proof.
  rewrite passthrough_eq_by_letter. unfold passthrough_by_letter.
  unfold header_key at 1. rewrite toLowerCase_capitalize.
  apply header_key_idempotent.
Qed.

Lemma synonymLookup_values k v :
  Map.get String.eqb synonymLookup k = Some v ->
  v <> EmptyString
  /\ resolve v = v
  /\ exists synonyms, In (v, synonyms) COLUMN_SYNONYMS /\ In k synonyms.
Proof.
  intros H. apply (map_get_In String.eqb String.eqb_eq) in H.
  assert (C : forallb
                (fun e : string * string =>
                   negb (String.eqb (snd e) EmptyString)
                   && String.eqb (resolve (snd e)) (snd e)
                   && existsb (fun t : string * list string =>
                                 String.eqb (fst t) (snd e)
                                 && existsb (String.eqb (fst e)) (snd t))
                              COLUMN_SYNONYMS)
                synonymLookup = true) by (vm_compute; reflexivity).
  rewrite forallb_forall in C. specialize (C _ H). cbn [fst snd] in C.
  apply andb_true_iff in C. destruct C as [C C3].
  apply andb_true_iff in C. destruct C as [C1 C2].
  split; [|split].
  - apply negb_true_iff, String.eqb_neq in C1. exact C1.
  - apply String.eqb_eq. exact C2.
  - apply existsb_exists in C3. destruct C3 as ([t syns] & Hin & C3). cbn [fst snd] in C3.
    apply andb_true_iff in C3. destruct C3 as [Ct Ck].
    apply String.eqb_eq in Ct. subst t.
    apply existsb_exists in Ck. destruct Ck as (a & Ha & Ek).
    apply String.eqb_eq in Ek. subst a. exists syns. split; assumption.
Qed.

Lemma synonym_listed standard synonyms alias :
  In (standard, synonyms) COLUMN_SYNONYMS -> In alias synonyms ->
  Map.get String.eqb synonymLookup alias = Some standard
  /\ standard <> EmptyString
  /\ In (header_key standard) synonyms.
Proof.
  intros He Ha.
  assert (C : forallb
                (fun e : string * list string =>
                   negb (String.eqb (fst e) EmptyString)
                   && existsb (String.eqb (header_key (fst e))) (snd e)
                   && forallb (fun a =>
                                 match Map.get String.eqb synonymLookup a with
                                 | Some v => String.eqb v (fst e)
                                 | None => false
                                 end) (snd e))
                COLUMN_SYNONYMS = true) by (vm_compute; reflexivity).
  rewrite forallb_forall in C. specialize (C _ He). cbn [fst snd] in C.
  apply andb_true_iff in C. destruct C as [C C3].
  apply andb_true_iff in C. destruct C as [C1 C2].
  rewrite forallb_forall in C3. specialize (C3 _ Ha).
  split; [|split].
  - destruct (Map.get String.eqb synonymLookup alias) as [v|]; [|discriminate].
    apply String.eqb_eq in C3. subst v. reflexivity.
  - apply negb_true_iff, String.eqb_neq in C1. exact C1.
  - apply existsb_exists in C2. destruct C2 as (a & Hin & E).
    apply String.eqb_eq in E. subst a. exact Hin.
Qed.

Lemma truthy_string_Some o s : truthy_string o = Some s -> o = Some s.
Proof.
  destruct o as [x|]; simpl; [|discriminate].
  destruct (String.eqb x EmptyString); [discriminate|]. intros H. exact H.
Qed.

(** The name a header resolves to resolves to itself. *)
Lemma resolve_of_resolved (src : string) : resolve (resolve src) = resolve src.
Proof.
  destruct (truthy_string (Map.get String.eqb synonymLookup (header_key src)))
    as [standard|] eqn:E.
  - assert (R : resolve src = standard) by (unfold resolve; rewrite E; reflexivity).
    rewrite R. apply truthy_string_Some in E. apply synonymLookup_values in E. apply E.
  - assert (R : resolve src = passthrough (header_key src))
      by (unfold resolve; rewrite E; reflexivity).
    rewrite R at 1. apply resolve_by_key. apply header_key_passthrough.
Qed.

(** *** ASCII strings stay ASCII *)

Lemma ascii_case_chars c :
  ascii_char c = true ->
  ascii_char (JS.toUpperChar c) = true /\ ascii_char (JS.toLowerChar c) = true.
Proof.
  destruct c as [[] [] [] [] [] [] [] []]; vm_compute; intros H;
    first [split; reflexivity | discriminate H].
Qed.

Lemma ascii_only_app a b : ascii_only (a ++ b) = ascii_only a && ascii_only b.
Proof.
  induction a as [|c a IH]; simpl; [reflexivity|].
  rewrite IH, andb_assoc. reflexivity.
Qed.

Lemma ascii_only_map_chars f s :
  (forall c, ascii_char c = true -> ascii_char (f c) = true) ->
  ascii_only s = true -> ascii_only (JS.map_chars f s) = true.
Proof.
  intros Hf. induction s as [|c s IH]; simpl; intros H; [reflexivity|].
  apply andb_true_iff in H. destruct H as [Hc Hs].
  rewrite (Hf c Hc), (IH Hs). reflexivity.
Qed.

Lemma ascii_only_capitalize rest s : forall start,
  (forall c, ascii_char c = true -> ascii_char (rest c) = true) ->
  ascii_only s = true -> ascii_only (capitalize_from rest start s) = true.
Proof.
  induction s as [|c s IH]; intros start Hrest H; [reflexivity|].
  simpl in *. apply andb_true_iff in H. destruct H as [Hc Hs].
  rewrite (IH _ Hrest Hs), andb_true_r.
  destruct start; [apply ascii_case_chars; exact Hc|apply Hrest; exact Hc].
Qed.

Lemma ascii_only_trimStart s : ascii_only s = true -> ascii_only (JS.trimStart s) = true.
Proof.
  induction s as [|c s IH]; simpl; intros H; [reflexivity|].
  destruct (JS.isWhiteSpace c); [|exact H].
  apply andb_true_iff in H. apply IH, H.
Qed.

Lemma ascii_only_trimEnd s : ascii_only s = true -> ascii_only (JS.trimEnd s) = true.
Proof.
  induction s as [|c s IH]; simpl; intros H; [reflexivity|].
  apply andb_true_iff in H. destruct H as [Hc Hs]. specialize (IH Hs).
  destruct (JS.trimEnd s) as [|d t].
  - destruct (JS.isWhiteSpace c); simpl; [reflexivity|]. rewrite Hc. reflexivity.
  - simpl in *. rewrite Hc. exact IH.
Qed.

Lemma ascii_only_trim s : ascii_only s = true -> ascii_only (JS.trim s) = true.
Proof. intros H. apply ascii_only_trimEnd, ascii_only_trimStart, H. Qed.

Lemma ascii_only_replace_ws s : forall inrun,
  ascii_only s = true -> ascii_only (JS.replace_ws_from inrun s) = true.
Proof.
  induction s as [|c s IH]; intros inrun H; [reflexivity|].
  simpl in *. apply andb_true_iff in H. destruct H as [Hc Hs].
  destruct (JS.isWhiteSpace c).
  - destruct inrun; [apply IH; exact Hs|]. simpl. apply IH. exact Hs.
  - simpl. rewrite Hc. apply IH. exact Hs.
Qed.

Lemma ascii_only_header_key src :
  ascii_only src = true -> ascii_only (header_key src) = true.
Proof.
  intros H. unfold header_key. apply ascii_only_trim.
  apply ascii_only_map_chars; [|exact H].
  intros c Hc. apply ascii_case_chars. exact Hc.
Qed.

Lemma ascii_only_resolve src : ascii_only src = true -> ascii_only (resolve src) = true.
Proof.
  intros H. unfold resolve.
  destruct (truthy_string (Map.get String.eqb synonymLookup (header_key src)))
    as [standard|] eqn:E.
  - apply truthy_string_Some in E.
    apply (map_get_In String.eqb String.eqb_eq) in E.
    assert (C : forallb (fun e : string * string => ascii_only (snd e)) synonymLookup = true)
      by (vm_compute; reflexivity).
    rewrite forallb_forall in C. apply (C _ E).
  - rewrite passthrough_eq_by_letter. apply ascii_only_capitalize.
    + intros c Hc. exact Hc.
    + apply ascii_only_header_key. exact H.
Qed.

(** X11: canonical names are stable.  For a header of ASCII characters,
    the name it resolves to is again made of ASCII characters and resolves
    to itself, so the headers of a merged or exported table keep their
    names when they are mapped again. *)
Theorem resolve_idempotent (src : string) :
  ascii_only src = true ->
  ascii_only (resolve src) = true /\ resolve (resolve src) = resolve src.
Proof.
  intros H. split; [apply ascii_only_resolve; exact H|apply resolve_of_resolved].
Qed.

Lemma resolve_idempotent_witness :
  ascii_only (resolve " unit  COST ") = true
  /\ resolve (resolve " unit  COST ") = resolve " unit  COST ".
Proof. apply (resolve_idempotent " unit  COST "). reflexivity. Defined.

(** A header resolves to the standard name of an entry exactly when its
    key is one of the synonyms the entry lists. *)
Lemma standard_name_by_synonym (standard : string) (synonyms : list string)
    (src : string) :
  In (standard, synonyms) COLUMN_SYNONYMS ->
  (resolve src = standard <-> In (header_key src) synonyms).
Proof.
  intros He. split.
  - intros R. unfold resolve in R.
    destruct (truthy_string (Map.get String.eqb synonymLookup (header_key src)))
      as [v|] eqn:E.
    + subst v. apply truthy_string_Some in E.
      destruct (synonymLookup_values _ _ E) as (_ & _ & syns & Hin & Hk).
      assert (U : NoDup (map fst COLUMN_SYNONYMS)).
      { repeat constructor; simpl; intuition discriminate. }
      pose proof (map_In_get String.eqb String.eqb_eq _ _ _ U He) as G1.
      pose proof (map_In_get String.eqb String.eqb_eq _ _ _ U Hin) as G2.
      rewrite G1 in G2. inversion G2. exact Hk.
    + rewrite <- (header_key_passthrough src), R.
      destruct synonyms as [|a synonyms].
      * assert (C : forallb (fun e : string * list string =>
                               negb (Nat.eqb (List.length (snd e)) 0))
                            COLUMN_SYNONYMS = true) by (vm_compute; reflexivity).
        rewrite forallb_forall in C. specialize (C _ He). discriminate.
      * apply (synonym_listed standard (a :: synonyms) a He (or_introl eq_refl)).
  - intros Hk. destruct (synonym_listed _ _ _ He Hk) as (G & Hne & _).
    unfold resolve. rewrite G. simpl.
    apply String.eqb_neq in Hne. rewrite Hne. reflexivity.
Qed.

(** X12: the synonym table decides the standard names and nothing else
    does: for an entry of [COLUMN_SYNONYMS] and a header of ASCII
    characters, the header resolves to the standard name exactly when its
    trimmed, lower-cased form is one of the listed synonyms. *)
Theorem resolve_standard_iff (standard : string) (synonyms : list string)
    (src : string) :
  ascii_only src = true ->
  In (standard, synonyms) COLUMN_SYNONYMS ->
  (resolve src = standard <-> In (header_key src) synonyms).
Proof. intros _ He. apply standard_name_by_synonym. exact He. Qed.

Lemma resolve_standard_iff_witness :
  resolve "  QTY. " = "Quantity".
Proof.
  apply (resolve_standard_iff "Quantity"
           ["quantity"; "qty"; "qty."; "units"; "count"; "amount"] "  QTY. ").
  - reflexivity.
  - simpl. tauto.
  - vm_compute. tauto.
Defined.

(** ** The rationalized table *)

Lemma ws_normal_normalized_string cell : ws_normal (normalized_string cell) = true.
Proof.
  unfold normalized_string.
  destruct (assoc _ VALUE_ABBREVIATIONS) as [expansion|] eqn:E.
  - destruct (abbreviation_expansions _ _ E) as [->|[->| ->]]; reflexivity.
  - apply ws_normal_casing_string, ws_normal_normalized.
Qed.

Lemma has_content_exists row :
  has_content row = true <-> exists c, In c row /\ c <> EmptyString.
Proof.
  unfold has_content. rewrite existsb_exists. split; intros (c & Hc & H); exists c;
    (split; [exact Hc|]).
  - apply negb_true_iff, String.eqb_neq in H. exact H.
  - apply negb_true_iff, String.eqb_neq. exact H.
Qed.

(** X13: what a completed run leaves in the rationalized table: every cell
    is a string that [trim] and the whitespace collapse no longer change,
    no two rows are equal cell by cell when lower-cased, and every row has
    a cell that is not empty. *)
Theorem rationalized_table_invariant hdrs (rows : list (list string)) r :
  rationalize hdrs (cells rows) = Ok r ->
  exists out,
    rationRows r = cells out
    /\ Forall (Forall (fun c => JS.trim c = c /\ JS.replace_ws c = c)) out
    /\ NoDup (map lowered out)
    /\ Forall (fun row => exists c, In c row /\ c <> EmptyString) out.
Proof.
  intros H. destruct (rationalize_Ok_strings _ _ _ H) as [Hrows _].
  destruct (rationalized_strings_spec rows) as (Hnodup & Hfilter & Hcells).
  exists (rationalized_strings rows). split; [exact Hrows|]. split; [|split].
  - apply Forall_forall. intros row Hrow. apply Forall_forall. intros c Hc.
    destruct (Hcells row c Hrow Hc) as (cell & ->).
    apply ws_normal_fixed, ws_normal_normalized_string.
  - unfold key_of in Hnodup. rewrite <- (map_map lowered (JS.join "|")) in Hnodup.
    apply NoDup_map_inv in Hnodup. exact Hnodup.
  - rewrite <- Hfilter. apply Forall_forall. intros row Hrow.
    apply filter_In in Hrow. apply has_content_exists. apply Hrow.
Qed.

Lemma rationalized_table_invariant_witness :
  exists out,
    cells [["100"; "Hex Bolt"]; ["200"; EmptyString]] = cells out
    /\ Forall (Forall (fun c => JS.trim c = c /\ JS.replace_ws c = c)) out
    /\ NoDup (map lowered out)
    /\ Forall (fun row => exists c, In c row /\ c <> EmptyString) out.
Proof.
  apply (rationalized_table_invariant ["Part Number"; "Description"]
           [[" 100"; "HEX   BOLT"]; ["100"; "hex bolt"]; [EmptyString; " "]; ["200"; EmptyString]]
           (mkRationalized ["Part Number"; "Description"]
              (cells [["100"; "Hex Bolt"]; ["200"; EmptyString]])
              (mkRationStats 2 0 2 2 2))).
  vm_compute. reflexivity.
Defined.

(** ** Counters *)

Lemma counters_within_refl k : counters_within 0 k k.
Proof. unfold counters_within. lia. Qed.

Lemma counters_within_trans a b k k1 k2 :
  counters_within a k k1 -> counters_within b k1 k2 -> counters_within (a + b) k k2.
Proof. unfold counters_within. lia. Qed.

Lemma casing_pass_counters s k v k' :
  casing_pass (VString s) k = Ok (v, k') ->
  k' = k \/ k' = mkCounters (abbrFixed k) (S (casingFixed k)) (wsFixed k).
Proof.
  unfold casing_pass. cbn [length_of].
  destruct (Nat.ltb 3 (String.length s)); [|intros H; inversion H; auto].
  unfold string_method, bind, ret.
  destruct (String.eqb s (JS.toUpperCase s) || String.eqb s (JS.toLowerCase s));
    [|intros H; inversion H; auto].
  destruct (String.eqb (titleCase s) s); intros H; inversion H; auto.
Qed.

(** One call of the cell callback moves the whitespace counter by at most
    one, and the abbreviation and casing counters by at most one
    together. *)
Lemma normalize_cell_counters cell k v k' :
  normalize_cell cell k = Ok (v, k') -> counters_within 1 k k'.
Proof.
  destruct cell as [s| |]; try discriminate.
  rewrite normalize_cell_stages.
  unfold whitespace_pass, abbreviation_pass, get_abbreviation.
  set (c := JS.replace_ws (JS.trim s)).
  unfold bind at 1. unfold bind at 1.
  assert (W : exists k0,
             (if String.eqb (JS.trim s) s then ret tt else incr_ws) k = Ok (tt, k0)
             /\ abbrFixed k0 = abbrFixed k /\ casingFixed k0 = casingFixed k
             /\ wsFixed k <= wsFixed k0 <= S (wsFixed k)).
  { destruct (String.eqb (JS.trim s) s); eexists; (split; [reflexivity|simpl; lia]). }
  destruct W as (k0 & -> & Wa & Wc & Ww). unfold ret at 1.
  destruct (assoc c VALUE_ABBREVIATIONS) as [expansion|] eqn:Eown.
  - assert (Hfix : forall k1, casing_pass (VString expansion) k1 = Ok (VString expansion, k1)).
    { destruct (abbreviation_expansions _ _ Eown) as [->|[->| ->]]; reflexivity. }
    assert (Htruthy : truthy (VString expansion) = true).
    { destruct (abbreviation_expansions _ _ Eown) as [->|[->| ->]]; reflexivity. }
    rewrite Htruthy. unfold bind, incr_abbr, ret. rewrite Hfix.
    intros H. inversion H; subst. unfold counters_within. simpl. lia.
  - destruct (assoc c Object_prototype) as [w|] eqn:Eproto.
    + destruct (inherited_values c w Eproto) as (Htruthy & _ & Hcasing).
      rewrite Htruthy. unfold bind, incr_abbr, ret. rewrite Hcasing.
      intros H. inversion H; subst. unfold counters_within. simpl. lia.
    + unfold ret. intros H. apply casing_pass_counters in H.
      destruct H as [->| ->]; unfold counters_within; simpl; lia.
Qed.

Lemma mapM_counters {A B} (f : A -> M B) l :
  (forall a k b k', f a k = Ok (b, k') -> counters_within 1 k k') ->
  forall k l' k', mapM f l k = Ok (l', k') -> counters_within (List.length l) k k'.
Proof.
  intros Hf. induction l as [|a l IH]; simpl; intros k l' k' H.
  - apply ret_Ok in H. destruct H as [_ <-]. apply counters_within_refl.
  - apply bind_Ok in H. destruct H as (b & k1 & Hb & H).
    apply bind_Ok in H. destruct H as (bs & k2 & Hbs & H).
    apply ret_Ok in H. destruct H as [_ <-].
    apply (counters_within_trans 1 (List.length l) k k1 k2); eauto.
Qed.

Lemma normalize_rows_counters rows : forall k rows' k',
  normalize_rows rows k = Ok (rows', k') ->
  counters_within (List.length (concat rows)) k k'.
Proof.
  unfold normalize_rows. induction rows as [|row rows IH]; simpl; intros k rows' k' H.
  - apply ret_Ok in H. destruct H as [_ <-]. apply counters_within_refl.
  - apply bind_Ok in H. destruct H as (b & k1 & Hb & H).
    apply bind_Ok in H. destruct H as (bs & k2 & Hbs & H).
    apply ret_Ok in H. destruct H as [_ <-].
    rewrite length_app.
    apply (counters_within_trans _ _ k k1 k2); [|eauto].
    eapply mapM_counters; [|exact Hb].
    intros a k0 v k0'. apply normalize_cell_counters.
Qed.

Lemma row_key_counters row k key k' : row_key row k = Ok (key, k') -> k' = k.
Proof.
  unfold row_key. intros H. apply bind_Ok in H. destruct H as (l & k1 & Hl & H).
  apply ret_Ok in H. destruct H as [_ <-].
  revert k l k1 Hl. induction row as [|c row IH]; simpl; intros k l k1 H.
  - apply ret_Ok in H. destruct H as [_ <-]. reflexivity.
  - apply bind_Ok in H. destruct H as (x & k2 & Hx & H).
    apply bind_Ok in H. destruct H as (xs & k3 & Hxs & H).
    apply ret_Ok in H. destruct H as [_ <-].
    apply IH in Hxs. subst k3.
    destruct c; try discriminate. simpl in Hx.
    unfold bind, ret in Hx. inversion Hx. reflexivity.
Qed.

Lemma dedup_loop_counters rows : forall seen deduped n k res k',
  dedup_loop rows seen deduped n k = Ok (res, k') -> k' = k.
Proof.
  induction rows as [|row rows IH]; simpl; intros seen deduped n k res k' H.
  - apply ret_Ok in H. destruct H as [_ <-]. reflexivity.
  - apply bind_Ok in H. destruct H as (key & k1 & Hkey & H).
    apply row_key_counters in Hkey. subst k1.
    destruct (negb (has seen key)); eapply IH; exact H.
Qed.

(** X14: in the statistics of a completed run, the abbreviation and casing
    fixes together never exceed the number of cells of the merged table (a
    cell is counted for one or the other, never both), and neither do the
    whitespace fixes. *)
Theorem fix_counters_bounded hdrs (rows : list (list value)) r :
  rationalize hdrs rows = Ok r ->
  abbreviationsFixed (rationStats r) + casingFixedStat (rationStats r)
    <= List.length (concat rows)
  /\ whitespaceFixed (rationStats r) <= List.length (concat rows).
Proof.
  intros H. apply rationalize_Ok_inv in H.
  destruct H as (normalized & k1 & deduped & dups & k2 & Hn & Hd & ->). simpl.
  apply dedup_loop_counters in Hd. subst k2.
  apply normalize_rows_counters in Hn. unfold counters_within in Hn. simpl in Hn. lia.
Qed.

Lemma fix_counters_bounded_witness :
  let r := mkRationalized ["Unit of Measure"; "Description"]
             (cells [["Each"; "Hex Bolt"]]) (mkRationStats 0 1 1 1 1) in
  abbreviationsFixed (rationStats r) + casingFixedStat (rationStats r) <= 2
  /\ whitespaceFixed (rationStats r) <= 2.
Proof.
  intros r.
  apply (fix_counters_bounded ["Unit of Measure"; "Description"]
           (cells [[" ea. "; "HEX BOLT"]]) r).
  vm_compute. reflexivity.
Defined.

(** ** Where the output rows come from *)

Lemma subsequence_trans {A} (l1 l2 l3 : list A) :
  subsequence l1 l2 -> subsequence l2 l3 -> subsequence l1 l3.
Proof.
  intros H12 H23. revert l1 H12.
  induction H23 as [|x l2 l3 H IH|x l2 l3 H IH]; intros l1 H12.
  - exact H12.
  - constructor. apply IH. exact H12.
  - inversion H12; subst.
    + apply subsequence_skip. apply IH. assumption.
    + apply subsequence_keep. apply IH. assumption.
Qed.

Lemma subsequence_filter {A} (p : A -> bool) l : subsequence (filter p l) l.
Proof.
  induction l as [|x l IH]; simpl; [constructor|].
  destruct (p x); [apply subsequence_keep|apply subsequence_skip]; exact IH.
Qed.

Lemma dedup_strings_subsequence rows : forall seen deduped n,
  exists tail,
    snd (fst (dedup_strings rows seen deduped n)) = deduped ++ tail
    /\ subsequence tail rows.
Proof.
  induction rows as [|row rows IH]; intros seen deduped n; simpl.
  - exists []. rewrite app_nil_r. split; [reflexivity|constructor].
  - destruct (negb (has seen (key_of row))).
    + destruct (IH (seen ++ [key_of row]) (deduped ++ [row]) n) as (tail & E & S).
      exists (row :: tail). rewrite E, <- app_assoc. split; [reflexivity|].
      apply subsequence_keep. exact S.
    + destruct (IH seen deduped (S n)) as (tail & E & S).
      exists tail. split; [exact E|]. apply subsequence_skip. exact S.
Qed.

(** X15: a completed run invents and reorders nothing: its rows are, in
    the order of the merged table, some of the merged rows with every cell
    normalized (trimmed and collapsed, then replaced by its expansion or
    title-cased where the rules apply). *)
Theorem rationalized_rows_origin hdrs (rows : list (list string)) r :
  rationalize hdrs (cells rows) = Ok r ->
  exists out,
    rationRows r = cells out
    /\ subsequence out (map (map normalized_string) rows).
Proof.
  intros H. destruct (rationalize_Ok_strings _ _ _ H) as [Hrows _].
  exists (rationalized_strings rows). split; [exact Hrows|].
  unfold rationalized_strings.
  destruct (dedup_strings_subsequence (map (map normalized_string) rows) [] [] 0)
    as (tail & E & S).
  rewrite E. simpl.
  eapply subsequence_trans; [apply subsequence_filter|exact S].
Qed.

Lemma rationalized_rows_origin_witness :
  exists out,
    cells [["100"; "Hex Bolt"]] = cells out
    /\ subsequence out
         (map (map normalized_string) [["100"; "HEX BOLT"]; ["100"; "hex bolt"]]).
Proof.
  apply (rationalized_rows_origin ["Part Number"; "Description"]
           [["100"; "HEX BOLT"]; ["100"; "hex bolt"]]
           (mkRationalized ["Part Number"; "Description"]
              (cells [["100"; "Hex Bolt"]]) (mkRationStats 1 0 2 0 1))).
  vm_compute. reflexivity.
Defined.
(** ** Rows with content are not lost *)

Lemma string_length_app (a b : string) :
  String.length (a ++ b) = String.length a + String.length b.
Proof. induction a as [|c a IH]; simpl; [|rewrite IH]; reflexivity. Qed.

Lemma join_bar_length_ge l : List.length l - 1 <= String.length (JS.join "|" l).
Proof.
  induction l as [|x l IH]; [simpl; lia|].
  destruct l as [|y l]; [simpl; lia|].
  change (JS.join "|" (x :: y :: l)) with (x ++ String "|" (JS.join "|" (y :: l)))%string.
  rewrite string_length_app. simpl in *. lia.
Qed.

Lemma join_bar_empty_length n :
  String.length (JS.join "|" (repeat EmptyString n)) = n - 1.
Proof.
  induction n as [|n IH]; [reflexivity|].
  destruct n as [|n]; [reflexivity|].
  change (JS.join "|" (repeat EmptyString (S (S n))))
    with (String "|" (JS.join "|" (repeat EmptyString (S n)))).
  cbn [String.length]. rewrite IH. lia.
Qed.

Lemma join_bar_all_empty l :
  JS.join "|" l = JS.join "|" (repeat EmptyString (List.length l)) ->
  Forall (fun c => c = EmptyString) l.
Proof.
  induction l as [|x l IH]; intros H; [constructor|].
  destruct l as [|y l].
  - simpl in H. subst x. repeat constructor.
  - change (JS.join "|" (x :: y :: l))
      with (x ++ String "|" (JS.join "|" (y :: l)))%string in H.
    change (JS.join "|" (repeat EmptyString (List.length (x :: y :: l))))
      with (String "|" (JS.join "|" (repeat EmptyString (List.length (y :: l))))) in H.
    assert (Hx : x = EmptyString).
    { apply (f_equal String.length) in H.
      rewrite string_length_app in H. cbn [String.length] in H.
      rewrite join_bar_empty_length in H.
      pose proof (join_bar_length_ge (y :: l)) as G.
      cbn [List.length] in G, H.
      destruct x; [reflexivity|cbn [String.length] in H; lia]. }
    subst x. simpl in H. inversion H as [H'].
    constructor; [reflexivity|]. apply IH. exact H'.
Qed.

Lemma has_content_false row :
  has_content row = false <-> Forall (fun c => c = EmptyString) row.
Proof.
  unfold has_content. induction row as [|c row IH]; simpl.
  - split; [constructor|reflexivity].
  - destruct (String.eqb c EmptyString) eqn:E; simpl.
    + apply String.eqb_eq in E. rewrite IH. split; intros H.
      * constructor; assumption.
      * inversion H; assumption.
    + apply String.eqb_neq in E. split; [discriminate|].
      intros H. inversion H. contradiction.
Qed.

Lemma toLowerCase_empty c : JS.toLowerCase c = EmptyString <-> c = EmptyString.
Proof. destruct c; simpl; split; intros H; try reflexivity; discriminate. Qed.

Lemma has_content_false_key row :
  has_content row = false
  <-> key_of row = JS.join "|" (repeat EmptyString (List.length row)).
Proof.
  rewrite has_content_false. split.
  - intros F. unfold key_of. f_equal.
    induction F as [|c row Hc F IH]; [reflexivity|].
    subst c. simpl. rewrite IH. reflexivity.
  - intros H. unfold key_of in H.
    assert (L : List.length row = List.length (lowered row))
      by (unfold lowered; rewrite length_map; reflexivity).
    rewrite L in H. apply join_bar_all_empty in H.
    unfold lowered in H. rewrite Forall_map in H.
    eapply Forall_impl; [|exact H]. intros c Hc. apply toLowerCase_empty. exact Hc.
Qed.

Lemma has_content_by_key a b :
  List.length a = List.length b -> key_of a = key_of b ->
  has_content a = has_content b.
Proof.
  intros L K.
  destruct (has_content a) eqn:Ea; destruct (has_content b) eqn:Eb; try reflexivity.
  - apply has_content_false_key in Eb. rewrite <- L, <- K in Eb.
    apply has_content_false_key in Eb. congruence.
  - apply has_content_false_key in Ea. rewrite L, K in Ea.
    apply has_content_false_key in Ea. congruence.
Qed.

(** X16: nothing with content is lost.  When the merged rows all have the
    same number of cells and the run completes, every merged row that has a
    non-empty cell after normalization is represented in the output by a
    row with the same deduplication key. *)
Theorem rows_with_content_represented hdrs (rows : list (list string)) r (n : nat)
    (row : list string) :
  Forall (fun x => List.length x = n) rows ->
  rationalize hdrs (cells rows) = Ok r ->
  In row rows ->
  (exists c, In c row /\ normalized_string c <> EmptyString) ->
  exists kept,
    In (map VString kept) (rationRows r)
    /\ key_of kept = key_of (map normalized_string row).
Proof.
  intros Hlen H Hrow (c & Hc & Hne).
  destruct (rationalize_Ok_strings _ _ _ H) as [Hrows _]. rewrite Hrows.
  unfold rationalized_strings.
  set (N := map (map normalized_string) rows).
  destruct (dedup_strings N [] [] 0) as [[seen deduped] d] eqn:E.
  destruct (dedup_strings_inv _ _ _ _ _ _ _ E eq_refl)
    as (Hseen & Hkeys & _ & tail & Htail & Hsub).
  simpl in Htail. subst tail. simpl.
  set (row' := map normalized_string row).
  assert (Hrow' : In row' N) by (apply in_map; exact Hrow).
  pose proof (Hkeys row' Hrow') as Hk. rewrite Hseen in Hk.
  apply in_map_iff in Hk. destruct Hk as (kept & Hkey & Hkept).
  exists kept. split; [|exact Hkey].
  unfold cells. apply in_map. apply filter_In. split; [exact Hkept|].
  assert (LN : forall x, In x N -> List.length x = n).
  { intros x Hx. apply in_map_iff in Hx. destruct Hx as (x0 & <- & Hx0).
    rewrite length_map. rewrite Forall_forall in Hlen. apply Hlen. exact Hx0. }
  rewrite (has_content_by_key kept row').
  - apply has_content_exists. exists (normalized_string c). split; [|exact Hne].
    apply in_map. exact Hc.
  - rewrite (LN kept (Hsub kept Hkept)), (LN row' Hrow'). reflexivity.
  - exact Hkey.
Qed.

Lemma rows_with_content_represented_witness :
  exists kept,
    In (map VString kept) (cells [["100"; "Hex Bolt"]])
    /\ key_of kept = key_of (map normalized_string ["100"; "hex bolt"]).
Proof.
  apply (rows_with_content_represented ["Part Number"; "Description"]
           [["100"; "HEX BOLT"]; ["100"; "hex bolt"]]
           (mkRationalized ["Part Number"; "Description"]
              (cells [["100"; "Hex Bolt"]]) (mkRationStats 1 0 2 0 1)) 2).
  - repeat constructor.
  - vm_compute. reflexivity.
  - right. left. reflexivity.
  - exists "100". split; [left; reflexivity|vm_compute; discriminate].
Defined.

(** ** Sessions *)

(** X17: no event skips a stage.  An event that moves the session forward
    moves it by exactly one stage, and only the three forward buttons do
    so: consolidate, rationalize, and the next button of the results. *)
Theorem forward_one_stage_at_a_time (e : Event) (s s' : Session) :
  handle e s = Some s' ->
  step_index (step s) < step_index (step s') ->
  step_index (step s') = S (step_index (step s))
  /\ (e = Consolidate \/ e = RationalizeClick \/ e = ResultsNext).
Proof.
  intros H Hlt.
  destruct e; handle_cases H; simpl in *;
    repeat match goal with
           | E : Step_eqb _ _ = true |- _ => apply Step_eqb_eq in E; rewrite E in *
           | E : _ && _ = true |- _ => apply andb_true_iff in E; destruct E
           | E : Nat.ltb _ _ = true |- _ => apply Nat.ltb_lt in E
           end;
    simpl in *; try lia; auto.
Qed.

Lemma forward_one_stage_at_a_time_witness :
  step_index Rationalize = S (step_index Preview)
  /\ (RationalizeClick = Consolidate \/ RationalizeClick = RationalizeClick
      \/ RationalizeClick = ResultsNext).
Proof.
  apply (forward_one_stage_at_a_time RationalizeClick (mkSession Preview Idle 2 [])
           (mkSession Rationalize Analyzing 2 [Mapping; Deduplicating; Normalizing; Done])).
  - reflexivity.
  - simpl. lia.
Defined.

Lemma remove_nth_Forall {A} (P : A -> Prop) l : forall i,
  Forall P l -> Forall P (remove_nth i l).
Proof.
  induction l as [|x l IH]; intros i F; destruct i; simpl; try exact F.
  - inversion F; assumption.
  - inversion F; subst. constructor; [assumption|apply IH; assumption].
Qed.

Lemma handle_invariant e s s' :
  handle e s = Some s' -> session_invariant s -> session_invariant s'.
Proof.
  intros H (Hfiles & Hphase & Htimers). unfold session_invariant.
  destruct e; handle_cases H; simpl in *;
    repeat match goal with
           | E : Step_eqb _ _ = true |- _ => apply Step_eqb_eq in E
           | E : _ && _ = true |- _ => apply andb_true_iff in E; destruct E
           | E : Nat.ltb _ _ = true |- _ => apply Nat.ltb_lt in E
           | E : negb _ = true |- _ => apply negb_true_iff in E
           | E : Nat.eqb _ _ = false |- _ => apply Nat.eqb_neq in E
           end.
  - (* stepper *)
    split; [|split; [|exact Htimers]].
    + intros _. apply Hfiles. intros E. rewrite E in *. simpl in *. lia.
    + intros [E|E]; rewrite E in *; apply Hphase; destruct (step s); simpl in *;
        try lia; auto.
  - split; [|split; [|exact Htimers]]; [congruence|intros [E|E]; congruence].
  - split; [|split; [|exact Htimers]]; [congruence|intros [E|E]; congruence].
  - split; [|split; [|exact Htimers]]; [lia|intros [E|E]; discriminate].
  - split; [|split; [|exact Htimers]]; [congruence|intros [E|E]; discriminate].
  - split; [|split].
    + intros _. apply Hfiles. congruence.
    + intros _. discriminate.
    + apply Forall_app. split; [exact Htimers|].
      repeat constructor; discriminate.
  - (* a timer fires *)
    split; [exact Hfiles|]. split.
    + intros _. rewrite Forall_forall in Htimers.
      match goal with E : nth_error _ _ = Some _ |- _ => apply nth_error_In in E;
        apply Htimers in E; apply E end.
    + apply remove_nth_Forall. exact Htimers.
  - split; [|split; [|exact Htimers]].
    + intros _. apply Hfiles. congruence.
    + intros [E|E]; discriminate.
  - split; [|split; [|exact Htimers]].
    + intros _. apply Hfiles. congruence.
    + intros _. destruct (phase s); discriminate.
  - split; [|split]; assumption.
  - split; [|split]; assumption.
  - split; [|split; [|exact Htimers]]; [congruence|intros [E|E]; discriminate].
Qed.

Lemma reachable_invariant s : reachable s -> session_invariant s.
Proof.
  intros R. induction R as [|s e s' R IH H].
  - unfold session_invariant, initial. simpl.
    split; [congruence|]. split; [intros [E|E]; discriminate|constructor].
  - eapply handle_invariant; eassumption.
Qed.

(** X18: in every session a run of the page reaches, at least one file is
    loaded whenever the stage is past upload, and the phase is never idle in
    the rationalize and export stages. *)
Theorem reachable_sessions (s : Session) :
  reachable s ->
  (step s <> Upload -> 0 < nfiles s)
  /\ (step s = Rationalize \/ step s = Export -> phase s <> Idle).
Proof.
  intros R. destruct (reachable_invariant s R) as (H1 & H2 & _). split; assumption.
Qed.

Lemma reachable_sessions_witness :
  (step (mkSession Preview Idle 1 []) <> Upload -> 0 < nfiles (mkSession Preview Idle 1 []))
  /\ (step (mkSession Preview Idle 1 []) = Rationalize
      \/ step (mkSession Preview Idle 1 []) = Export ->
      phase (mkSession Preview Idle 1 []) <> Idle).
Proof.
  apply reachable_sessions.
  eapply reach_step with (e := Consolidate).
  - eapply reach_step with (e := FilesIngested 1).
    + apply reach_initial.
    + reflexivity.
  - reflexivity.
Defined.

(** X19: while the processing panel is shown (stage rationalize, phase not
    done) in a session the page can reach, the phase is one of the four
    rows of the panel, that row alone is marked active, the rows before it
    are marked done and the rows after it pending. *)
Theorem processing_panel_rows (s : Session) :
  reachable s -> step s = Rationalize -> phase s <> Done ->
  exists k,
    nth_error PHASE_ORDER k = Some (phase s)
    /\ forall i p, nth_error PHASE_ORDER i = Some p ->
         PhaseRow p (phase s) = mkRowMarks (Nat.ltb i k) (Nat.eqb i k) (Nat.ltb k i).
Proof.
  intros R Hstep Hdone.
  destruct (reachable_invariant s R) as (_ & Hidle & _).
  specialize (Hidle (or_introl Hstep)).
  destruct (phase s) eqn:E; try congruence;
    [exists 0|exists 1|exists 2|exists 3]; (split; [reflexivity|]);
    intros i p Hp;
    (destruct i as [|[|[|[|i]]]]; simpl in Hp;
     [inversion Hp; subst p; reflexivity ..|destruct i; discriminate]).
Qed.

Lemma processing_panel_rows_witness :
  exists k,
    nth_error PHASE_ORDER k = Some Analyzing
    /\ forall i p, nth_error PHASE_ORDER i = Some p ->
         PhaseRow p Analyzing = mkRowMarks (Nat.ltb i k) (Nat.eqb i k) (Nat.ltb k i).
Proof.
  apply (processing_panel_rows
           (mkSession Rationalize Analyzing 1 [Mapping; Deduplicating; Normalizing; Done])).
  - eapply reach_step with (e := RationalizeClick).
    + eapply reach_step with (e := Consolidate).
      * eapply reach_step with (e := FilesIngested 1).
        -- apply reach_initial.
        -- reflexivity.
      * reflexivity.
    + reflexivity.
  - reflexivity.
  - discriminate.
Defined.

(** ** The data table *)

(** X20: the table renders the first hundred rows, and shows its notice
    below them exactly when rows are left out; without the notice the
    rendered rows are all the rows. *)
Theorem data_table_notice {A} (rows : list A) :
  List.length (shown_rows rows) = Nat.min 100 (List.length rows)
  /\ (more_rows_notice rows = true <-> List.length (shown_rows rows) < List.length rows)
  /\ (more_rows_notice rows = false -> shown_rows rows = rows).
Proof.
  unfold shown_rows, more_rows_notice, MAX. rewrite length_firstn.
  split; [reflexivity|]. split.
  - rewrite Nat.ltb_lt. lia.
  - intros H. apply Nat.ltb_ge in H. apply firstn_all2. exact H.
Qed.

(** ** File names *)

Lemma string_eqb_length a b : String.eqb a b = true -> String.length a = String.length b.
Proof. intros H. apply String.eqb_eq in H. subst. reflexivity. Qed.

Lemma endsWith_shorter z suffix :
  String.length z < String.length suffix -> endsWith z suffix = false.
Proof.
  induction z as [|e z IH]; intros Hz.
  - destruct suffix; [simpl in Hz; lia|reflexivity].
  - cbn [endsWith]. rewrite IH by (cbn [String.length] in Hz; lia).
    rewrite orb_false_r.
    destruct (String.eqb (String e z) suffix) eqn:E; [|reflexivity].
    apply string_eqb_length in E. lia.
Qed.

Lemma endsWith_app stem : forall x suffix,
  String.length x = String.length suffix ->
  endsWith (stem ++ x) suffix = String.eqb x suffix.
Proof.
  induction stem as [|c stem IH]; intros x suffix L.
  - change ((EmptyString ++ x)%string) with x.
    destruct x as [|d x]; cbn [endsWith].
    + rewrite orb_false_r. reflexivity.
    + rewrite endsWith_shorter by (cbn [String.length] in L; lia).
      rewrite orb_false_r. reflexivity.
  - change ((String c stem ++ x)%string) with (String c (stem ++ x)).
    cbn [endsWith]. rewrite (IH x suffix L).
    destruct (String.eqb (String c (stem ++ x)) suffix) eqn:E; [|reflexivity].
    apply string_eqb_length in E. cbn [String.length] in E.
    rewrite string_length_app in E. lia.
Qed.

Lemma endsWith_last_char s : forall suffix,
  suffix <> EmptyString -> endsWith s suffix = true -> last_char s = last_char suffix.
Proof.
  induction s as [|c s IH]; intros suffix Hne H; cbn [endsWith] in H.
  - rewrite orb_false_r in H. apply String.eqb_eq in H. congruence.
  - apply orb_true_iff in H. destruct H as [H|H].
    + apply String.eqb_eq in H. subst. reflexivity.
    + rewrite <- (IH suffix Hne H).
      destruct s as [|d s]; [|reflexivity].
      cbn [endsWith] in H. rewrite orb_false_r in H.
      apply String.eqb_eq in H. congruence.
Qed.

Lemma last_char_app a b : b <> EmptyString -> last_char (a ++ b) = last_char b.
Proof.
  intros Hne. induction a as [|c a IH]; [reflexivity|].
  change ((String c a ++ b)%string) with (String c (a ++ b)).
  simpl. rewrite IH. destruct (a ++ b)%string eqn:E; [|reflexivity].
  destruct a; simpl in E; [congruence|discriminate].
Qed.

Lemma toLowerCase_app a b :
  JS.toLowerCase (a ++ b) = (JS.toLowerCase a ++ JS.toLowerCase b)%string.
Proof.
  unfold JS.toLowerCase. induction a as [|c a IH]; simpl; [|rewrite IH]; reflexivity.
Qed.

(** X21: the extension test is case-sensitive for CSV and not for
    spreadsheets.  A name whose last four characters are [.csv] in some
    other letter case is not read at all; a name that ends in [.xls] or
    [.xlsx] in any letter case takes the spreadsheet branch. *)
Theorem file_kind_by_extension (stem ext : string) :
  (JS.toLowerCase ext = ".csv" ->
   file_kind (stem ++ ext) = if String.eqb ext ".csv" then CsvFile else NotRead)
  /\ (JS.toLowerCase ext = ".xls" \/ JS.toLowerCase ext = ".xlsx" ->
      file_kind (stem ++ ext) = SheetFile).
Proof.
  assert (Llow : forall s, String.length (JS.toLowerCase s) = String.length s).
  { unfold JS.toLowerCase. induction s as [|c s IH]; simpl; [|rewrite IH]; reflexivity. }
  split.
  - intros Hext. unfold file_kind.
    assert (L : String.length ext = 4) by (rewrite <- Llow, Hext; reflexivity).
    rewrite (endsWith_app stem ext ".csv" L).
    destruct (String.eqb ext ".csv"); [reflexivity|].
    rewrite toLowerCase_app, Hext.
    rewrite (endsWith_app (JS.toLowerCase stem) ".csv" ".xls" eq_refl).
    destruct (endsWith (JS.toLowerCase stem ++ ".csv") ".xlsx") eqn:E; [|reflexivity].
    apply endsWith_last_char in E; [|discriminate].
    rewrite last_char_app in E by discriminate. discriminate.
  - intros Hext. unfold file_kind.
    assert (Hcsv : endsWith (stem ++ ext) ".csv" = false).
    { destruct (endsWith (stem ++ ext) ".csv") eqn:E; [|reflexivity].
      apply endsWith_last_char in E; [|discriminate].
      assert (Hne : ext <> EmptyString) by (destruct Hext as [H|H]; destruct ext; discriminate).
      rewrite last_char_app in E by exact Hne.
      assert (G : last_char (JS.toLowerCase ext)
                  = option_map JS.toLowerChar (last_char ext)).
      { clear. unfold JS.toLowerCase. induction ext as [|c ext IH]; [reflexivity|].
        simpl. destruct ext; [reflexivity|]. exact IH. }
      rewrite E in G. destruct Hext as [H|H]; rewrite H in G; discriminate. }
    rewrite Hcsv, toLowerCase_app.
    destruct Hext as [H|H]; rewrite H.
    + rewrite (endsWith_app (JS.toLowerCase stem) ".xls" ".xls" eq_refl). reflexivity.
    + rewrite (endsWith_app (JS.toLowerCase stem) ".xlsx" ".xlsx" eq_refl).
      rewrite orb_true_r. reflexivity.
Qed.

Lemma file_kind_by_extension_witness :
  file_kind "PARTS.CSV" = NotRead /\ file_kind "Parts.XLSX" = SheetFile.
Proof.
  split.
  - apply (proj1 (file_kind_by_extension "PARTS" ".CSV")). reflexivity.
  - apply (proj2 (file_kind_by_extension "Parts" ".XLSX")). right. reflexivity.
Defined.

Lemma merged_headers_columns_witness :
  let files := [ mkFileData "a.csv" ["Part Number"; "Qty"] [["100"; "5"]];
                 mkFileData "b.csv" ["P/N"; "qty."; "Colour"] [["100"; "5"; "red"]] ] in
  NoDup (mergedHeaders (mergeAndPreview files))
  /\ outputColumns (mergeAndPreview files) <= sourceColumns (mergeAndPreview files).
Proof.
  intros files. destruct (merged_headers_columns files) as (H1 & H2 & _).
  split; assumption.
Defined.

Lemma column_mappings_report_witness :
  let files := [ mkFileData "a.csv" ["Part Number"; "Qty"] [["100"; "5"]];
                 mkFileData "b.csv" ["P/N"; "qty."; "Colour"] [["100"; "5"; "red"]] ] in
  map target (columnMappings (mergeAndPreview files))
  = mergedHeaders (mergeAndPreview files).
Proof.
  intros files. exact (proj1 (column_mappings_report files)).
Defined.

Lemma data_table_notice_witness :
  more_rows_notice (repeat 0 101) = true
  <-> List.length (shown_rows (repeat 0 101)) < List.length (repeat 0 101).
Proof.
  exact (proj1 (proj2 (data_table_notice (repeat 0 101)))).
Defined.

Lemma rationalize_completes_iff_witness :
  exists r, rationalize ["Part Number"] (cells [["100"]; [" ea. "]]) = Ok r.
Proof.
  apply (proj2 (rationalize_completes_iff ["Part Number"] [["100"]; [" ea. "]])).
  repeat constructor.
Defined.

(** ** A second run, on ASCII tables *)

Lemma subsequence_In {A} (l1 l2 : list A) x :
  subsequence l1 l2 -> In x l1 -> In x l2.
Proof.
  intros S. induction S as [|y l1 l2 S IH|y l1 l2 S IH]; simpl; intros H.
  - exact H.
  - right. apply IH. exact H.
  - destruct H as [H|H]; [left; exact H|right; apply IH; exact H].
Qed.

Lemma ascii_only_casing_string c :
  ascii_only c = true -> ascii_only (casing_string c) = true.
Proof.
  intros H. unfold casing_string. destruct (_ && _); [|exact H].
  rewrite titleCase_by_letter. apply ascii_only_capitalize; [|exact H].
  intros d Hd. apply ascii_case_chars. exact Hd.
Qed.

Lemma ascii_only_normalized_string cell :
  ascii_only cell = true -> ascii_only (normalized_string cell) = true.
Proof.
  intros H. unfold normalized_string.
  destruct (assoc _ VALUE_ABBREVIATIONS) as [expansion|] eqn:E.
  - destruct (abbreviation_expansions _ _ E) as [->|[->| ->]]; reflexivity.
  - apply ascii_only_casing_string. apply ascii_only_replace_ws.
    apply ascii_only_trim. exact H.
Qed.

Lemma rationalized_strings_ascii rows :
  Forall (Forall (fun c => ascii_only c = true)) rows ->
  Forall (Forall (fun c => ascii_only c = true)) (rationalized_strings rows).
Proof.
  intros F. unfold rationalized_strings.
  destruct (dedup_strings_subsequence (map (map normalized_string) rows) [] [] 0)
    as (tail & E & S).
  rewrite E. simpl.
  apply Forall_forall. intros row Hrow. apply filter_In in Hrow.
  destruct Hrow as [Hrow _].
  apply (subsequence_In _ _ _ S) in Hrow. apply in_map_iff in Hrow.
  destruct Hrow as (row0 & <- & Hrow0).
  rewrite Forall_forall in F. specialize (F row0 Hrow0).
  apply Forall_map. eapply Forall_impl; [|exact F].
  intros c Hc. apply ascii_only_normalized_string. exact Hc.
Qed.

(** X23: on a table of ASCII cells, the table a completed run stores is
    again made of ASCII strings, and whenever a second run on it completes
    as well, that run returns the table it was given and reports no fix and
    no removed row. *)
Theorem rationalize_idempotent_when_completes hdrs (rows : list (list string)) r1 r2 :
  Forall (Forall (fun c => ascii_only c = true)) rows ->
  rationalize hdrs (cells rows) = Ok r1 ->
  rationalize (rationHeaders r1) (rationRows r1) = Ok r2 ->
  (exists out, rationRows r1 = cells out
               /\ Forall (Forall (fun c => ascii_only c = true)) out)
  /\ r2 = mkRationalized (rationHeaders r1) (rationRows r1)
            (mkRationStats 0 0 0 0 (List.length (rationRows r1))).
Proof.
  intros F H1 H2. split.
  - exists (rationalized_strings rows). split.
    + apply (rationalize_Ok_strings _ _ _ H1).
    + apply rationalized_strings_ascii. exact F.
  - apply (second_run_changes_nothing hdrs rows r1 r2 H1 H2).
Qed.

Lemma rationalize_idempotent_when_completes_witness :
  (exists out, cells [["100"; "Widget Assembly"]; ["Each"; "AB"]] = cells out
               /\ Forall (Forall (fun c => ascii_only c = true)) out)
  /\ mkRationalized ["Part Number"; "Description"]
       (cells [["100"; "Widget Assembly"]; ["Each"; "AB"]]) (mkRationStats 0 0 0 0 2)
     = mkRationalized ["Part Number"; "Description"]
         (cells [["100"; "Widget Assembly"]; ["Each"; "AB"]]) (mkRationStats 0 0 0 0 2).
Proof.
  apply (rationalize_idempotent_when_completes
           ["Part Number"; "Description"]
           [["100"; "WIDGET ASSEMBLY"]; [" ea. "; "AB"]; ["100"; "widget assembly"];
            [EmptyString; EmptyString]]
           (mkRationalized ["Part Number"; "Description"]
              (cells [["100"; "Widget Assembly"]; ["Each"; "AB"]])
              (mkRationStats 2 1 2 1 2))).
  - repeat constructor.
  - vm_compute. reflexivity.
  - vm_compute. reflexivity.
Defined.
